(** * PatreonEvents: the membership diffing and event-dedup engine

    A shallow embedding of [src/index.ts] (class [PatreonEvents]):
    the record mapping of [fetchMemberships], the dedup tracker
    ([hasProcessedEvent], [emitAndTrack]), the reconciliation tick
    ([checkForUpdates]), the timer wiring ([initialize], [stop],
    [restart]) with the listeners for [error] ([on], [once], [off]), the
    cache read by the constructor ([loadCache]) and the lookup by Discord
    id ([getByDiscordId], [users.get]).

    Conventions.
    - An entity id is [option string]: [None] is JavaScript's [undefined]
      (the id of a raw record that has none); a JS [Map] or [Set] accepts
      it as a key like any other value.
    - [lastMemberships] is iterated by the tick, so it is kept as an
      insertion-ordered association list ([JSMap]); the other maps and the
      set are only queried by key and are [gmap]/[gset].
    - A method is a function in the effect type [Eff]: it reads and writes
      the object's fields, reads the clock ([Date.now()]) and emits events
      to the observers; the events come back in emission order.
    - Listeners are outside the model: [emit] only records the event.  A
      method in [Eff] is run with a listener for [error] registered; Node's
      [emit('error')] throws without one, and the event loop ([Loop]) keeps
      the listeners for [error] and follows the code on that path too.
      Console output and the cache file written by [saveCache] are not
      modelled; the cache file read by [loadCache] is given by the value
      that [JSON.parse] returns for it. *)

From stdpp Require Import gmap strings list fin_maps.
From Stdlib Require Import ZArith.

Local Open Scope string_scope.
Local Open Scope list_scope.

(** ** JavaScript values used by the engine *)

(** An entity id; [None] stands for [undefined]. *)
Abbreviation entity_id := (option string).

(** Truthiness of a string: every string but the empty one. *)
Definition truthy (s : string) : bool :=
  match s with
  | EmptyString => false
  | String _ _ => true
  end.

(** Truthiness of a [string | null | undefined] value. *)
Definition truthy_opt (o : option string) : bool :=
  match o with
  | Some s => truthy s
  | None => false
  end.

(** [a || b] on strings, where [a] may be missing. *)
Definition or_else (o : option string) (d : string) : string :=
  match o with
  | Some s => if truthy s then s else d
  | None => d
  end.

(** [a || null]. *)
Definition or_null (o : option string) : option string :=
  match o with
  | Some s => if truthy s then Some s else None
  | None => None
  end.

(** ** An insertion-ordered map (JS [Map]) *)

Module JSMap.
Section ops.
Context {K V : Type} `{EqDecision K}.

Definition t : Type := list (K * V).

Definition empty : t := [].

Fixpoint get (k : K) (m : t) : option V :=
  match m with
  | [] => None
  | (k', v) :: m' => if decide (k = k') then Some v else get k m'
  end.

Definition has (k : K) (m : t) : bool :=
  match get k m with
  | Some _ => true
  | None => false
  end.

(** [set] keeps the position of a key that is present and appends a
    new one. *)
Fixpoint set (k : K) (v : V) (m : t) : t :=
  match m with
  | [] => [(k, v)]
  | (k', v') :: m' =>
      if decide (k = k') then (k, v) :: m' else (k', v') :: set k v m'
  end.

Fixpoint delete (k : K) (m : t) : t :=
  match m with
  | [] => []
  | (k', v') :: m' =>
      if decide (k = k') then delete k m' else (k', v') :: delete k m'
  end.

Definition keys (m : t) : list K := m.*1.
End ops.
Global Arguments t : clear implicits.
End JSMap.

(** ** Data model *)

(** [MembershipData].  [pledgeAmount] (a float) and [relationships] (raw
    JSON) are payload that the engine never reads; they are left out. *)
Record MembershipData : Type := mkMember {
  id : entity_id;
  status : string;
  fullName : option string;
  email : option string;
  patronStatus : option string;
  discordId : option string;
  joinedAt : option string;
  expiresAt : option string;
}.

#[global] Instance MembershipData_eq_dec : EqDecision MembershipData.
Proof. solve_decision. Defined.

(** The object spread [{...member, discordId: d}]. *)
Definition with_discordId (member : MembershipData) (d : option string) : MembershipData :=
  mkMember (id member) (status member) (fullName member) (email member)
    (patronStatus member) d (joinedAt member) (expiresAt member).

(** The object literal [{id, status, discordId}] of the removed-member
    loop: the other fields are absent. *)
Definition bare_member (i : entity_id) (st : string) (d : option string) : MembershipData :=
  mkMember i st None None None d None None.

(** The member events of [PatreonEventMap]. *)
Inductive EventKind : Type :=
  | subscribed
  | connected
  | canceled
  | declined
  | reactivated
  | disconnected
  | expired.

#[global] Instance EventKind_eq_dec : EqDecision EventKind.
Proof. solve_decision. Defined.

(** What the observers receive. *)
Inductive Event : Type :=
  | MemberEvent (kind : EventKind) (data : MembershipData)
  | ErrorEvent (message : string)
  | ReadyEvent.

#[global] Instance Event_eq_dec : EqDecision Event.
Proof. solve_decision. Defined.

(** The fields of a [PatreonEvents] object that the engine reads or writes
    (the access token and the other options are configuration). *)
Record PatreonEvents : Type := mkPatreonEvents {
  lastMemberships : JSMap.t entity_id string;
  lastDiscordIds : gmap entity_id (option string);
  intervalId : option nat;
  cacheSaveIntervalId : option nat;
  isFirstRun : bool;
  subscribedMembers : gset entity_id;
  canceledMembers : gmap entity_id Z;
  declinedMembers : gmap entity_id Z;
  reactivatedMembers : gmap entity_id Z;
  connectedDiscords : gmap entity_id string;
  disconnectedDiscords : gmap entity_id string;
  discordToMemberMap : gmap string MembershipData;
}.

(** The object as the constructor leaves it when there is no cache file. *)
Definition new_PatreonEvents : PatreonEvents :=
  mkPatreonEvents JSMap.empty ∅ None None true ∅ ∅ ∅ ∅ ∅ ∅ ∅.

(** Field updates. *)
Definition set_lastMemberships (f : JSMap.t entity_id string → JSMap.t entity_id string)
    (s : PatreonEvents) : PatreonEvents :=
  mkPatreonEvents (f (lastMemberships s)) (lastDiscordIds s) (intervalId s)
    (cacheSaveIntervalId s) (isFirstRun s) (subscribedMembers s) (canceledMembers s)
    (declinedMembers s) (reactivatedMembers s) (connectedDiscords s)
    (disconnectedDiscords s) (discordToMemberMap s).

Definition set_lastDiscordIds
    (f : gmap entity_id (option string) → gmap entity_id (option string))
    (s : PatreonEvents) : PatreonEvents :=
  mkPatreonEvents (lastMemberships s) (f (lastDiscordIds s)) (intervalId s)
    (cacheSaveIntervalId s) (isFirstRun s) (subscribedMembers s) (canceledMembers s)
    (declinedMembers s) (reactivatedMembers s) (connectedDiscords s)
    (disconnectedDiscords s) (discordToMemberMap s).

Definition set_intervalId (v : option nat) (s : PatreonEvents) : PatreonEvents :=
  mkPatreonEvents (lastMemberships s) (lastDiscordIds s) v
    (cacheSaveIntervalId s) (isFirstRun s) (subscribedMembers s) (canceledMembers s)
    (declinedMembers s) (reactivatedMembers s) (connectedDiscords s)
    (disconnectedDiscords s) (discordToMemberMap s).

Definition set_cacheSaveIntervalId (v : option nat) (s : PatreonEvents) : PatreonEvents :=
  mkPatreonEvents (lastMemberships s) (lastDiscordIds s) (intervalId s)
    v (isFirstRun s) (subscribedMembers s) (canceledMembers s)
    (declinedMembers s) (reactivatedMembers s) (connectedDiscords s)
    (disconnectedDiscords s) (discordToMemberMap s).

Definition set_isFirstRun (v : bool) (s : PatreonEvents) : PatreonEvents :=
  mkPatreonEvents (lastMemberships s) (lastDiscordIds s) (intervalId s)
    (cacheSaveIntervalId s) v (subscribedMembers s) (canceledMembers s)
    (declinedMembers s) (reactivatedMembers s) (connectedDiscords s)
    (disconnectedDiscords s) (discordToMemberMap s).

Definition set_subscribedMembers (f : gset entity_id → gset entity_id)
    (s : PatreonEvents) : PatreonEvents :=
  mkPatreonEvents (lastMemberships s) (lastDiscordIds s) (intervalId s)
    (cacheSaveIntervalId s) (isFirstRun s) (f (subscribedMembers s)) (canceledMembers s)
    (declinedMembers s) (reactivatedMembers s) (connectedDiscords s)
    (disconnectedDiscords s) (discordToMemberMap s).

Definition set_canceledMembers (f : gmap entity_id Z → gmap entity_id Z)
    (s : PatreonEvents) : PatreonEvents :=
  mkPatreonEvents (lastMemberships s) (lastDiscordIds s) (intervalId s)
    (cacheSaveIntervalId s) (isFirstRun s) (subscribedMembers s) (f (canceledMembers s))
    (declinedMembers s) (reactivatedMembers s) (connectedDiscords s)
    (disconnectedDiscords s) (discordToMemberMap s).

Definition set_declinedMembers (f : gmap entity_id Z → gmap entity_id Z)
    (s : PatreonEvents) : PatreonEvents :=
  mkPatreonEvents (lastMemberships s) (lastDiscordIds s) (intervalId s)
    (cacheSaveIntervalId s) (isFirstRun s) (subscribedMembers s) (canceledMembers s)
    (f (declinedMembers s)) (reactivatedMembers s) (connectedDiscords s)
    (disconnectedDiscords s) (discordToMemberMap s).

Definition set_reactivatedMembers (f : gmap entity_id Z → gmap entity_id Z)
    (s : PatreonEvents) : PatreonEvents :=
  mkPatreonEvents (lastMemberships s) (lastDiscordIds s) (intervalId s)
    (cacheSaveIntervalId s) (isFirstRun s) (subscribedMembers s) (canceledMembers s)
    (declinedMembers s) (f (reactivatedMembers s)) (connectedDiscords s)
    (disconnectedDiscords s) (discordToMemberMap s).

Definition set_connectedDiscords (f : gmap entity_id string → gmap entity_id string)
    (s : PatreonEvents) : PatreonEvents :=
  mkPatreonEvents (lastMemberships s) (lastDiscordIds s) (intervalId s)
    (cacheSaveIntervalId s) (isFirstRun s) (subscribedMembers s) (canceledMembers s)
    (declinedMembers s) (reactivatedMembers s) (f (connectedDiscords s))
    (disconnectedDiscords s) (discordToMemberMap s).

Definition set_disconnectedDiscords (f : gmap entity_id string → gmap entity_id string)
    (s : PatreonEvents) : PatreonEvents :=
  mkPatreonEvents (lastMemberships s) (lastDiscordIds s) (intervalId s)
    (cacheSaveIntervalId s) (isFirstRun s) (subscribedMembers s) (canceledMembers s)
    (declinedMembers s) (reactivatedMembers s) (connectedDiscords s)
    (f (disconnectedDiscords s)) (discordToMemberMap s).

Definition set_discordToMemberMap
    (f : gmap string MembershipData → gmap string MembershipData)
    (s : PatreonEvents) : PatreonEvents :=
  mkPatreonEvents (lastMemberships s) (lastDiscordIds s) (intervalId s)
    (cacheSaveIntervalId s) (isFirstRun s) (subscribedMembers s) (canceledMembers s)
    (declinedMembers s) (reactivatedMembers s) (connectedDiscords s)
    (disconnectedDiscords s) (f (discordToMemberMap s)).

(** ** Effects *)

(** What a method runs in: the object, the clock ([clock n] is the value of
    the [n]-th [Date.now()] read by the tracker) and the number of reads so
    far. *)
Record World : Type := mkWorld {
  self : PatreonEvents;
  clock : nat → Z;
  reads : nat;
}.

(** The outcome of a method: its result, the world it leaves and the events
    it emitted, oldest first. *)
Record Out (A : Type) : Type := mkOut {
  value : A;
  after : World;
  emitted : list Event;
}.
Arguments mkOut {A} _ _ _.
Arguments value {A} _.
Arguments after {A} _.
Arguments emitted {A} _.

Definition Eff (A : Type) : Type := World → Out A.

#[global] Instance Eff_ret : MRet Eff := λ A a w, mkOut a w [].

#[global] Instance Eff_bind : MBind Eff := λ A B f m w,
  let r1 := m w in
  let r2 := f (value r1) (after r1) in
  mkOut (value r2) (after r2) (emitted r1 ++ emitted r2).

(** Read the object. *)
Definition this : Eff PatreonEvents := λ w, mkOut (self w) w [].

(** Write the object. *)
Definition update (f : PatreonEvents → PatreonEvents) : Eff unit :=
  λ w, mkOut tt (mkWorld (f (self w)) (clock w) (reads w)) [].

(** [Date.now()]. *)
Definition Date_now : Eff Z :=
  λ w, mkOut (clock w (reads w)) (mkWorld (self w) (clock w) (S (reads w))) [].

(** [super.emit(event, data)]: hand the event to the observers. *)
Definition emit (e : Event) : Eff unit := λ w, mkOut tt w [e].

(** [if (c) body]. *)
Definition when (c : bool) (body : Eff unit) : Eff unit :=
  if c then body else mret tt.

(** [list.forEach(body)] and [for (const x of list) body]. *)
Fixpoint forEach {A : Type} (l : list A) (body : A → Eff unit) : Eff unit :=
  match l with
  | [] => mret tt
  | x :: l' => body x ;; forEach l' body
  end.

(** ** The Membership Source: [fetchMemberships] *)

(** An entry of the [included] array of a response: its [type], its [id]
    and [attributes?.social_connections?.discord?.user_id]. *)
Record Included : Type := mkIncluded {
  inc_type : option string;
  inc_id : option string;
  inc_discord_user_id : option string;
}.

(** An entry of the [data] array: [id], the attributes that are read and
    [relationships?.user?.data?.id]. *)
Record RawMember : Type := mkRawMember {
  raw_id : entity_id;
  raw_patron_status : option string;
  raw_full_name : option string;
  raw_email : option string;
  raw_pledge_relationship_start : option string;
  raw_next_charge_date : option string;
  raw_user_ref : option string;
}.

(** What the API does with the requests of one fetch: it rejects the
    request ([axios.get] throws), it answers without a [data] array, or it
    answers with a page, which has a [links.next] to request next or is the
    last one. *)
Inductive ApiScript : Type :=
  | Rejects (message : string)
  | Malformed
  | LastPage (data : list RawMember) (included : list Included)
  | Page (data : list RawMember) (included : list Included) (next : ApiScript).

(** How the [while (nextUrl)] loop ends. *)
Inductive Pages : Type :=
  | Thrown (message : string)
  | Unexpected
  | Collected (allMembers : list RawMember) (allIncluded : list Included).

Fixpoint fetchPages (api : ApiScript) (allMembers : list RawMember)
    (allIncluded : list Included) : Pages :=
  match api with
  | Rejects message => Thrown message
  | Malformed => Unexpected
  | LastPage data included =>
      Collected (allMembers ++ data) (allIncluded ++ included)
  | Page data included next =>
      fetchPages next (allMembers ++ data) (allIncluded ++ included)
  end.

(** The callback of [allMembers.map] (lines 271-300). *)
Definition mapMember (allIncluded : list Included) (member : RawMember) : MembershipData :=
  let userData :=
    List.find (λ inc, bool_decide (inc_type inc = Some "user")
                      && bool_decide (inc_id inc = raw_user_ref member)) allIncluded in
  let discordId := or_null (userData ≫= inc_discord_user_id) in
  {| id := raw_id member;
     status := or_else (raw_patron_status member) "none";
     fullName := raw_full_name member;
     email := raw_email member;
     patronStatus := raw_patron_status member;
     discordId := discordId;
     joinedAt := raw_pledge_relationship_start member;
     expiresAt := raw_next_charge_date member |}.

(** [fetchMemberships]: an unexpected answer gives the empty list; a thrown
    error is emitted as [error] and gives the empty list too. *)
Definition fetchMemberships (api : ApiScript) : Eff (list MembershipData) :=
  match fetchPages api [] [] with
  | Collected allMembers allIncluded => mret (mapMember allIncluded <$> allMembers)
  | Unexpected => mret []
  | Thrown message => emit (ErrorEvent message) ;; mret []
  end.

(** ** The dedup tracker *)

(** [emitAndTrack(event, data, shouldTrack)] for the member events (the
    source never passes [error] or [ready] to it). *)
Definition emitAndTrack (event : EventKind) (member : MembershipData)
    (shouldTrack : bool) : Eff unit :=
  if negb shouldTrack then emit (MemberEvent event member)
  else
    now ← Date_now;
    match event with
    | subscribed =>
        update (set_subscribedMembers (λ s, {[id member]} ∪ s)) ;;
        update (set_canceledMembers (delete (id member))) ;;
        update (set_declinedMembers (delete (id member)))
    | reactivated =>
        update (set_reactivatedMembers (<[id member := now]>)) ;;
        update (set_canceledMembers (delete (id member))) ;;
        update (set_declinedMembers (delete (id member)))
    | canceled =>
        update (set_canceledMembers (<[id member := now]>)) ;;
        update (set_subscribedMembers (λ s, s ∖ {[id member]})) ;;
        update (set_reactivatedMembers (delete (id member)))
    | declined =>
        update (set_declinedMembers (<[id member := now]>)) ;;
        update (set_subscribedMembers (λ s, s ∖ {[id member]})) ;;
        update (set_reactivatedMembers (delete (id member)))
    | connected =>
        match discordId member with
        | Some d =>
            when (truthy d)
              (update (set_connectedDiscords (<[id member := d]>)) ;;
               update (set_disconnectedDiscords (delete (id member))))
        | None => mret tt
        end
    | disconnected =>
        match discordId member with
        | Some d =>
            when (truthy d)
              (update (set_disconnectedDiscords (<[id member := d]>)) ;;
               update (set_connectedDiscords (delete (id member))))
        | None => mret tt
        end
    | expired =>
        update (set_subscribedMembers (λ s, s ∖ {[id member]}))
    end ;;
    emit (MemberEvent event member).

(** [hasProcessedEvent(event, member)]. *)
Definition hasProcessedEvent (event : EventKind) (member : MembershipData)
    (s : PatreonEvents) : bool :=
  match event with
  | subscribed => bool_decide (id member ∈ subscribedMembers s)
  | connected =>
      match connectedDiscords s !! id member with
      | Some d => bool_decide (Some d = discordId member)
      | None => false
      end
  | disconnected =>
      match disconnectedDiscords s !! id member with
      | Some d => bool_decide (Some d = discordId member)
      | None => false
      end
  | _ => false
  end.

(** The guarded emission [if (!this.hasProcessedEvent(e, m)) this.emitAndTrack(e, m)]. *)
Definition emitOnce (event : EventKind) (member : MembershipData) : Eff unit :=
  s ← this;
  when (negb (hasProcessedEvent event member s)) (emitAndTrack event member true).

(** ** The reconciliation tick: [checkForUpdates] *)

(** Lines 461-479: the membership status of one record. *)
Definition statusChanges (member : MembershipData) (previousStatus : option string) : Eff unit :=
  if negb (truthy_opt previousStatus) then
    s ← this;
    when (negb (isFirstRun s) && negb (hasProcessedEvent subscribed member s))
      (emitAndTrack subscribed member true)
  else if bool_decide (previousStatus ≠ Some (status member)) then
    when (bool_decide (status member = "former_patron"))
      (emitAndTrack canceled member true) ;;
    when (bool_decide (status member = "declined_patron"))
      (emitAndTrack declined member true) ;;
    when (bool_decide (status member = "active_patron")
          && (bool_decide (previousStatus = Some "former_patron")
              || bool_decide (previousStatus = Some "declined_patron")))
      (emitAndTrack reactivated member true) ;;
    when (bool_decide (status member = "none"))
      (emitAndTrack expired member true)
  else mret tt.

(** Lines 481-515: the Discord connection of one record.
    [previousDiscordId] is [None] for [undefined] and [Some None] for
    [null]. *)
Definition discordChanges (member : MembershipData)
    (previousDiscordId : option (option string)) : Eff unit :=
  match previousDiscordId with
  | None | Some None =>
      s ← this;
      when (truthy_opt (discordId member) && negb (hasProcessedEvent connected member s))
        (emitAndTrack connected member true)
  | Some (Some previous) =>
      if negb (truthy_opt (discordId member)) then
        emitOnce disconnected (with_discordId member (Some previous))
      else if bool_decide (Some previous ≠ discordId member) then
        emitOnce disconnected (with_discordId member (Some previous)) ;;
        emitOnce connected member
      else mret tt
  end.

(** The callback of [memberships.forEach] (lines 447-520).  The local map
    [currentDiscordConnections] is written and never read; it is left out. *)
Definition processMember (member : MembershipData) : Eff unit :=
  s ← this;
  let previousStatus := JSMap.get (id member) (lastMemberships s) in
  let previousDiscordId := lastDiscordIds s !! id member in
  match discordId member with
  | Some d => when (truthy d) (update (set_discordToMemberMap (<[d := member]>)))
  | None => mret tt
  end ;;
  statusChanges member previousStatus ;;
  discordChanges member previousDiscordId ;;
  update (set_lastMemberships (JSMap.set (id member) (status member))) ;;
  update (set_lastDiscordIds (<[id member := discordId member]>)).

(** The body of the removed-member loop (lines 523-545) for one key. *)
Definition removeMember (currentMembers : gset entity_id) (i : entity_id) : Eff unit :=
  when (negb (bool_decide (i ∈ currentMembers)))
    (s ← this;
     let lastKnownStatus := or_else (JSMap.get i (lastMemberships s)) "none" in
     let lastKnownDiscordId := lastDiscordIds s !! i in
     match lastKnownDiscordId with
     | Some (Some d) =>
         when (truthy d) (emitOnce disconnected (bare_member i lastKnownStatus (Some d)))
     | _ => mret tt
     end ;;
     update (set_lastMemberships (JSMap.delete i)) ;;
     update (set_lastDiscordIds (delete i))).

(** [saveCache] writes the cache file, which is outside the model: it
    leaves the object as it is (its [Date.now()] goes to the file only). *)
Definition saveCache : Eff unit := mret tt.

(** Lines 439-551 of [checkForUpdates]: what the tick does with the
    memberships it fetched.  The removed-member loop iterates the live key
    iterator of [lastMemberships]; its body deletes only the key it is
    visiting, so it visits the keys the map had when the loop started, in
    insertion order. *)
Definition reconcile (memberships : list MembershipData) : Eff unit :=
  let currentMembers : gset entity_id := list_to_set (id <$> memberships) in
  update (set_discordToMemberMap (λ _, ∅)) ;;
  forEach memberships processMember ;;
  s ← this;
  forEach (JSMap.keys (lastMemberships s)) (removeMember currentMembers) ;;
  update (set_isFirstRun false) ;;
  saveCache.

(** [checkForUpdates] against what the API answers. *)
Definition checkForUpdates (api : ApiScript) : Eff unit :=
  memberships ← fetchMemberships api;
  reconcile memberships.

(** Running a method on an object: the clock is given, no read made yet. *)
Definition run {A : Type} (m : Eff A) (s : PatreonEvents) (clk : nat → Z) : Out A :=
  m (mkWorld s clk 0).

(** The object a method leaves. *)
Definition state_after {A : Type} (r : Out A) : PatreonEvents := self (after r).

(** ** The timer wiring: [initialize] and [stop] *)

(** What an interval timer runs. *)
Inductive Job : Type :=
  | CheckJob
  | SaveJob.

(** The object inside Node's event loop: the interval timers that are
    armed, by handle; the next fresh handle; the calls of [checkForUpdates]
    that wait for their fetch, oldest first ([true] marks the call made by
    [initialize], whose [then] callback arms the timers); the events
    emitted so far (an [emit] that throws emits nothing); the listeners
    registered for [error], oldest first ([true] marks one registered with
    [once]); and the calls that ended in a rejected promise that nothing
    handles, oldest first ([true] marks a call made by [initialize]).  What
    the host does about an unhandled rejection is its own choice (Node ends
    the process by default since version 15); the loop here goes on. *)
Record Loop : Type := mkLoop {
  world : World;
  timers : gmap nat Job;
  nextHandle : nat;
  inFlight : list bool;
  eventLog : list Event;
  errorListeners : list bool;
  unhandled : list bool;
}.

(** A new object in an idle loop, once the host has registered
    [listeners] for [error]. *)
Definition boot (s : PatreonEvents) (clk : nat → Z) (listeners : list bool) : Loop :=
  mkLoop (mkWorld s clk 0) ∅ 0 [] [] listeners [].

(** Run the synchronous part of a method to completion. *)
Definition lift (m : Eff unit) (l : Loop) : Loop :=
  let r := m (world l) in
  mkLoop (after r) (timers l) (nextHandle l) (inFlight l) (eventLog l ++ emitted r)
    (errorListeners l) (unhandled l).

(** [setInterval(job, ...)]. *)
Definition setInterval (job : Job) (l : Loop) : nat * Loop :=
  (nextHandle l,
   mkLoop (world l) (<[nextHandle l := job]> (timers l)) (S (nextHandle l))
     (inFlight l) (eventLog l) (errorListeners l) (unhandled l)).

(** [clearInterval(handle)]. *)
Definition clearInterval (handle : nat) (l : Loop) : Loop :=
  mkLoop (world l) (delete handle (timers l)) (nextHandle l) (inFlight l) (eventLog l)
    (errorListeners l) (unhandled l).

(** [on('error', listener)] (lines 121-123). *)
Definition on_error (l : Loop) : Loop :=
  mkLoop (world l) (timers l) (nextHandle l) (inFlight l) (eventLog l)
    (errorListeners l ++ [false]) (unhandled l).

(** [once('error', listener)] (lines 125-127). *)
Definition once_error (l : Loop) : Loop :=
  mkLoop (world l) (timers l) (nextHandle l) (inFlight l) (eventLog l)
    (errorListeners l ++ [true]) (unhandled l).

(** [off('error', listener)] (lines 129-131), for the listener registered
    at position [n]; nothing happens when there is none. *)
Definition off_error (n : nat) (l : Loop) : Loop :=
  mkLoop (world l) (timers l) (nextHandle l) (inFlight l) (eventLog l)
    (delete n (errorListeners l)) (unhandled l).

(** [removeAllListeners()]. *)
Definition removeAllListeners (l : Loop) : Loop :=
  mkLoop (world l) (timers l) (nextHandle l) (inFlight l) (eventLog l) [] (unhandled l).

(** The listeners for [error] once an [error] event has been emitted to
    them: those registered with [once] are gone. *)
Definition heard (l : Loop) : Loop :=
  mkLoop (world l) (timers l) (nextHandle l) (inFlight l) (eventLog l)
    (List.filter negb (errorListeners l)) (unhandled l).

(** A promise is rejected and nothing handles it. *)
Definition unhandledRejection (fromInitialize : bool) (l : Loop) : Loop :=
  mkLoop (world l) (timers l) (nextHandle l) (inFlight l) (eventLog l)
    (errorListeners l) (unhandled l ++ [fromInitialize]).

(** A call of [checkForUpdates]: it runs up to [await axios.get] and
    leaves the rest of the tick waiting for the fetch. *)
Definition startTick (fromInitialize : bool) (l : Loop) : Loop :=
  mkLoop (world l) (timers l) (nextHandle l) (inFlight l ++ [fromInitialize]) (eventLog l)
    (errorListeners l) (unhandled l).

(** The rest of a call of [checkForUpdates], from the end of its fetch on
    (lines 238-316 and 438-554), and the error that its promise is rejected
    with, if it is.  The only statement that can throw is [emit('error')]:
    Node's [emit] throws the error when no listener for [error] is
    registered.  So when the request is rejected and there is no listener,
    line 313 throws out of [fetchMemberships] into the [catch] of line 552,
    and line 553 throws out of [checkForUpdates]: nothing of lines 439-551
    has run, no event has been emitted, and the promise is rejected.  In
    every other case the call is [checkForUpdates api]; when it emitted
    [error], the listeners have heard it. *)
Definition finishTick (api : ApiScript) (l : Loop) : Loop * option string :=
  match fetchPages api [] [] with
  | Thrown message =>
      match errorListeners l with
      | [] => (l, Some message)
      | _ :: _ => (heard (lift (checkForUpdates api) l), None)
      end
  | _ => (lift (checkForUpdates api) l, None)
  end.

(** [initialize()]: lines 572-585 up to the first [await]. *)
Definition initialize (l : Loop) : Loop := startTick true l.

(** The [then] callback of [initialize] (lines 575-581). *)
Definition initialize_then (l : Loop) : Loop :=
  let (h1, l1) := setInterval CheckJob l in
  let l2 := lift (update (set_intervalId (Some h1))) l1 in
  let (h2, l3) := setInterval SaveJob l2 in
  let l4 := lift (update (set_cacheSaveIntervalId (Some h2))) l3 in
  lift (emit ReadyEvent) l4.

(** The [catch] callback of [initialize] (lines 582-584), for a tick whose
    promise was rejected: it emits [error] again, and without a listener
    that throws again, so that the promise of the chain is rejected and
    nothing handles it. *)
Definition initialize_catch (message : string) (l : Loop) : Loop :=
  match errorListeners l with
  | [] => unhandledRejection true l
  | _ :: _ => heard (lift (emit (ErrorEvent message)) l)
  end.

(** [stop()] (lines 613-629). *)
Definition stop (l : Loop) : Loop :=
  let l1 :=
    match intervalId (self (world l)) with
    | Some h => lift (update (set_intervalId None)) (clearInterval h l)
    | None => l
    end in
  let l2 :=
    match cacheSaveIntervalId (self (world l1)) with
    | Some h => lift (update (set_cacheSaveIntervalId None)) (clearInterval h l1)
    | None => l1
    end in
  removeAllListeners (lift saveCache l2).

(** What can happen next in the loop. *)
Inductive Action : Type :=
  | CallInitialize
  | CallStop
  | TimerFires (handle : nat)
  | FetchCompletes (call : nat) (api : ApiScript)
  | CallOn
  | CallOnce
  | CallOff (n : nat).

(** One turn of the loop; [None] when the action cannot happen (the timer
    is not armed, there is no such call in flight).  When a fetch
    completes, the rest of its tick runs at once, and after the tick of
    [initialize] its [then] callback, or its [catch] callback when the
    tick was rejected; the rejected promise of a tick of the timer is
    handled by nothing. *)
Definition step (a : Action) (l : Loop) : option Loop :=
  match a with
  | CallInitialize => Some (initialize l)
  | CallStop => Some (stop l)
  | TimerFires handle =>
      match (timers l !! handle : option Job) with
      | Some CheckJob => Some (startTick false l)
      | Some SaveJob => Some (lift saveCache l)
      | None => None
      end
  | FetchCompletes call api =>
      match (inFlight l !! call : option bool) with
      | Some fromInitialize =>
          let (l1, error) :=
            finishTick api
              (mkLoop (world l) (timers l) (nextHandle l) (delete call (inFlight l))
                 (eventLog l) (errorListeners l) (unhandled l)) in
          Some match error with
               | None => if fromInitialize then initialize_then l1 else l1
               | Some message =>
                   if fromInitialize then initialize_catch message l1
                   else unhandledRejection false l1
               end
      | None => None
      end
  | CallOn => Some (on_error l)
  | CallOnce => Some (once_error l)
  | CallOff n => Some (off_error n l)
  end.

(** A sequence of turns. *)
Fixpoint exec (actions : list Action) (l : Loop) : option Loop :=
  match actions with
  | [] => Some l
  | a :: actions' =>
      match step a l with
      | Some l' => exec actions' l'
      | None => None
      end
  end.

(** An action that starts a tick in the state it happens in. *)
Definition startsTick (a : Action) (l : Loop) : bool :=
  match a with
  | CallInitialize => true
  | TimerFires handle =>
      match (timers l !! handle : option Job) with
      | Some CheckJob => true
      | _ => false
      end
  | _ => false
  end.

(** ** The State Store read at construction: [loadCache] *)

(** What [JSON.parse] returns for a cache file, typed as [CacheData]
    declares it.  An object is given by its entries in property order (what
    [Object.entries] returns); a field that the file does not have (or that
    is falsy) is [None].  [lastUpdated] is never read. *)
Record CacheData : Type := mkCacheData {
  cache_memberships : option (list (string * string));
  cache_discordIds : option (list (string * option string));
  cache_subscribedMembers : option (list string);
  cache_canceledMembers : option (list (string * Z));
  cache_declinedMembers : option (list (string * Z));
  cache_reactivatedMembers : option (list (string * Z));
  cache_connectedDiscords : option (list (string * string));
  cache_disconnectedDiscords : option (list (string * string));
}.

(** [new Map(entries)] for the map that is iterated: the entries are set
    one after the other. *)
Definition Map_of_entries (entries : list (string * string)) : JSMap.t entity_id string :=
  foldl (λ m entry, JSMap.set (Some entry.1) entry.2 m) JSMap.empty entries.

(** [new Map(entries)] for the maps that are queried by key. *)
Definition gmap_of_entries {V : Type} (entries : list (string * V)) : gmap entity_id V :=
  foldl (λ m entry, <[Some entry.1 := entry.2]> m) ∅ entries.

(** [new Set(array)]. *)
Definition Set_of_array (array : list string) : gset entity_id :=
  list_to_set (Some <$> array).

(** [if (field) this.x = ...]. *)
Definition load {V : Type} (field : option V) (store : V → PatreonEvents → PatreonEvents) :
    Eff unit :=
  match field with
  | Some v => update (store v)
  | None => mret tt
  end.

(** [loadCache] (lines 136-186).  [file] is [None] when there is no cache
    file or when reading or parsing it throws: the [catch] then leaves the
    object as it is.  [Number(value)] is the identity on the numbers of a
    typed file. *)
Definition loadCache (file : option CacheData) : Eff unit :=
  match file with
  | None => mret tt
  | Some cacheData =>
      load (cache_memberships cacheData)
        (λ entries, set_lastMemberships (λ _, Map_of_entries entries)) ;;
      load (cache_discordIds cacheData)
        (λ entries, set_lastDiscordIds (λ _, gmap_of_entries entries)) ;;
      load (cache_subscribedMembers cacheData)
        (λ array, set_subscribedMembers (λ _, Set_of_array array)) ;;
      load (cache_canceledMembers cacheData)
        (λ entries, set_canceledMembers (λ _, gmap_of_entries entries)) ;;
      load (cache_declinedMembers cacheData)
        (λ entries, set_declinedMembers (λ _, gmap_of_entries entries)) ;;
      load (cache_reactivatedMembers cacheData)
        (λ entries, set_reactivatedMembers (λ _, gmap_of_entries entries)) ;;
      load (cache_connectedDiscords cacheData)
        (λ entries, set_connectedDiscords (λ _, gmap_of_entries entries)) ;;
      load (cache_disconnectedDiscords cacheData)
        (λ entries, set_disconnectedDiscords (λ _, gmap_of_entries entries))
  end.

(** The constructor (lines 100-114): the field initialisers, then
    [loadCache]. *)
Definition constructor (file : option CacheData) : PatreonEvents :=
  self (after (loadCache file (mkWorld new_PatreonEvents (λ _, 0%Z) 0))).

(** ** Lookup by Discord id: [getByDiscordId] and [users.get] *)

Section lookup.
(** [String.prototype.trim]. *)
Variable trim : string → string.

(** [getByDiscordId] (lines 562-566): a record that is found is an object,
    hence truthy; [undefined] becomes [null], which is [None] here. *)
Definition getByDiscordId (discordId : string) (s : PatreonEvents) : option MembershipData :=
  let normalizedDiscordId := trim discordId in
  discordToMemberMap s !! normalizedDiscordId.

(** [users.get] (lines 94-98). *)
Definition users_get (discordId : string) (s : PatreonEvents) : option MembershipData :=
  getByDiscordId discordId s.
End lookup.

(** ** [restart] *)

(** [restart()] (lines 591-608): clear both timers, save, and call
    [initialize]; the listeners stay. *)
Definition restart (l : Loop) : Loop :=
  let l1 :=
    match intervalId (self (world l)) with
    | Some h => lift (update (set_intervalId None)) (clearInterval h l)
    | None => l
    end in
  let l2 :=
    match cacheSaveIntervalId (self (world l1)) with
    | Some h => lift (update (set_cacheSaveIntervalId None)) (clearInterval h l1)
    | None => l1
    end in
  initialize (lift saveCache l2).

(** * Vocabulary of the properties *)

(** The entity a member event is about. *)
Definition event_id (e : Event) : option entity_id :=
  match e with
  | MemberEvent _ data => Some (id data)
  | _ => None
  end.

(** [e] is a [kind] event. *)
Definition is_kind (kind : EventKind) (e : Event) : bool :=
  match e with
  | MemberEvent k _ => bool_decide (k = kind)
  | _ => false
  end.

(** [e] is a [kind] event about entity [i]. *)
Definition is_kind_of (kind : EventKind) (i : entity_id) (e : Event) : bool :=
  match e with
  | MemberEvent k data => bool_decide (k = kind) && bool_decide (id data = i)
  | _ => false
  end.

(** How many events of a list pass a test. *)
Definition count_events (test : Event → bool) (l : list Event) : nat :=
  length (List.filter test l).

(** The events of the membership status. *)
Definition lifecycle (k : EventKind) : bool :=
  match k with
  | subscribed | canceled | declined | reactivated | expired => true
  | connected | disconnected => false
  end.

(** [connected] and [disconnected]. *)
Definition linkage (k : EventKind) : bool := negb (lifecycle k).

(** What [emitAndTrack] does to the trackers, as a function of the clock
    value it read. *)
Definition track (event : EventKind) (member : MembershipData) (now : Z)
    (s : PatreonEvents) : PatreonEvents :=
  match event with
  | subscribed =>
      set_declinedMembers (delete (id member))
        (set_canceledMembers (delete (id member))
           (set_subscribedMembers (λ x, {[id member]} ∪ x) s))
  | reactivated =>
      set_declinedMembers (delete (id member))
        (set_canceledMembers (delete (id member))
           (set_reactivatedMembers (<[id member := now]>) s))
  | canceled =>
      set_reactivatedMembers (delete (id member))
        (set_subscribedMembers (λ x, x ∖ {[id member]})
           (set_canceledMembers (<[id member := now]>) s))
  | declined =>
      set_reactivatedMembers (delete (id member))
        (set_subscribedMembers (λ x, x ∖ {[id member]})
           (set_declinedMembers (<[id member := now]>) s))
  | connected =>
      if truthy_opt (discordId member) then
        set_disconnectedDiscords (delete (id member))
          (set_connectedDiscords (<[id member := default EmptyString (discordId member)]>) s)
      else s
  | disconnected =>
      if truthy_opt (discordId member) then
        set_connectedDiscords (delete (id member))
          (set_disconnectedDiscords (<[id member := default EmptyString (discordId member)]>) s)
      else s
  | expired => set_subscribedMembers (λ x, x ∖ {[id member]}) s
  end.

(** A method started on an object satisfying [P] leaves one satisfying [Q]
    and emits only events satisfying [E]. *)
Definition triple {A : Type} (P : PatreonEvents → Prop) (m : Eff A)
    (Q : PatreonEvents → Prop) (E : Event → Prop) : Prop :=
  ∀ w, P (self w) → Q (self (after (m w))) ∧ Forall E (emitted (m w)).

(** Emitting [event] about [member] through the tracker, from an object
    satisfying [P] on which the event passes the dedup test (and, for
    [subscribed], the first-run test), keeps [P] and the event satisfies
    [E]. *)
Definition tracks (P : PatreonEvents → Prop) (E : Event → Prop)
    (event : EventKind) (member : MembershipData) : Prop :=
  ∀ now s, P s → hasProcessedEvent event member s = false →
    (event = subscribed → isFirstRun s = false) →
    P (track event member now s) ∧ E (MemberEvent event member).

(** The records [fetchMemberships] can return: the status is not the
    empty string and the Discord id is [null] or not empty. *)
Definition well_formed (member : MembershipData) : Prop :=
  status member ≠ EmptyString ∧ discordId member ≠ Some EmptyString.

(** No entity has both a connect record and a disconnect record. *)
Definition linkage_exclusive (s : PatreonEvents) : Prop :=
  ∀ i, connectedDiscords s !! i = None ∨ disconnectedDiscords s !! i = None.

(** Everything the object records about one entity. *)
Record EntityView : Type := mkView {
  seen_status : option string;
  seen_discordId : option (option string);
  seen_subscribed : bool;
  seen_canceled : option Z;
  seen_declined : option Z;
  seen_reactivated : option Z;
  seen_connected : option string;
  seen_disconnected : option string;
}.

(** What the object records about entity [j]. *)
Definition view (j : entity_id) (s : PatreonEvents) : EntityView :=
  {| seen_status := JSMap.get j (lastMemberships s);
     seen_discordId := lastDiscordIds s !! j;
     seen_subscribed := bool_decide (j ∈ subscribedMembers s);
     seen_canceled := canceledMembers s !! j;
     seen_declined := declinedMembers s !! j;
     seen_reactivated := reactivatedMembers s !! j;
     seen_connected := connectedDiscords s !! j;
     seen_disconnected := disconnectedDiscords s !! j |}.

(** The records about [j] and the first-run flag are as given. *)
Definition framed (j : entity_id) (v : EntityView) (b : bool) (s : PatreonEvents) : Prop :=
  view j s = v ∧ isFirstRun s = b.

(** The event is not about entity [j]. *)
Definition not_about (j : entity_id) (e : Event) : Prop := event_id e ≠ Some j.

(** The world once [discordToMemberMap] is cleared. *)
Definition cleared (w : World) : World :=
  mkWorld (set_discordToMemberMap (λ _, ∅) (self w)) (clock w) (reads w).

(** The world once the records of the batch are processed. *)
Definition diffed (memberships : list MembershipData) (w : World) : World :=
  after (forEach memberships processMember (cleared w)).

(** The outcome of the removed-member loop. *)
Definition swept (memberships : list MembershipData) (w : World) : Out unit :=
  forEach (JSMap.keys (lastMemberships (self (diffed memberships w))))
    (removeMember (list_to_set (id <$> memberships))) (diffed memberships w).

(** The world once the record is entered in the index by Discord id
    (lines 453-455). *)
Definition indexed (member : MembershipData) (w : World) : World :=
  match discordId member with
  | Some d =>
      if truthy d then
        mkWorld (set_discordToMemberMap (<[d := member]>) (self w)) (clock w) (reads w)
      else w
  | None => w
  end.

(** The outcome of the status half of a record (lines 461-479). *)
Definition statusHalf (member : MembershipData) (w : World) : Out unit :=
  statusChanges member (JSMap.get (id member) (lastMemberships (self w))) (indexed member w).

(** The outcome of its linkage half (lines 481-515). *)
Definition discordHalf (member : MembershipData) (w : World) : Out unit :=
  discordChanges member (lastDiscordIds (self w) !! id member) (after (statusHalf member w)).

(** The keys of [lastMemberships] stay pairwise distinct. *)
Definition keys_distinct (s : PatreonEvents) : Prop :=
  NoDup (JSMap.keys (lastMemberships s)).

(** A lifecycle event carrying the record itself. *)
Definition lifecycle_event (member : MembershipData) (e : Event) : Prop :=
  ∃ k, lifecycle k = true ∧ e = MemberEvent k member.

(** A linkage event carrying the record, with its own or its previous
    Discord id. *)
Definition linkage_event (member : MembershipData) (e : Event) : Prop :=
  ∃ k d, linkage k = true ∧ e = MemberEvent k (with_discordId member d).

(** The [disconnected] event of an entity that is not in the batch. *)
Definition removal_event (memberships : list MembershipData) (e : Event) : Prop :=
  ∃ i st d, (i ∉ id <$> memberships)
    ∧ e = MemberEvent disconnected (bare_member i st (Some d)).

(** The events of one record: lifecycle events, then linkage events. *)
Definition member_events (member : MembershipData) (events : list Event) : Prop :=
  ∃ first second, events = first ++ second
    ∧ Forall (lifecycle_event member) first ∧ Forall (linkage_event member) second.

(** The events of a tick: those of the records in batch order, then the
    disconnections of the removed entities. *)
Definition tick_order (memberships : list MembershipData) (events : list Event) : Prop :=
  ∃ (groups : list (list Event)) (removals : list Event),
    events = concat groups ++ removals
    ∧ Forall2 member_events memberships groups
    ∧ Forall (removal_event memberships) removals.

(** The status map and the linkage map are as given. *)
Definition maps_are (m : JSMap.t entity_id string) (l : gmap entity_id (option string))
    (s : PatreonEvents) : Prop :=
  lastMemberships s = m ∧ lastDiscordIds s = l.

(** The invariant as the specification words it: an entity is in at most
    one of the subscribed set, the canceled map and the declined map. *)
Definition disposition_exclusive (s : PatreonEvents) : Prop :=
  ∀ i,
    ¬ (i ∈ subscribedMembers s ∧ is_Some (canceledMembers s !! i))
    ∧ ¬ (i ∈ subscribedMembers s ∧ is_Some (declinedMembers s !! i))
    ∧ ¬ (is_Some (canceledMembers s !! i) ∧ is_Some (declinedMembers s !! i)).

(** What the tracker maintains: an entity in the subscribed set has no
    cancel record and no decline record. *)
Definition subscribed_exclusive (s : PatreonEvents) : Prop :=
  ∀ i, i ∈ subscribedMembers s →
    canceledMembers s !! i = None ∧ declinedMembers s !! i = None.

(** The object has a status and a linkage entry for entity [j]. *)
Definition entered (j : entity_id) (s : PatreonEvents) : Prop :=
  is_Some (JSMap.get j (lastMemberships s)) ∧ is_Some (lastDiscordIds s !! j).

(** The event is a member event. *)
Definition member_event (e : Event) : Prop := ∃ k data, e = MemberEvent k data.

(** The index by Discord id that a batch builds. *)
Definition index_member (acc : gmap string MembershipData) (member : MembershipData) :
    gmap string MembershipData :=
  match discordId member with
  | Some d => if truthy d then <[d := member]> acc else acc
  | None => acc
  end.

(** What the removed-member loop does to the status map at one key. *)
Definition sweep_key (currentMembers : gset entity_id) (m : JSMap.t entity_id string)
    (i : entity_id) : JSMap.t entity_id string :=
  if bool_decide (i ∈ currentMembers) then m else JSMap.delete i m.

(** The object holds the status and the Discord id of the record. *)
Definition settled (s : PatreonEvents) (member : MembershipData) : Prop :=
  JSMap.get (id member) (lastMemberships s) = Some (status member)
  ∧ lastDiscordIds s !! id member = Some (discordId member).

(** The events other than [subscribed]. *)
Definition others (l : list Event) : list Event :=
  List.filter (λ e, negb (is_kind subscribed e)) l.

(** Two objects agree on what the guards of the other events read. *)
Definition agree (s1 s2 : PatreonEvents) : Prop :=
  lastMemberships s1 = lastMemberships s2
  ∧ lastDiscordIds s1 = lastDiscordIds s2
  ∧ connectedDiscords s1 = connectedDiscords s2
  ∧ disconnectedDiscords s1 = disconnectedDiscords s2.

(** Started on objects related by [R], two methods leave objects that
    agree and emit the same events other than [subscribed]. *)
Definition alike (R : PatreonEvents → PatreonEvents → Prop) (m1 m2 : Eff unit) : Prop :=
  ∀ w1 w2, R (self w1) (self w2) →
    agree (self (after (m1 w1))) (self (after (m2 w2)))
    ∧ others (emitted (m1 w1)) = others (emitted (m2 w2)).

(** [R] relates only objects that agree. *)
Definition within (R : PatreonEvents → PatreonEvents → Prop) : Prop :=
  ∀ a b, R a b → agree a b.

(** Ticks never overlap: whenever an action starts a tick, no tick is in
    flight. *)
Definition no_overlap (l0 : Loop) : Prop :=
  ∀ actions a l, exec actions l0 = Some l → startsTick a l = true → inFlight l = [].

(** [stop] is final: after [stop] has returned, and unless [initialize] is
    called again, no action starts a tick. *)
Definition stop_final (l0 : Loop) : Prop :=
  ∀ before later a l,
    exec (before ++ CallStop :: later) l0 = Some l →
    Forall (λ x, x ≠ CallInitialize) later → a ≠ CallInitialize →
    startsTick a l = false.

(** The timers of a running object: both armed, with distinct handles. *)
Definition armed (l : Loop) : Prop :=
  ∃ h1 h2, h1 ≠ h2
    ∧ intervalId (self (world l)) = Some h1
    ∧ cacheSaveIntervalId (self (world l)) = Some h2
    ∧ timers l = <[h2 := SaveJob]> {[h1 := CheckJob]}.

(** The timers of a stopped object: none. *)
Definition disarmed (l : Loop) : Prop :=
  intervalId (self (world l)) = None
  ∧ cacheSaveIntervalId (self (world l)) = None
  ∧ timers l = ∅.

(** No call made by [initialize] is waiting for its fetch. *)
Definition no_initial_call (l : Loop) : Prop := Forall (λ b, b = false) (inFlight l).

(** ** What an answer script serves *)

(** How the requests of one fetch end. *)
Inductive Ending : Type :=
  | Complete
  | Rejected (message : string)
  | NoData.

Fixpoint ending (api : ApiScript) : Ending :=
  match api with
  | Rejects message => Rejected message
  | Malformed => NoData
  | LastPage _ _ => Complete
  | Page _ _ next => ending next
  end.

(** The [data] arrays of the pages that are answered, in page order. *)
Fixpoint served_data (api : ApiScript) : list RawMember :=
  match api with
  | Rejects _ | Malformed => []
  | LastPage data _ => data
  | Page data _ next => data ++ served_data next
  end.

(** Their [included] arrays. *)
Fixpoint served_included (api : ApiScript) : list Included :=
  match api with
  | Rejects _ | Malformed => []
  | LastPage _ included => included
  | Page _ included next => included ++ served_included next
  end.

(** The events for which [hasProcessedEvent] consults a record that
    [emitAndTrack] writes. *)
Definition deduplicated (event : EventKind) (member : MembershipData) : Prop :=
  event = subscribed
  ∨ ((event = connected ∨ event = disconnected) ∧ truthy_opt (discordId member) = true).

(** The event is about entity [i]. *)
Definition about (i : entity_id) (e : Event) : bool := bool_decide (event_id e = Some i).

(** ** The events of a record as a function of what is recorded about
    its entity *)

(** A dedup record [r] is the record of [d]. *)
Definition recorded (r : option string) (d : option string) : bool :=
  match r with
  | Some x => bool_decide (Some x = d)
  | None => false
  end.

(** The lifecycle events of a record, given the first-run flag and what the
    object records about the entity. *)
Definition status_events (member : MembershipData) (first : bool) (v : EntityView) :
    list Event :=
  if negb (truthy_opt (seen_status v)) then
    if negb first && negb (seen_subscribed v) then [MemberEvent subscribed member] else []
  else if bool_decide (seen_status v ≠ Some (status member)) then
    (if bool_decide (status member = "former_patron")
     then [MemberEvent canceled member] else [])
    ++ (if bool_decide (status member = "declined_patron")
        then [MemberEvent declined member] else [])
    ++ (if bool_decide (status member = "active_patron")
           && (bool_decide (seen_status v = Some "former_patron")
               || bool_decide (seen_status v = Some "declined_patron"))
        then [MemberEvent reactivated member] else [])
    ++ (if bool_decide (status member = "none")
        then [MemberEvent expired member] else [])
  else [].

(** Its linkage events. *)
Definition linkage_events (member : MembershipData) (v : EntityView) : list Event :=
  let connects :=
    if recorded (seen_connected v) (discordId member) then []
    else [MemberEvent connected member] in
  match seen_discordId v with
  | None | Some None => if truthy_opt (discordId member) then connects else []
  | Some (Some previous) =>
      let disconnects :=
        if recorded (seen_disconnected v) (Some previous) then []
        else [MemberEvent disconnected (with_discordId member (Some previous))] in
      if negb (truthy_opt (discordId member)) then disconnects
      else if bool_decide (Some previous ≠ discordId member) then
        if recorded (seen_disconnected v) (Some previous) then connects
        else
          MemberEvent disconnected (with_discordId member (Some previous))
          :: (if truthy previous then [MemberEvent connected member] else connects)
      else []
  end.

(** Two views agree on what the guards of the events read: the timestamps
    may differ. *)
Definition same_guards (v1 v2 : EntityView) : Prop :=
  seen_status v1 = seen_status v2
  ∧ seen_discordId v1 = seen_discordId v2
  ∧ seen_subscribed v1 = seen_subscribed v2
  ∧ seen_connected v1 = seen_connected v2
  ∧ seen_disconnected v1 = seen_disconnected v2.

(** ** The trackers as a record of the emitted events *)

(** Recording a list of events in order; the [n]-th value of the clock
    goes to the first member event, the next one to the second, and so on
    (the other events read no clock). *)
Fixpoint track_all (events : list Event) (clk : nat → Z) (n : nat) (s : PatreonEvents) :
    PatreonEvents :=
  match events with
  | [] => s
  | MemberEvent k x :: events' => track_all events' clk (S n) (track k x (clk n) s)
  | _ :: events' => track_all events' clk n s
  end.

(** The number of member events of a list. *)
Fixpoint clock_reads (events : list Event) : nat :=
  match events with
  | [] => 0
  | MemberEvent _ _ :: events' => S (clock_reads events')
  | _ :: events' => clock_reads events'
  end.

(** Two objects hold the same dedup trackers. *)
Definition same_trackers (s1 s2 : PatreonEvents) : Prop :=
  subscribedMembers s1 = subscribedMembers s2
  ∧ canceledMembers s1 = canceledMembers s2
  ∧ declinedMembers s1 = declinedMembers s2
  ∧ reactivatedMembers s1 = reactivatedMembers s2
  ∧ connectedDiscords s1 = connectedDiscords s2
  ∧ disconnectedDiscords s1 = disconnectedDiscords s2.

(** A method whose only effect on the trackers and on the clock is the
    recording of the events it emits. *)
Definition records_events {A : Type} (m : Eff A) : Prop :=
  ∀ w, clock (after (m w)) = clock w
    ∧ reads (after (m w)) = reads w + clock_reads (emitted (m w))
    ∧ same_trackers (self (after (m w)))
        (track_all (emitted (m w)) (clock w) (reads w) (self w)).

(** The object records no status and no linkage for entity [j]. *)
Definition forgotten (j : entity_id) (s : PatreonEvents) : Prop :=
  JSMap.get j (lastMemberships s) = None ∧ lastDiscordIds s !! j = None.

(** A member event about an entity of the batch, or the [disconnected]
    event of an entity that had a status and is not in the batch. *)
Definition about_known (s : PatreonEvents) (memberships : list MembershipData)
    (e : Event) : Prop :=
  ∃ k data, e = MemberEvent k data
    ∧ (id data ∈ id <$> memberships
       ∨ (k = disconnected ∧ id data ∈ JSMap.keys (lastMemberships s)
          ∧ id data ∉ id <$> memberships)).

(** ** The objects that ticks produce *)

(** An entity with a reactivation record has no cancel record and no
    decline record. *)
Definition reactivated_exclusive (s : PatreonEvents) : Prop :=
  ∀ i, is_Some (reactivatedMembers s !! i) →
    canceledMembers s !! i = None ∧ declinedMembers s !! i = None.

(** The status and the linkage of an entity are recorded together; the
    status is not empty, the Discord id is [null] or not empty; and the
    connect record of an entity is the Discord id it is linked to. *)
Definition maps_coherent (s : PatreonEvents) : Prop :=
  ∀ i, (is_Some (JSMap.get i (lastMemberships s)) ↔ is_Some (lastDiscordIds s !! i))
    ∧ JSMap.get i (lastMemberships s) ≠ Some EmptyString
    ∧ lastDiscordIds s !! i ≠ Some (Some EmptyString)
    ∧ (∀ d, connectedDiscords s !! i = Some d ↔ lastDiscordIds s !! i = Some (Some d)).

(** What holds of every object that ticks have produced from a new one. *)
Definition sound (s : PatreonEvents) : Prop :=
  maps_coherent s ∧ linkage_exclusive s ∧ subscribed_exclusive s ∧ reactivated_exclusive s
  ∧ keys_distinct s.

(** A sequence of ticks, each with what the API answers and the clock it
    reads. *)
Definition ticks (answers : list (ApiScript * (nat → Z))) (s : PatreonEvents) :
    PatreonEvents :=
  foldl (λ s' answer, state_after (run (checkForUpdates answer.1) s' answer.2)) s answers.

(** The linkage events that the change of the Discord id of an entity
    calls for: [disconnected] with the previous id when the entity was
    linked and is no longer linked to that id, then [connected] when the
    record has an id that is not the previous one. *)
Definition linkage_diff (member : MembershipData) (previous : option (option string)) :
    list Event :=
  match previous with
  | Some (Some p) =>
      if bool_decide (discordId member ≠ Some p)
      then [MemberEvent disconnected (with_discordId member (Some p))] else []
  | _ => []
  end
  ++ match discordId member with
     | Some d =>
         if bool_decide (previous ≠ Some (Some d)) then [MemberEvent connected member] else []
     | None => []
     end.

(** The last record of a batch that carries the Discord id [d]. *)
Definition last_linked (d : string) (memberships : list MembershipData) :
    option MembershipData :=
  last (List.filter (λ member, bool_decide (discordId member = Some d)) memberships).

Definition is_ready (e : Event) : bool :=
  match e with
  | ReadyEvent => true
  | _ => false
  end.

Definition is_CallInitialize (a : Action) : bool :=
  match a with
  | CallInitialize => true
  | _ => false
  end.

(** The calls made by [initialize] that wait for their fetch. *)
Definition pending (l : Loop) : nat := length (List.filter (λ b : bool, b) (inFlight l)).

(** The calls made by [initialize] that ended in an unhandled rejection. *)
Definition failed (l : Loop) : nat := length (List.filter (λ b : bool, b) (unhandled l)).

(** A request of the fetch is rejected. *)
Definition rejects (api : ApiScript) : bool :=
  match ending api with
  | Rejected _ => true
  | _ => false
  end.

(** A call of [checkForUpdates] whose fetch ends as [api] says runs to its
    end in loop [l]: no request is rejected, or a listener for [error] is
    registered. *)
Definition fulfils (api : ApiScript) (l : Loop) : bool :=
  negb (rejects api) || negb (bool_decide (errorListeners l = [])).

(** The lifecycle event that a change of status calls for, for an entity
    whose previous status is known. *)
Definition transition (previous status : string) : option EventKind :=
  if bool_decide (previous = status) then None
  else if bool_decide (status = "former_patron") then Some canceled
  else if bool_decide (status = "declined_patron") then Some declined
  else if bool_decide (status = "active_patron") then
    if bool_decide (previous = "former_patron") || bool_decide (previous = "declined_patron")
    then Some reactivated else None
  else if bool_decide (status = "none") then Some expired
  else None.

(** The handles in use are below the next fresh one. *)
Definition handles_fresh (l : Loop) : Prop :=
  ∀ h, is_Some (timers l !! h : option Job) → h < nextHandle l.

(** The cache file holds the status and the Discord id of the record,
    under the id of the record. *)
Definition cached (memberships : list (string * string))
    (discordIds : list (string * option string)) (member : MembershipData) : Prop :=
  ∃ k, id member = Some k ∧ (k, status member) ∈ memberships
    ∧ (k, discordId member) ∈ discordIds.

(** The events of a record, given the first-run flag and what the object
    records about its entity: the lifecycle events, then the linkage
    events. *)
Definition record_events (first : bool) (s : PatreonEvents) (member : MembershipData) :
    list Event :=
  status_events member first (view (id member) s)
  ++ linkage_events member (view (id member) s).

(** The event of the removed-member loop for one key, given what the
    object records about the entity. *)
Definition removal_events (memberships : list MembershipData) (s : PatreonEvents)
    (i : entity_id) : list Event :=
  if bool_decide (i ∈ id <$> memberships) then []
  else
    match lastDiscordIds s !! i with
    | Some (Some d) =>
        if truthy d && negb (recorded (disconnectedDiscords s !! i) (Some d))
        then [MemberEvent disconnected
                (bare_member i (or_else (JSMap.get i (lastMemberships s)) "none") (Some d))]
        else []
    | _ => []
    end.

(** The object has a status that is not empty for entity [j]. *)
Definition known (j : entity_id) (s : PatreonEvents) : Prop :=
  truthy_opt (JSMap.get j (lastMemberships s)) = true.

(** The event is not a [subscribed] event about entity [j]. *)
Definition not_subscribed (j : entity_id) (e : Event) : Prop :=
  is_kind_of subscribed j e = false.

(** * Objects, batches and answers used as instances *)

(** What the instances share. *)
Module Sample.
(** A clock that advances by one millisecond at each read. *)
Definition clk : nat → Z := Z.of_nat.

Definition member (i st : string) (d : option string) : MembershipData :=
  mkMember (Some i) st None None (Some st) d None None.

Definition raw (i st u : string) : RawMember :=
  mkRawMember (Some i) (Some st) None None None None (Some u).

Definition user (u : string) (d : option string) : Included :=
  mkIncluded (Some "user") (Some u) d.

(** Entity A, active and linked to D1, with its connect record. *)
Definition linked : PatreonEvents :=
  mkPatreonEvents [(Some "A", "active_patron")] {[Some "A" := Some "D1"]}
    None None false {[Some "A"]} ∅ ∅ ∅ {[Some "A" := "D1"]} ∅ ∅.

(** The API reports A as a former patron without a Discord account. *)
Definition left_api : ApiScript :=
  LastPage [raw "A" "former_patron" "u1"] [user "u1" None].
End Sample.

Module Returning.
(** A joined and was announced; then A left the campaign: the tick that
    no longer finds A deletes its status and keeps it in the subscribed
    set. *)
Definition joined : PatreonEvents :=
  state_after (run (reconcile [Sample.member "A" "active_patron" None])
                 (set_isFirstRun false new_PatreonEvents) Sample.clk).

Definition returning : PatreonEvents :=
  state_after (run (reconcile []) joined Sample.clk).

Definition batch : list MembershipData := [Sample.member "A" "active_patron" None].
End Returning.

Module ThreeTicks.
(** Three ticks on a new object: A is active, then declined, then a former
    patron. *)
Definition api (st : string) : ApiScript := LastPage [Sample.raw "A" st "u1"] [].

Definition tick (st : string) (s : PatreonEvents) : PatreonEvents :=
  state_after (run (checkForUpdates (api st)) s Sample.clk).

Definition after_three : PatreonEvents :=
  tick "former_patron" (tick "declined_patron" (tick "active_patron" new_PatreonEvents)).
End ThreeTicks.

Module FailedFetch.
(** The request of the tick is rejected. *)
Definition failed : Out unit :=
  run (checkForUpdates (Rejects "ECONNRESET")) Sample.linked Sample.clk.

(** The answer has no [data] array. *)
Definition malformed : Out unit :=
  run (checkForUpdates Malformed) Sample.linked Sample.clk.
End FailedFetch.

Module NoId.
(** An entry of the [data] array that has no [id]. *)
Definition nameless : RawMember :=
  mkRawMember None (Some "active_patron") (Some "Ann") None None None None.

Definition api : ApiScript := LastPage [nameless] [].

Definition started : PatreonEvents := set_isFirstRun false new_PatreonEvents.

Definition record : MembershipData :=
  mkMember None "active_patron" (Some "Ann") None (Some "active_patron") None None None.
End NoId.

Module SameBatch.
(** The API lists A twice, first as active and then as a former patron. *)
Definition batch : list MembershipData :=
  [Sample.member "A" "active_patron" None; Sample.member "A" "former_patron" None].

Definition once : PatreonEvents :=
  state_after (run (reconcile batch) NoId.started Sample.clk).

(** Two entities, one of them linked. *)
Definition distinct : list MembershipData :=
  [Sample.member "A" "active_patron" (Some "D1"); Sample.member "B" "declined_patron" None].
End SameBatch.

Module ColdStart.
(** A cold start: two members, one of them with a Discord account. *)
Definition batch : list MembershipData :=
  [Sample.member "A" "active_patron" (Some "D1"); Sample.member "B" "former_patron" None].
End ColdStart.

Module Timers.
Definition api : ApiScript := LastPage [Sample.raw "A" "active_patron" "u1"] [].

(** The host has registered one listener for [error]. *)
Definition idle : Loop := boot new_PatreonEvents Sample.clk [false].

(** [initialize], its first tick, and the timer firing once. *)
Definition ticking : list Action :=
  [CallInitialize; FetchCompletes 0 api; TimerFires 0].

(** [stop] called while the first tick waits for its fetch. *)
Definition early_stop : list Action :=
  [CallInitialize] ++ CallStop :: [FetchCompletes 0 api].

(** [stop] called while the first tick waits for its fetch, which is then
    rejected. *)
Definition silenced : list Action :=
  [CallInitialize; CallStop; FetchCompletes 0 (Rejects "ECONNRESET")].
End Timers.

Module Stopped.
(** The timers fire, then [stop], then the tick in flight completes. *)
Definition before : list Action := [TimerFires 0; TimerFires 1].

Definition later : list Action := [FetchCompletes 0 Timers.api].

Definition stopped : option Loop :=
  exec (CallInitialize :: FetchCompletes 0 Timers.api :: before ++ CallStop :: later)
    Timers.idle.
End Stopped.

Module Linked.
(** The first tick of a new object finds A, active and linked to D1. *)
Definition api : ApiScript :=
  LastPage [Sample.raw "A" "active_patron" "u1"] [Sample.user "u1" (Some "D1")].

Definition produced : PatreonEvents := ticks [(api, Sample.clk)] new_PatreonEvents.

(** A as the API reports it: unchanged, with another Discord account, and
    as a former patron. *)
Definition same : MembershipData := Sample.member "A" "active_patron" (Some "D1").

Definition swapped : MembershipData := Sample.member "A" "active_patron" (Some "D2").

Definition former : MembershipData := Sample.member "A" "former_patron" None.

(** Another entity. *)
Definition other : MembershipData := Sample.member "B" "active_patron" None.

(** The cache file that holds A. *)
Definition cache : CacheData :=
  mkCacheData (Some [("A", "active_patron")]) (Some [("A", Some "D1")])
    None None None None None None.
End Linked.

Module Running.
(** An object whose timers are armed: handle 0 runs the tick, handle 1
    saves the cache; one listener for [error] is registered. *)
Definition running : Loop :=
  mkLoop
    (mkWorld (set_cacheSaveIntervalId (Some 1) (set_intervalId (Some 0) new_PatreonEvents))
       Sample.clk 0)
    (<[1 := SaveJob]> {[0 := CheckJob]}) 2 [] [] [false] [].
End Running.

(** * Facts about the JavaScript values *)

Lemma truthy_true (s : string) : truthy s = true ↔ s ≠ EmptyString.
Proof. destruct s; simpl; split; intros; congruence. Qed.

Lemma truthy_or_else (o : option string) (d : string) :
  truthy d = true → truthy (or_else o d) = true.
Proof.
  intros Hd. destruct o as [s|]; simpl; [|exact Hd].
  destruct (truthy s) eqn:Hs; [exact Hs | exact Hd].
Qed.

Lemma or_null_not_empty (o : option string) : or_null o ≠ Some EmptyString.
Proof.
  destruct o as [s|]; simpl; [|discriminate].
  destruct (truthy s) eqn:Hs; [|discriminate].
  intros [= ->]. discriminate.
Qed.

(** * Facts about [JSMap] *)

Section JSMap_facts.
Context {K V : Type} `{EqDecision K}.
Implicit Types (k : K) (v : V) (m : JSMap.t K V).
Import JSMap.

Lemma get_set_eq k v m : get k (set k v m) = Some v.
Proof.
  induction m as [|[k' v'] m IH]; simpl.
  - by rewrite decide_True.
  - destruct (decide (k = k')) as [->|Hne]; simpl.
    + by rewrite decide_True.
    + by rewrite decide_False.
Qed.

Lemma get_set_ne k k' v m : k ≠ k' → get k' (set k v m) = get k' m.
Proof.
  intros Hne. induction m as [|[k0 v0] m IH]; simpl.
  - rewrite decide_False; [done | congruence].
  - destruct (decide (k = k0)) as [->|Hne0]; simpl.
    + rewrite !decide_False; [done | congruence | congruence].
    + destruct (decide (k' = k0)); [done | exact IH].
Qed.

Lemma get_delete_eq k m : get k (delete k m) = None.
Proof.
  induction m as [|[k' v'] m IH]; simpl; [done|].
  destruct (decide (k = k')) as [->|Hne]; simpl; [done|].
  by rewrite decide_False.
Qed.

Lemma get_delete_ne k k' m : k ≠ k' → get k' (delete k m) = get k' m.
Proof.
  intros Hne. induction m as [|[k0 v0] m IH]; simpl; [done|].
  destruct (decide (k = k0)) as [->|Hne0]; simpl.
  - rewrite decide_False; [exact IH | congruence].
  - destruct (decide (k' = k0)); [done | exact IH].
Qed.

Lemma set_id k v m : get k m = Some v → set k v m = m.
Proof.
  induction m as [|[k' v'] m IH]; simpl; [done|].
  destruct (decide (k = k')) as [->|Hne]; [by intros [= ->]|].
  intros H. by rewrite IH.
Qed.

Lemma get_None_keys k m : get k m = None ↔ k ∉ keys m.
Proof.
  unfold keys. induction m as [|[k' v'] m IH]; simpl.
  - split; [intros _; apply not_elem_of_nil | done].
  - rewrite not_elem_of_cons. destruct (decide (k = k')) as [->|Hne].
    + split; [discriminate | intros [? _]; done].
    + rewrite IH. tauto.
Qed.

Lemma get_Some_keys k v m : get k m = Some v → k ∈ keys m.
Proof.
  intros H. destruct (decide (k ∈ keys m)) as [|Hn]; [done|].
  apply get_None_keys in Hn. congruence.
Qed.

Lemma elem_of_keys_set k k' v m : k' ∈ keys (set k v m) ↔ k' = k ∨ k' ∈ keys m.
Proof.
  unfold keys. induction m as [|[k0 v0] m IH]; simpl.
  - rewrite elem_of_cons. rewrite elem_of_nil. tauto.
  - destruct (decide (k = k0)) as [->|Hne]; simpl.
    + rewrite !elem_of_cons. tauto.
    + rewrite !elem_of_cons, IH. tauto.
Qed.

Lemma elem_of_keys_delete k k' m : k' ∈ keys (delete k m) ↔ k' ≠ k ∧ k' ∈ keys m.
Proof.
  unfold keys. induction m as [|[k0 v0] m IH]; simpl.
  - rewrite elem_of_nil. tauto.
  - destruct (decide (k = k0)) as [->|Hne]; simpl.
    + rewrite IH, elem_of_cons. split; [tauto|]. intros [? [?|?]]; [done | tauto].
    + rewrite !elem_of_cons, IH. split; [|tauto].
      intros [->|[? ?]]; split; auto; congruence.
Qed.

Lemma NoDup_keys_set k v m : NoDup (keys m) → NoDup (keys (set k v m)).
Proof.
  unfold keys. induction m as [|[k0 v0] m IH]; simpl; intros Hnd.
  - apply NoDup_singleton.
  - apply NoDup_cons in Hnd as [Hn Hnd].
    destruct (decide (k = k0)) as [->|Hne]; simpl.
    + by apply NoDup_cons.
    + apply NoDup_cons. split; [|by apply IH].
      intros Hin. apply (elem_of_keys_set k k0 v m) in Hin as [->|Hin]; done.
Qed.

Lemma NoDup_keys_delete k m : NoDup (keys m) → NoDup (keys (delete k m)).
Proof.
  unfold keys. induction m as [|[k0 v0] m IH]; simpl; intros Hnd; [done|].
  apply NoDup_cons in Hnd as [Hn Hnd].
  destruct (decide (k = k0)) as [->|Hne]; simpl; [by apply IH|].
  apply NoDup_cons. split; [|by apply IH].
  intros Hin. by apply (elem_of_keys_delete k k0 m) in Hin as [_ Hin].
Qed.
End JSMap_facts.

(** * The effect type *)

Lemma after_bind {A B : Type} (m : Eff A) (f : A → Eff B) (w : World) :
  after ((m ≫= f) w) = after (f (value (m w)) (after (m w))).
Proof. reflexivity. Qed.

Lemma emitted_bind {A B : Type} (m : Eff A) (f : A → Eff B) (w : World) :
  emitted ((m ≫= f) w) = emitted (m w) ++ emitted (f (value (m w)) (after (m w))).
Proof. reflexivity. Qed.

Lemma forEach_cons {A : Type} (x : A) (l : list A) (body : A → Eff unit) :
  forEach (x :: l) body = body x ≫= λ _, forEach l body.
Proof. reflexivity. Qed.

Lemma this_bind_run {A : Type} (k : PatreonEvents → Eff A) (w : World) :
  (this ≫= k) w = k (self w) w.
Proof. unfold mbind, Eff_bind, this. simpl. by destruct (k (self w) w). Qed.

Lemma after_forEach_app {A : Type} (l1 l2 : list A) (body : A → Eff unit) (w : World) :
  after (forEach (l1 ++ l2) body w) = after (forEach l2 body (after (forEach l1 body w))).
Proof.
  revert w. induction l1 as [|x l1 IH]; intros w; [reflexivity|].
  rewrite <- app_comm_cons, !forEach_cons, !after_bind. apply IH.
Qed.

Lemma emitted_forEach_app {A : Type} (l1 l2 : list A) (body : A → Eff unit) (w : World) :
  emitted (forEach (l1 ++ l2) body w)
  = emitted (forEach l1 body w) ++ emitted (forEach l2 body (after (forEach l1 body w))).
Proof.
  revert w. induction l1 as [|x l1 IH]; intros w; [reflexivity|].
  rewrite <- app_comm_cons, !forEach_cons, !emitted_bind, !after_bind, IH.
  by rewrite app_assoc.
Qed.

Lemma emitAndTrack_run (event : EventKind) (member : MembershipData) (w : World) :
  emitAndTrack event member true w
  = mkOut tt (mkWorld (track event member (clock w (reads w)) (self w)) (clock w) (S (reads w)))
      [MemberEvent event member].
Proof.
  destruct event; try reflexivity;
    (unfold emitAndTrack, track; simpl; destruct (discordId member) as [d|];
     [destruct (truthy d) eqn:Hd; simpl; unfold mbind, Eff_bind; simpl; rewrite ?Hd; reflexivity
     | reflexivity]).
Qed.

(** * Rules for [triple] *)

Section triple_rules.
Context {A B : Type}.
Implicit Types (P Q R : PatreonEvents → Prop) (E : Event → Prop).

Lemma triple_conseq P P' Q Q' E E' (m : Eff A) :
  triple P' m Q' E' →
  (∀ s, P s → P' s) → (∀ s, Q' s → Q s) → (∀ e, E' e → E e) →
  triple P m Q E.
Proof.
  intros H HP HQ HE w Hw. destruct (H w (HP _ Hw)) as [H1 H2]. split; [auto|].
  eapply Forall_impl; eauto.
Qed.

Lemma triple_ret P Q E (a : A) : (∀ s, P s → Q s) → triple P (mret a) Q E.
Proof. intros H w Hw. split; [by apply H | constructor]. Qed.

Lemma triple_bind P R Q E (m : Eff A) (f : A → Eff B) :
  triple P m R E → (∀ a, triple R (f a) Q E) → triple P (m ≫= f) Q E.
Proof.
  intros Hm Hf w Hw. destruct (Hm w Hw) as [H1 H2].
  destruct (Hf (value (m w)) (after (m w)) H1) as [H3 H4].
  rewrite after_bind, emitted_bind. split; [done|]. by apply Forall_app.
Qed.

Lemma triple_this P Q E (k : PatreonEvents → Eff A) :
  (∀ s, triple (λ s', s' = s ∧ P s') (k s) Q E) → triple P (this ≫= k) Q E.
Proof. intros H w Hw. exact (H (self w) w (conj eq_refl Hw)). Qed.
End triple_rules.

Lemma triple_update P Q E (f : PatreonEvents → PatreonEvents) :
  (∀ s, P s → Q (f s)) → triple P (update f) Q E.
Proof. intros H w Hw. split; [by apply H | constructor]. Qed.

Lemma triple_emit P Q (E : Event → Prop) (e : Event) :
  (∀ s, P s → Q s) → E e → triple P (emit e) Q E.
Proof. intros H He w Hw. split; [by apply H | by repeat constructor]. Qed.

Lemma triple_when P Q E (c : bool) (body : Eff unit) :
  (c = true → triple P body Q E) → (c = false → ∀ s, P s → Q s) →
  triple P (when c body) Q E.
Proof.
  intros Ht Hf. destruct c; simpl; [by apply Ht|]. apply triple_ret. by apply Hf.
Qed.

Lemma triple_forEach {A : Type} P E (l : list A) (body : A → Eff unit) :
  (∀ x, x ∈ l → triple P (body x) P E) → triple P (forEach l body) P E.
Proof.
  induction l as [|x l IH]; intros H.
  - by apply triple_ret.
  - rewrite forEach_cons. eapply triple_bind; [apply H; left | intros _; apply IH].
    intros y Hy. apply H. by right.
Qed.

Lemma triple_emitAndTrack P Q (E : Event → Prop) event member :
  (∀ now s, P s → Q (track event member now s) ∧ E (MemberEvent event member)) →
  triple P (emitAndTrack event member true) Q E.
Proof.
  intros H w Hw. rewrite emitAndTrack_run. simpl.
  destruct (H (clock w (reads w)) _ Hw) as [H1 H2]. split; [done | by repeat constructor].
Qed.

Lemma triple_emitOnce P (E : Event → Prop) event member :
  event ≠ subscribed → tracks P E event member →
  triple P (emitOnce event member) P E.
Proof.
  intros Hk H. apply triple_this. intros s. apply triple_when.
  - intros Hc. apply triple_emitAndTrack.
    intros now s' [-> Hs]. apply H; [done | by apply negb_true_iff | done].
  - by intros _ s' [_ Hs].
Qed.

Lemma with_discordId_same (member : MembershipData) :
  with_discordId member (discordId member) = member.
Proof. by destruct member. Qed.

Lemma triple_statusChanges P (E : Event → Prop) member previousStatus :
  (∀ k, lifecycle k = true → tracks P E k member) →
  triple P (statusChanges member previousStatus) P E.
Proof.
  intros H. unfold statusChanges.
  destruct (negb (truthy_opt previousStatus)).
  { apply triple_this. intros s. apply triple_when; [|by intros _ s' [_ Hs]].
    intros [Hf Hp]%andb_true_iff. apply triple_emitAndTrack. intros now s' [-> Hs].
    apply negb_true_iff in Hf, Hp. by apply H. }
  destruct (bool_decide (previousStatus ≠ Some (status member))); [|by apply triple_ret].
  repeat (eapply triple_bind; [|intros _]);
    (apply triple_when; [intros _ | done]);
    apply triple_emitAndTrack; intros now s Hs; by apply H.
Qed.

Lemma triple_discordChanges P (E : Event → Prop) member previousDiscordId :
  (∀ k d, linkage k = true → tracks P E k (with_discordId member d)) →
  triple P (discordChanges member previousDiscordId) P E.
Proof.
  intros H.
  assert (Hc : triple P (s ← this;
      when (truthy_opt (discordId member) && negb (hasProcessedEvent connected member s))
        (emitAndTrack connected member true)) P E).
  { apply triple_this. intros s. apply triple_when; [|by intros _ s' [_ Hs]].
    intros [_ Hp]%andb_true_iff. apply triple_emitAndTrack. intros now s' [-> Hs].
    apply negb_true_iff in Hp.
    pose proof (H connected (discordId member) eq_refl) as H'.
    rewrite with_discordId_same in H'. by apply H'. }
  unfold discordChanges. destruct previousDiscordId as [[previous|]|]; [|done|done].
  destruct (negb (truthy_opt (discordId member))).
  { by apply triple_emitOnce; [|apply H]. }
  destruct (bool_decide (Some previous ≠ discordId member)); [|by apply triple_ret].
  eapply triple_bind; [by apply triple_emitOnce; [|apply H]|intros _].
  pose proof (H connected (discordId member) eq_refl) as H'.
  rewrite with_discordId_same in H'. by apply triple_emitOnce.
Qed.

Lemma triple_processMember P (E : Event → Prop) member :
  (∀ k, lifecycle k = true → tracks P E k member) →
  (∀ k d, linkage k = true → tracks P E k (with_discordId member d)) →
  (∀ f s, P s → P (set_discordToMemberMap f s)) →
  (∀ s, P s → P (set_lastMemberships (JSMap.set (id member) (status member)) s)) →
  (∀ s, P s → P (set_lastDiscordIds (<[id member := discordId member]>) s)) →
  triple P (processMember member) P E.
Proof.
  intros Hs Hd Hmap Hm Hl. unfold processMember.
  apply triple_this. intros s.
  apply triple_conseq with (P' := P) (Q' := P) (E' := E); [|by intros ? [_ ?]|done|done].
  eapply triple_bind.
  { destruct (discordId member) as [d|]; [|by apply triple_ret].
    apply triple_when; [intros _|done]. apply triple_update. intros s'. apply Hmap. }
  intros _. eapply triple_bind; [by apply triple_statusChanges|intros _].
  eapply triple_bind; [by apply triple_discordChanges|intros _].
  eapply triple_bind; [by apply triple_update|intros _].
  by apply triple_update.
Qed.

Lemma triple_removeMember P (E : Event → Prop) currentMembers i :
  (i ∉ currentMembers → ∀ st d, tracks P E disconnected (bare_member i st (Some d))) →
  (i ∉ currentMembers → ∀ s, P s → P (set_lastMemberships (JSMap.delete i) s)) →
  (i ∉ currentMembers → ∀ s, P s → P (set_lastDiscordIds (delete i) s)) →
  triple P (removeMember currentMembers i) P E.
Proof.
  intros Ht Hm Hl. unfold removeMember. apply triple_when; [|done].
  intros Hi%negb_true_iff%bool_decide_eq_false.
  apply triple_this. intros s.
  apply triple_conseq with (P' := P) (Q' := P) (E' := E); [|by intros ? [_ ?]|done|done].
  eapply triple_bind.
  { destruct (lastDiscordIds s !! i) as [[d|]|]; try by apply triple_ret.
    apply triple_when; [intros _|done]. apply triple_emitOnce; [done|]. by apply Ht. }
  intros _. eapply triple_bind; [apply triple_update; by apply Hm|intros _].
  apply triple_update. by apply Hl.
Qed.

Lemma triple_reconcile P Q (E : Event → Prop) memberships :
  (∀ f s, P s → P (set_discordToMemberMap f s)) →
  (∀ member, member ∈ memberships → triple P (processMember member) P E) →
  (∀ i, triple P (removeMember (list_to_set (id <$> memberships)) i) P E) →
  (∀ s, P s → Q (set_isFirstRun false s)) →
  triple P (reconcile memberships) Q E.
Proof.
  intros Hmap Hp Hr Hq. unfold reconcile.
  eapply triple_bind; [apply triple_update; intros s; apply Hmap|intros _].
  eapply triple_bind; [by apply triple_forEach|intros _].
  apply triple_this. intros s.
  apply triple_conseq with (P' := P) (Q' := Q) (E' := E); [|by intros ? [_ ?]|done|done].
  eapply triple_bind; [apply triple_forEach; intros i _; apply Hr|intros _].
  eapply triple_bind; [by apply triple_update|intros _].
  by apply triple_ret.
Qed.

Lemma triple_fetchMemberships P (E : Event → Prop) api :
  (∀ message, E (ErrorEvent message)) → triple P (fetchMemberships api) P E.
Proof.
  intros He. unfold fetchMemberships. destruct (fetchPages api [] []).
  - eapply triple_bind; [by apply triple_emit|intros _]. by apply triple_ret.
  - by apply triple_ret.
  - by apply triple_ret.
Qed.

(** An invariant of the trackers that no member event breaks and that does
    not read the other fields is an invariant of the tick. *)
Lemma invariant_checkForUpdates (P : PatreonEvents → Prop) api :
  (∀ k x, tracks P (λ _, True) k x) →
  (∀ f s, P s → P (set_discordToMemberMap f s)) →
  (∀ f s, P s → P (set_lastMemberships f s)) →
  (∀ f s, P s → P (set_lastDiscordIds f s)) →
  (∀ s, P s → P (set_isFirstRun false s)) →
  triple P (checkForUpdates api) P (λ _, True).
Proof.
  intros Ht Hmap Hm Hl Hf. unfold checkForUpdates.
  eapply triple_bind; [by apply triple_fetchMemberships|intros memberships].
  apply triple_reconcile; [done| | |done].
  - intros member _. apply triple_processMember; auto.
  - intros i. apply triple_removeMember; auto.
Qed.

(** * Mutual exclusion of the linkage records *)

Lemma tracks_linkage_exclusive k x : tracks linkage_exclusive (λ _, True) k x.
Proof.
  intros now s Hs _ _. split; [|done].
  destruct k; simpl; try exact Hs;
    (destruct (truthy_opt (discordId x)); [|exact Hs]);
    intros i; simpl; destruct (decide (i = id x)) as [->|Hne];
    rewrite ?lookup_delete_eq, ?lookup_insert_eq; auto;
    rewrite ?lookup_delete_ne, ?lookup_insert_ne by done; apply Hs.
Qed.

Lemma linkage_exclusive_new : linkage_exclusive new_PatreonEvents.
Proof. intros i. by left. Qed.

(** C5.  A tick started on an object in which no entity has both a connect
    record and a disconnect record leaves such an object, whatever the API
    answers; recording a connection (with a Discord id that is not empty)
    stores it and deletes the entity's disconnect record, and recording a
    disconnection stores it and deletes the entity's connect record. *)
Theorem linkage_exclusive_checkForUpdates (s : PatreonEvents) (api : ApiScript)
    (clk : nat → Z) :
  linkage_exclusive s →
  linkage_exclusive (state_after (run (checkForUpdates api) s clk))
  ∧ (∀ member d, discordId member = Some d → truthy d = true →
       let s' := state_after (run (emitAndTrack connected member true) s clk) in
       connectedDiscords s' !! id member = Some d
       ∧ disconnectedDiscords s' !! id member = None)
  ∧ (∀ member d, discordId member = Some d → truthy d = true →
       let s' := state_after (run (emitAndTrack disconnected member true) s clk) in
       disconnectedDiscords s' !! id member = Some d
       ∧ connectedDiscords s' !! id member = None).
Proof.
  intros Hs. split; [|split].
  - apply (invariant_checkForUpdates linkage_exclusive api); try done.
    apply tracks_linkage_exclusive.
  - intros member d Hd Ht. unfold state_after, run. rewrite emitAndTrack_run. simpl.
    rewrite Hd. simpl. rewrite Ht. simpl.
    by rewrite lookup_insert_eq, lookup_delete_eq.
  - intros member d Hd Ht. unfold state_after, run. rewrite emitAndTrack_run. simpl.
    rewrite Hd. simpl. rewrite Ht. simpl.
    by rewrite lookup_insert_eq, lookup_delete_eq.
Qed.

Lemma linkage_exclusive_checkForUpdates_witness :
  linkage_exclusive Sample.linked
  ∧ linkage_exclusive
      (state_after (run (checkForUpdates Sample.left_api) Sample.linked Sample.clk))
  ∧ (∀ member d, discordId member = Some d → truthy d = true →
       let s' := state_after (run (emitAndTrack connected member true) Sample.linked
                                Sample.clk) in
       connectedDiscords s' !! id member = Some d
       ∧ disconnectedDiscords s' !! id member = None)
  ∧ (∀ member d, discordId member = Some d → truthy d = true →
       let s' := state_after (run (emitAndTrack disconnected member true) Sample.linked
                                Sample.clk) in
       disconnectedDiscords s' !! id member = Some d
       ∧ connectedDiscords s' !! id member = None).
Proof.
  assert (H : linkage_exclusive Sample.linked) by (intros i; right; reflexivity).
  split; [exact H|].
  exact (linkage_exclusive_checkForUpdates Sample.linked Sample.left_api Sample.clk H).
Defined.

(** * What the tick reads and writes about one entity *)

Lemma lastMemberships_track k x now s :
  lastMemberships (track k x now s) = lastMemberships s.
Proof. destruct k; simpl; try reflexivity; by destruct (truthy_opt (discordId x)). Qed.

Lemma lastDiscordIds_track k x now s :
  lastDiscordIds (track k x now s) = lastDiscordIds s.
Proof. destruct k; simpl; try reflexivity; by destruct (truthy_opt (discordId x)). Qed.

Lemma isFirstRun_track k x now s : isFirstRun (track k x now s) = isFirstRun s.
Proof. destruct k; simpl; try reflexivity; by destruct (truthy_opt (discordId x)). Qed.

Lemma discordToMemberMap_track k x now s :
  discordToMemberMap (track k x now s) = discordToMemberMap s.
Proof. destruct k; simpl; try reflexivity; by destruct (truthy_opt (discordId x)). Qed.

Lemma elem_of_add_ne (i j : entity_id) (X : gset entity_id) :
  i ≠ j → j ∈ {[i]} ∪ X ↔ j ∈ X.
Proof.
  intros Hne. rewrite elem_of_union, elem_of_singleton.
  split; [intros [->|H]; done | auto].
Qed.

Lemma elem_of_remove_ne (i j : entity_id) (X : gset entity_id) :
  i ≠ j → j ∈ X ∖ {[i]} ↔ j ∈ X.
Proof.
  intros Hne. rewrite elem_of_difference, elem_of_singleton.
  split; [by intros [H _] | intros H; split; [done | congruence]].
Qed.

Lemma view_track j k x now s : id x ≠ j → view j (track k x now s) = view j s.
Proof.
  intros Hne. unfold view.
  destruct k; simpl; try (destruct (truthy_opt (discordId x)); simpl);
    rewrite ?lookup_delete_ne, ?lookup_insert_ne by done; try reflexivity;
    f_equal; apply bool_decide_ext;
    (by apply elem_of_add_ne) || (by apply elem_of_remove_ne).
Qed.

Lemma view_set_lastMemberships_ne j i st s :
  i ≠ j → view j (set_lastMemberships (JSMap.set i st) s) = view j s.
Proof. intros Hne. unfold view. simpl. by rewrite get_set_ne. Qed.

Lemma view_set_lastDiscordIds_ne j i d s :
  i ≠ j → view j (set_lastDiscordIds (<[i := d]>) s) = view j s.
Proof. intros Hne. unfold view. simpl. by rewrite lookup_insert_ne. Qed.

Lemma view_delete_lastMemberships_ne j i s :
  i ≠ j → view j (set_lastMemberships (JSMap.delete i) s) = view j s.
Proof. intros Hne. unfold view. simpl. by rewrite get_delete_ne. Qed.

Lemma view_delete_lastDiscordIds_ne j i s :
  i ≠ j → view j (set_lastDiscordIds (delete i) s) = view j s.
Proof. intros Hne. unfold view. simpl. by rewrite lookup_delete_ne. Qed.

Lemma tracks_framed j v b k x :
  id x ≠ j → tracks (framed j v b) (not_about j) k x.
Proof.
  intros Hne now s [Hv Hb] _ _. split.
  - split; [by rewrite view_track | by rewrite isFirstRun_track].
  - unfold not_about. simpl. congruence.
Qed.

(** Processing a record of another entity leaves the records about [j] as
    they are and emits nothing about [j]. *)
Lemma frame_processMember j v b member :
  id member ≠ j →
  triple (framed j v b) (processMember member) (framed j v b) (not_about j).
Proof.
  intros Hne. apply triple_processMember.
  - intros k _. by apply tracks_framed.
  - intros k d _. by apply tracks_framed.
  - by intros f s Hs.
  - intros s [Hv Hb]. split; [by rewrite view_set_lastMemberships_ne | done].
  - intros s [Hv Hb]. split; [by rewrite view_set_lastDiscordIds_ne | done].
Qed.

Lemma frame_forEach_processMember j v b memberships :
  j ∉ id <$> memberships →
  triple (framed j v b) (forEach memberships processMember) (framed j v b) (not_about j).
Proof.
  intros Hj. apply triple_forEach. intros member Hm. apply frame_processMember.
  intros <-. apply Hj. by apply list_elem_of_fmap_2.
Qed.

(** The removed-member loop leaves alone an entity that it does not visit
    or that is in the current batch. *)
Lemma frame_removeMember j v b currentMembers i :
  (i ∉ currentMembers → i ≠ j) →
  triple (framed j v b) (removeMember currentMembers i) (framed j v b) (not_about j).
Proof.
  intros Hne. apply triple_removeMember.
  - intros Hi st d. apply tracks_framed. simpl. by apply Hne.
  - intros Hi s [Hv Hb]. split; [rewrite view_delete_lastMemberships_ne; auto | done].
  - intros Hi s [Hv Hb]. split; [rewrite view_delete_lastDiscordIds_ne; auto | done].
Qed.

(** * Counting events *)

Lemma count_events_app test l1 l2 :
  count_events test (l1 ++ l2) = count_events test l1 + count_events test l2.
Proof. unfold count_events. by rewrite List.filter_app, length_app. Qed.

Lemma filter_not_about kind j l :
  Forall (not_about j) l → List.filter (is_kind_of kind j) l = [].
Proof.
  induction 1 as [|e l He _ IH]; [done|]. simpl. rewrite IH.
  destruct e as [k data| |]; simpl; try done.
  destruct (bool_decide (k = kind)); simpl; [|done].
  rewrite bool_decide_eq_false_2; [done|]. intros Hid. apply He. simpl. by rewrite Hid.
Qed.

Lemma count_events_not_about kind j l :
  Forall (not_about j) l → count_events (is_kind_of kind j) l = 0.
Proof. intros H. unfold count_events. by rewrite filter_not_about. Qed.

(** * The tick, phase by phase *)

Lemma emitted_reconcile memberships w :
  emitted (reconcile memberships w)
  = emitted (forEach memberships processMember (cleared w)) ++ emitted (swept memberships w).
Proof.
  unfold reconcile, swept, diffed. rewrite !emitted_bind. simpl.
  by rewrite !app_nil_r.
Qed.

Lemma self_after_reconcile memberships w :
  self (after (reconcile memberships w))
  = set_isFirstRun false (self (after (swept memberships w))).
Proof. reflexivity. Qed.

Lemma emitted_processMember member w :
  emitted (processMember member w)
  = emitted (statusHalf member w) ++ emitted (discordHalf member w).
Proof.
  unfold processMember, discordHalf, statusHalf, indexed.
  rewrite !emitted_bind. simpl.
  destruct (discordId member) as [d|]; [destruct (truthy d)|]; simpl;
    by rewrite !app_nil_r.
Qed.

Lemma self_after_processMember member w :
  self (after (processMember member w))
  = set_lastDiscordIds (<[id member := discordId member]>)
      (set_lastMemberships (JSMap.set (id member) (status member))
         (self (after (discordHalf member w)))).
Proof.
  unfold processMember, discordHalf, statusHalf, indexed.
  rewrite !after_bind. simpl.
  by destruct (discordId member) as [d|]; [destruct (truthy d)|].
Qed.

Lemma self_indexed_fields member w :
  lastMemberships (self (indexed member w)) = lastMemberships (self w)
  ∧ lastDiscordIds (self (indexed member w)) = lastDiscordIds (self w)
  ∧ isFirstRun (self (indexed member w)) = isFirstRun (self w)
  ∧ subscribedMembers (self (indexed member w)) = subscribedMembers (self w)
  ∧ connectedDiscords (self (indexed member w)) = connectedDiscords (self w)
  ∧ disconnectedDiscords (self (indexed member w)) = disconnectedDiscords (self w).
Proof.
  unfold indexed. by destruct (discordId member) as [d|]; [destruct (truthy d)|].
Qed.

Lemma subscribedMembers_track_linkage k x now s :
  linkage k = true → subscribedMembers (track k x now s) = subscribedMembers s.
Proof.
  destruct k; try discriminate; intros _; simpl; by destruct (truthy_opt (discordId x)).
Qed.

Lemma count_events_other_kind kind kind' j l :
  Forall (λ e, is_kind kind' e = false) l → kind = kind' →
  count_events (is_kind_of kind j) l = 0.
Proof.
  intros H ->. unfold count_events. induction H as [|e l He _ IH]; [done|]. simpl.
  destruct e as [k data| |]; simpl in *; try done. by rewrite He.
Qed.

(** The linkage half of a record emits linkage events only and leaves the
    subscribed set as it is. *)
Lemma discordChanges_keeps_subscribed (X : gset entity_id) member previousDiscordId :
  triple (λ s, subscribedMembers s = X) (discordChanges member previousDiscordId)
    (λ s, subscribedMembers s = X) (λ e, is_kind subscribed e = false).
Proof.
  apply triple_discordChanges. intros k d Hk now s Hs _ _. split.
  - by rewrite subscribedMembers_track_linkage.
  - by destruct k.
Qed.

(** A record of an entity that has no status yet, on a tick that is not the
    first, with the entity not in the subscribed set: the status half is
    the [subscribed] emission. *)
Lemma statusHalf_subscribes member w :
  JSMap.get (id member) (lastMemberships (self w)) = None →
  isFirstRun (self w) = false →
  id member ∉ subscribedMembers (self w) →
  statusHalf member w = emitAndTrack subscribed member true (indexed member w).
Proof.
  intros Hget Hfirst Hsub.
  destruct (self_indexed_fields member w) as (_ & _ & Hf & Hs & _).
  unfold statusHalf, statusChanges. rewrite Hget.
  change (negb (truthy_opt None)) with true. cbv iota.
  rewrite this_bind_run. unfold hasProcessedEvent. rewrite Hf, Hfirst, Hs.
  rewrite bool_decide_eq_false_2 by done.
  by change (when (negb false && negb false)) with (when true).
Qed.

(** Such a record gives one [subscribed] event, and the entity enters the
    set. *)
Lemma processMember_subscribes member w :
  JSMap.get (id member) (lastMemberships (self w)) = None →
  isFirstRun (self w) = false →
  id member ∉ subscribedMembers (self w) →
  count_events (is_kind_of subscribed (id member)) (emitted (processMember member w)) = 1
  ∧ id member ∈ subscribedMembers (self (after (processMember member w))).
Proof.
  intros Hget Hfirst Hsub.
  pose proof (statusHalf_subscribes member w Hget Hfirst Hsub) as Hstatus.
  rewrite emitAndTrack_run in Hstatus.
  pose proof (discordChanges_keeps_subscribed
    (subscribedMembers (self (after (statusHalf member w)))) member
    (lastDiscordIds (self w) !! id member) (after (statusHalf member w)) eq_refl) as [Hkeep Hev].
  fold (discordHalf member w) in Hkeep, Hev.
  rewrite emitted_processMember, self_after_processMember, count_events_app.
  rewrite (count_events_other_kind subscribed subscribed _ _ Hev eq_refl).
  simpl. rewrite Hkeep, Hstatus. simpl. split.
  - unfold count_events. simpl. by rewrite !bool_decide_eq_true_2.
  - apply elem_of_union_l. by apply elem_of_singleton.
Qed.

(** A batch around the one record of an entity. *)
Lemma batch_split (memberships : list MembershipData) (i : entity_id) :
  NoDup (id <$> memberships) → i ∈ id <$> memberships →
  ∃ before member rest,
    memberships = before ++ member :: rest ∧ id member = i
    ∧ (i ∉ id <$> before) ∧ (i ∉ id <$> rest).
Proof.
  intros Hnd Hi. apply list_elem_of_fmap in Hi as (member & -> & Hm).
  apply list_elem_of_split in Hm as (before & rest & ->).
  exists before, member, rest. rewrite fmap_app, fmap_cons in Hnd.
  apply NoDup_app in Hnd as (_ & Hb & Hr). apply NoDup_cons in Hr as [Hr _].
  repeat split; [|done]. intros Hin. eapply Hb; [exact Hin | left].
Qed.

(** The removed-member loop of a batch leaves an entity of the batch
    alone. *)
Lemma frame_swept j v b memberships keys :
  j ∈ id <$> memberships →
  triple (framed j v b)
    (forEach keys (removeMember (list_to_set (id <$> memberships))))
    (framed j v b) (not_about j).
Proof.
  intros Hj. apply triple_forEach. intros i _. apply frame_removeMember.
  intros Hi <-. apply Hi. by apply elem_of_list_to_set.
Qed.

(** C4, amended.  An entity that has no status in the object and is not in
    the subscribed set, on a tick that is not the first, with a batch of
    pairwise distinct ids that holds the entity: the tick emits exactly one
    [subscribed] event about it and leaves it in the subscribed set. *)
Theorem new_member_subscribed_once (s : PatreonEvents)
    (memberships : list MembershipData) (clk : nat → Z) (i : entity_id) :
  JSMap.get i (lastMemberships s) = None →
  isFirstRun s = false →
  i ∉ subscribedMembers s →
  NoDup (id <$> memberships) →
  i ∈ id <$> memberships →
  count_events (is_kind_of subscribed i) (emitted (run (reconcile memberships) s clk)) = 1
  ∧ i ∈ subscribedMembers (state_after (run (reconcile memberships) s clk)).
Proof.
  intros Hget Hfirst Hsub Hnd Hi.
  destruct (batch_split _ _ Hnd Hi) as (before & member & rest & Hsplit & <- & Hb & Hr).
  unfold run, state_after. set (w := mkWorld s clk 0).
  (* the records before *)
  destruct (frame_forEach_processMember (id member) (view (id member) s) false before Hb
              (cleared w) (conj eq_refl Hfirst)) as [[Hv1 Hf1] He1].
  set (w1 := after (forEach before processMember (cleared w))) in *.
  (* the record itself *)
  assert (Hget1 : JSMap.get (id member) (lastMemberships (self w1)) = None).
  { change (seen_status (view (id member) (self w1)) = None). by rewrite Hv1. }
  assert (Hsub1 : id member ∉ subscribedMembers (self w1)).
  { intros Hin. apply Hsub.
    assert (Hb1 : seen_subscribed (view (id member) (self w1)) = true)
      by (by apply bool_decide_eq_true_2).
    rewrite Hv1 in Hb1. by apply bool_decide_eq_true_1 in Hb1. }
  destruct (processMember_subscribes member w1 Hget1 Hf1 Hsub1) as [Hcount Hin].
  set (w2 := after (processMember member w1)) in *.
  (* the records after *)
  destruct (frame_forEach_processMember (id member) (view (id member) (self w2))
              (isFirstRun (self w2)) rest Hr w2 (conj eq_refl eq_refl)) as [[Hv3 _] He3].
  assert (Hdiffed : diffed memberships w = after (forEach rest processMember w2)).
  { unfold diffed. rewrite Hsplit, after_forEach_app. fold w1.
    by rewrite forEach_cons, after_bind. }
  (* the removed-member loop *)
  destruct (frame_swept (id member) (view (id member) (self w2))
              (isFirstRun (self (diffed memberships w))) memberships
              (JSMap.keys (lastMemberships (self (diffed memberships w)))) Hi
              (diffed memberships w)) as [[Hv4 _] He4].
  { split; [|done]. by rewrite Hdiffed. }
  fold (swept memberships w) in Hv4, He4.
  split.
  - rewrite emitted_reconcile, Hsplit, emitted_forEach_app. fold w1.
    rewrite forEach_cons, emitted_bind. fold w2.
    rewrite !count_events_app, Hcount.
    rewrite (count_events_not_about _ _ _ He1), (count_events_not_about _ _ _ He3).
    rewrite <- Hsplit. by rewrite (count_events_not_about _ _ _ He4).
  - rewrite self_after_reconcile. simpl.
    assert (Hb4 : seen_subscribed (view (id member) (self (after (swept memberships w)))) = true).
    { rewrite Hv4. by apply bool_decide_eq_true_2. }
    by apply bool_decide_eq_true_1 in Hb4.
Qed.

(** C4 as stated fails: A has no status in the object, the tick is not the
    first and A is in the batch, yet no [subscribed] event is emitted,
    because A is still in the subscribed set. *)
Lemma returning_member_not_subscribed :
  JSMap.get (Some "A") (lastMemberships Returning.returning) = None
  ∧ isFirstRun Returning.returning = false
  ∧ Some "A" ∈ (id <$> Returning.batch)
  ∧ count_events (is_kind_of subscribed (Some "A"))
      (emitted (run (reconcile Returning.batch) Returning.returning Sample.clk)) = 0.
Proof.
  split; [by vm_compute|]. split; [by vm_compute|]. split; [by left|]. by vm_compute.
Qed.

Lemma new_member_subscribed_once_witness :
  JSMap.get (Some "A") (lastMemberships (set_isFirstRun false new_PatreonEvents)) = None
  ∧ isFirstRun (set_isFirstRun false new_PatreonEvents) = false
  ∧ (Some "A" ∉ subscribedMembers (set_isFirstRun false new_PatreonEvents))
  ∧ NoDup (id <$> Returning.batch)
  ∧ Some "A" ∈ (id <$> Returning.batch)
  ∧ count_events (is_kind_of subscribed (Some "A"))
      (emitted (run (reconcile Returning.batch) (set_isFirstRun false new_PatreonEvents)
                  Sample.clk)) = 1
  ∧ Some "A" ∈ subscribedMembers
      (state_after (run (reconcile Returning.batch) (set_isFirstRun false new_PatreonEvents)
                      Sample.clk)).
Proof.
  assert (H1 : JSMap.get (Some "A")
                 (lastMemberships (set_isFirstRun false new_PatreonEvents)) = None)
    by reflexivity.
  assert (H2 : isFirstRun (set_isFirstRun false new_PatreonEvents) = false) by reflexivity.
  assert (H3 : Some "A" ∉ subscribedMembers (set_isFirstRun false new_PatreonEvents))
    by compute_done.
  assert (H4 : NoDup (id <$> Returning.batch))
    by compute_done.
  assert (H5 : Some "A" ∈ (id <$> Returning.batch))
    by compute_done.
  repeat (split; [assumption|]).
  exact (new_member_subscribed_once _ _ Sample.clk _ H1 H2 H3 H4 H5).
Defined.

(** * Removed members *)

Lemma emitOnce_run event member w :
  emitOnce event member w
  = if hasProcessedEvent event member (self w) then mkOut tt w []
    else emitAndTrack event member true w.
Proof.
  unfold emitOnce. rewrite this_bind_run.
  by destruct (hasProcessedEvent event member (self w)).
Qed.

Lemma keys_distinct_forEach_processMember memberships :
  triple keys_distinct (forEach memberships processMember) keys_distinct (λ _, True).
Proof.
  apply triple_forEach. intros member _. apply triple_processMember.
  - intros k _ now s Hs _ _. split; [|done]. unfold keys_distinct.
    by rewrite lastMemberships_track.
  - intros k d _ now s Hs _ _. split; [|done]. unfold keys_distinct.
    by rewrite lastMemberships_track.
  - by intros f s Hs.
  - intros s Hs. by apply NoDup_keys_set.
  - by intros s Hs.
Qed.

(** The removed-member loop keeps them distinct too: distinct keys are an
    invariant of the tick. *)
Lemma keys_distinct_reconcile memberships :
  triple keys_distinct (reconcile memberships) keys_distinct (λ _, True).
Proof.
  assert (Htracks : ∀ k x, tracks keys_distinct (λ _, True) k x).
  { intros k x now s Hs _ _. split; [|done]. unfold keys_distinct.
    by rewrite lastMemberships_track. }
  apply triple_reconcile; try done.
  - intros member _. apply triple_processMember; try done.
    intros s Hs. by apply NoDup_keys_set.
  - intros i. apply triple_removeMember; try done.
    intros _ s Hs. by apply NoDup_keys_delete.
Qed.

(** The loop body on an entity that left while linked to [d]. *)
Lemma removeMember_linked currentMembers i st d w :
  i ∉ currentMembers →
  JSMap.get i (lastMemberships (self w)) = Some st →
  lastDiscordIds (self w) !! i = Some (Some d) →
  truthy d = true →
  emitted (removeMember currentMembers i w)
  = (if decide (disconnectedDiscords (self w) !! i = Some d) then []
     else [MemberEvent disconnected (bare_member i (or_else (Some st) "none") (Some d))])
  ∧ JSMap.get i (lastMemberships (self (after (removeMember currentMembers i w)))) = None
  ∧ lastDiscordIds (self (after (removeMember currentMembers i w))) !! i = None.
Proof.
  intros Hi Hget Hl Hd. unfold removeMember.
  rewrite bool_decide_eq_false_2 by done. change (when (negb false)) with (when true).
  unfold when at 1. rewrite this_bind_run, Hget, Hl, Hd. unfold when.
  rewrite emitted_bind, !after_bind, emitOnce_run. simpl hasProcessedEvent.
  destruct (decide (disconnectedDiscords (self w) !! i = Some d)) as [Hrec|Hrec].
  - rewrite Hrec, bool_decide_eq_true_2 by done. simpl.
    by rewrite get_delete_eq, lookup_delete_eq.
  - assert (Hp : match disconnectedDiscords (self w) !! i with
                 | Some d0 => bool_decide (Some d0 = Some d)
                 | None => false
                 end = false).
    { destruct (disconnectedDiscords (self w) !! i) as [d0|]; [|done].
      apply bool_decide_eq_false_2. congruence. }
    rewrite Hp, emitAndTrack_run. simpl.
    by rewrite get_delete_eq, lookup_delete_eq.
Qed.

Lemma keys_split (m : JSMap.t entity_id string) (i : entity_id) (st : string) :
  NoDup (JSMap.keys m) → JSMap.get i m = Some st →
  ∃ before rest, JSMap.keys m = before ++ i :: rest ∧ (i ∉ before) ∧ (i ∉ rest).
Proof.
  intros Hnd Hget. apply get_Some_keys in Hget.
  apply list_elem_of_split in Hget as (before & rest & Heq).
  exists before, rest. rewrite Heq in Hnd.
  apply NoDup_app in Hnd as (_ & Hb & Hr). apply NoDup_cons in Hr as [Hr _].
  repeat split; [done| |done]. intros Hin. eapply Hb; [exact Hin | left].
Qed.

(** The removed-member loop over keys other than [j]. *)
Lemma frame_sweep_others j v b currentMembers keys :
  j ∉ keys →
  triple (framed j v b) (forEach keys (removeMember currentMembers))
    (framed j v b) (not_about j).
Proof.
  intros Hj. apply triple_forEach. intros i Hi. apply frame_removeMember.
  intros _ ->. by apply Hj.
Qed.

(** C7.  An entity that has a status in the object and a last-known
    Discord id [d] (not null, not empty), and that is absent from the
    batch: the tick emits exactly one [disconnected] event about it, which
    carries [d] (none when the disconnection of [d] is already recorded for
    the entity), and the entity is deleted from [lastMemberships] and from
    [lastDiscordIds]. *)
Theorem removed_member_disconnected (s : PatreonEvents)
    (memberships : list MembershipData) (clk : nat → Z)
    (i : entity_id) (st d : string) :
  NoDup (JSMap.keys (lastMemberships s)) →
  JSMap.get i (lastMemberships s) = Some st →
  lastDiscordIds s !! i = Some (Some d) →
  truthy d = true →
  i ∉ id <$> memberships →
  List.filter (is_kind_of disconnected i) (emitted (run (reconcile memberships) s clk))
  = (if decide (disconnectedDiscords s !! i = Some d) then []
     else [MemberEvent disconnected (bare_member i (or_else (Some st) "none") (Some d))])
  ∧ JSMap.get i (lastMemberships (state_after (run (reconcile memberships) s clk))) = None
  ∧ lastDiscordIds (state_after (run (reconcile memberships) s clk)) !! i = None.
Proof.
  intros Hnd Hget Hl Hd Hi. unfold run, state_after. set (w := mkWorld s clk 0).
  (* the batch *)
  destruct (frame_forEach_processMember i (view i s) (isFirstRun s) memberships Hi
              (cleared w) (conj eq_refl eq_refl)) as [[Hv1 _] He1].
  destruct (keys_distinct_forEach_processMember memberships (cleared w) Hnd) as [Hnd1 _].
  fold (diffed memberships w) in Hv1, Hnd1.
  assert (Hget1 : JSMap.get i (lastMemberships (self (diffed memberships w))) = Some st).
  { change (seen_status (view i (self (diffed memberships w))) = Some st). by rewrite Hv1. }
  destruct (keys_split _ _ _ Hnd1 Hget1) as (before & rest & Hkeys & Hb & Hr).
  (* the keys before [i] *)
  set (cur := list_to_set (id <$> memberships) : gset entity_id).
  destruct (frame_sweep_others i (view i s) (isFirstRun (self (diffed memberships w)))
              cur before Hb (diffed memberships w) (conj Hv1 eq_refl)) as [[Hv2 _] He2].
  set (w2 := after (forEach before (removeMember cur) (diffed memberships w))) in *.
  (* the key [i] *)
  assert (Hcur : i ∉ cur) by (unfold cur; by rewrite elem_of_list_to_set).
  destruct (removeMember_linked cur i st d w2 Hcur) as (He3 & Hg3 & Hl3).
  { change (seen_status (view i (self w2)) = Some st). by rewrite Hv2. }
  { change (seen_discordId (view i (self w2)) = Some (Some d)). by rewrite Hv2. }
  { done. }
  assert (Hrec : disconnectedDiscords (self w2) !! i = disconnectedDiscords s !! i).
  { change (seen_disconnected (view i (self w2)) = seen_disconnected (view i s)).
    by rewrite Hv2. }
  rewrite Hrec in He3.
  set (w3 := after (removeMember cur i w2)) in *.
  (* the keys after [i] *)
  destruct (frame_sweep_others i (view i (self w3)) (isFirstRun (self w3))
              cur rest Hr w3 (conj eq_refl eq_refl)) as [[Hv4 _] He4].
  assert (Hswept : swept memberships w
                   = forEach (before ++ i :: rest) (removeMember cur) (diffed memberships w)).
  { unfold swept. by rewrite Hkeys. }
  assert (Hafter : after (swept memberships w) = after (forEach rest (removeMember cur) w3)).
  { rewrite Hswept, after_forEach_app. fold w2. by rewrite forEach_cons, after_bind. }
  split; [|split].
  - rewrite emitted_reconcile, Hswept, emitted_forEach_app. fold w2.
    rewrite forEach_cons, emitted_bind. fold w3.
    rewrite !List.filter_app, He3.
    rewrite (filter_not_about _ _ _ He1), (filter_not_about _ _ _ He2),
      (filter_not_about _ _ _ He4), app_nil_r. simpl.
    destruct (decide (disconnectedDiscords s !! i = Some d)); [done|].
    simpl. by rewrite bool_decide_eq_true_2.
  - rewrite self_after_reconcile, Hafter. simpl.
    change (seen_status (view i (self (after (forEach rest (removeMember cur) w3)))) = None).
    by rewrite Hv4.
  - rewrite self_after_reconcile, Hafter. simpl.
    change (seen_discordId (view i (self (after (forEach rest (removeMember cur) w3)))) = None).
    by rewrite Hv4.
Qed.

Lemma removed_member_disconnected_witness :
  NoDup (JSMap.keys (lastMemberships Sample.linked))
  ∧ JSMap.get (Some "A") (lastMemberships Sample.linked) = Some "active_patron"
  ∧ lastDiscordIds Sample.linked !! Some "A" = Some (Some "D1")
  ∧ truthy "D1" = true
  ∧ (Some "A" ∉ id <$> [Sample.member "B" "active_patron" None])
  ∧ List.filter (is_kind_of disconnected (Some "A"))
      (emitted (run (reconcile [Sample.member "B" "active_patron" None]) Sample.linked
                  Sample.clk))
    = [MemberEvent disconnected (bare_member (Some "A") "active_patron" (Some "D1"))]
  ∧ JSMap.get (Some "A")
      (lastMemberships
         (state_after (run (reconcile [Sample.member "B" "active_patron" None])
                         Sample.linked Sample.clk))) = None
  ∧ lastDiscordIds
      (state_after (run (reconcile [Sample.member "B" "active_patron" None])
                      Sample.linked Sample.clk)) !! Some "A" = None.
Proof.
  assert (H1 : NoDup (JSMap.keys (lastMemberships Sample.linked))) by compute_done.
  assert (H2 : JSMap.get (Some "A") (lastMemberships Sample.linked) = Some "active_patron")
    by reflexivity.
  assert (H3 : lastDiscordIds Sample.linked !! Some "A" = Some (Some "D1")) by reflexivity.
  assert (H4 : truthy "D1" = true) by reflexivity.
  assert (H5 : Some "A" ∉ id <$> [Sample.member "B" "active_patron" None]) by compute_done.
  repeat (split; [assumption|]).
  exact (removed_member_disconnected Sample.linked [Sample.member "B" "active_patron" None]
           Sample.clk (Some "A") "active_patron" "D1" H1 H2 H3 H4 H5).
Defined.

(** The status map after the loop. *)
Lemma lastMemberships_after_removeMember currentMembers i w :
  lastMemberships (self (after (removeMember currentMembers i w)))
  = sweep_key currentMembers (lastMemberships (self w)) i.
Proof.
  unfold removeMember, sweep_key. destruct (bool_decide (i ∈ currentMembers)); [done|].
  change (when (negb false)) with (when true). unfold when at 1.
  rewrite this_bind_run, !after_bind. simpl. f_equal.
  assert (Hkept : ∀ m : Eff unit,
            triple (λ s, lastMemberships s = lastMemberships (self w)) m
              (λ s, lastMemberships s = lastMemberships (self w)) (λ _, True) →
            lastMemberships (self (after (m w))) = lastMemberships (self w)).
  { intros m Hm. by apply Hm. }
  apply Hkept.
  destruct (lastDiscordIds (self w) !! i) as [[d|]|]; try by apply triple_ret.
  apply triple_when; [intros _|done]. apply triple_emitOnce; [done|].
  intros now s Hs _ _. split; [|done]. by rewrite lastMemberships_track.
Qed.

Lemma lastMemberships_sweep currentMembers keys w :
  lastMemberships (self (after (forEach keys (removeMember currentMembers) w)))
  = foldl (sweep_key currentMembers) (lastMemberships (self w)) keys.
Proof.
  revert w. induction keys as [|i keys IH]; intros w; [done|].
  by rewrite forEach_cons, after_bind, IH, lastMemberships_after_removeMember.
Qed.

Lemma keys_sweep_current currentMembers keys (m : JSMap.t entity_id string) k :
  k ∈ JSMap.keys (foldl (sweep_key currentMembers) m keys) →
  k ∈ JSMap.keys m ∧ (k ∈ keys → k ∈ currentMembers).
Proof.
  revert m. induction keys as [|i keys IH]; intros m Hk; simpl in Hk.
  - split; [done|]. by intros ?%elem_of_nil.
  - apply IH in Hk as [Hk Hcur]. unfold sweep_key in Hk.
    destruct (bool_decide (i ∈ currentMembers)) eqn:Hi.
    + split; [done|]. intros [->|Hin]%elem_of_cons; [|by apply Hcur].
      by apply bool_decide_eq_true_1 in Hi.
    + apply elem_of_keys_delete in Hk as [Hne Hk]. split; [done|].
      intros [->|Hin]%elem_of_cons; [done|by apply Hcur].
Qed.

(** * The order of the events of a tick *)

Lemma member_events_processMember member w :
  member_events member (emitted (processMember member w)).
Proof.
  exists (emitted (statusHalf member w)), (emitted (discordHalf member w)).
  split; [apply emitted_processMember|]. split.
  - refine (proj2 (triple_statusChanges (λ _, True) (lifecycle_event member) member _ _ _ I)).
    intros k Hk now s _ _ _. split; [done|]. by exists k.
  - refine (proj2 (triple_discordChanges (λ _, True) (linkage_event member) member _ _ _ I)).
    intros k d Hk now s _ _ _. split; [done|]. by exists k, d.
Qed.

Lemma groups_forEach_processMember memberships w :
  ∃ groups, emitted (forEach memberships processMember w) = concat groups
    ∧ Forall2 member_events memberships groups.
Proof.
  revert w. induction memberships as [|member memberships IH]; intros w.
  - by exists [].
  - destruct (IH (after (processMember member w))) as (groups & Heq & Hall).
    exists (emitted (processMember member w) :: groups).
    rewrite forEach_cons, emitted_bind, Heq. split; [done|].
    constructor; [apply member_events_processMember | done].
Qed.

Lemma removals_swept memberships w :
  Forall (removal_event memberships) (emitted (swept memberships w)).
Proof.
  refine (proj2 (triple_forEach (λ _, True) (removal_event memberships) _ _ _ _ I)).
  intros i _. apply triple_removeMember; [|done|done].
  intros Hi st d now s _ _ _. split; [done|]. exists i, st, d. split; [|done].
  by rewrite elem_of_list_to_set in Hi.
Qed.

Lemma tick_order_reconcile memberships w :
  tick_order memberships (emitted (reconcile memberships w)).
Proof.
  destruct (groups_forEach_processMember memberships (cleared w)) as (groups & Heq & Hall).
  exists groups, (emitted (swept memberships w)).
  rewrite emitted_reconcile, Heq. split; [done|]. split; [done|apply removals_swept].
Qed.

Lemma bind_ret_run (m : Eff unit) (w : World) : (m ≫= λ _, mret tt) w = m w.
Proof.
  unfold mbind, Eff_bind, mret, Eff_ret. simpl. rewrite app_nil_r.
  by destruct (m w) as [[] ? ?].
Qed.

(** A status that became [former_patron]: the status half is the
    [canceled] emission. *)
Lemma statusChanges_canceled member previousStatus w :
  truthy_opt previousStatus = true →
  previousStatus ≠ Some (status member) →
  status member = "former_patron" →
  statusChanges member previousStatus w = emitAndTrack canceled member true w.
Proof.
  intros Ht Hne Hst. unfold statusChanges. rewrite Ht. simpl negb. cbv iota.
  rewrite bool_decide_eq_true_2 by done. rewrite Hst.
  change (bool_decide ("former_patron" = "former_patron")) with true.
  change (bool_decide ("former_patron" = "declined_patron")) with false.
  change (bool_decide ("former_patron" = "active_patron")) with false.
  change (bool_decide ("former_patron" = "none")) with false.
  unfold when. simpl andb. cbv iota.
  rewrite emitAndTrack_run. unfold mbind, Eff_bind, mret, Eff_ret. simpl.
  reflexivity.
Qed.

(** A record without a Discord id for an entity that had one: the linkage
    half is the guarded [disconnected] emission with the previous id. *)
Lemma discordChanges_unlinked member previous w :
  truthy_opt (discordId member) = false →
  discordChanges member (Some (Some previous)) w
  = emitOnce disconnected (with_discordId member (Some previous)) w.
Proof. intros Ht. unfold discordChanges. by rewrite Ht. Qed.

(** The loop body on an entity of the batch does nothing. *)
Lemma removeMember_current currentMembers i w :
  i ∈ currentMembers → removeMember currentMembers i w = mkOut tt w [].
Proof. intros Hi. unfold removeMember. by rewrite bool_decide_eq_true_2. Qed.

Lemma tracks_maps_are m l (E : Event → Prop) k x :
  E (MemberEvent k x) → tracks (maps_are m l) E k x.
Proof.
  intros He now s [Hm Hl] _ _. split; [|done].
  split; [by rewrite lastMemberships_track | by rewrite lastDiscordIds_track].
Qed.

Lemma maps_after_discordHalf member w :
  maps_are (lastMemberships (self w)) (lastDiscordIds (self w))
    (self (after (discordHalf member w))).
Proof.
  destruct (self_indexed_fields member w) as (Hm & Hl & _).
  assert (H0 : maps_are (lastMemberships (self w)) (lastDiscordIds (self w))
                 (self (indexed member w))) by done.
  pose proof (proj1 (triple_statusChanges _ (λ _, True) member
    (JSMap.get (id member) (lastMemberships (self w)))
    (λ k _, tracks_maps_are _ _ _ k member I) (indexed member w) H0)) as H1.
  exact (proj1 (triple_discordChanges _ (λ _, True) member
    (lastDiscordIds (self w) !! id member)
    (λ k d _, tracks_maps_are _ _ _ k (with_discordId member d) I) _ H1)).
Qed.

Lemma lastMemberships_after_processMember member w :
  lastMemberships (self (after (processMember member w)))
  = JSMap.set (id member) (status member) (lastMemberships (self w)).
Proof.
  rewrite self_after_processMember. simpl.
  by rewrite (proj1 (maps_after_discordHalf member w)).
Qed.

Lemma lastDiscordIds_after_processMember member w :
  lastDiscordIds (self (after (processMember member w)))
  = <[id member := discordId member]> (lastDiscordIds (self w)).
Proof.
  rewrite self_after_processMember. simpl.
  by rewrite (proj2 (maps_after_discordHalf member w)).
Qed.


(** * The membership dispositions *)

Lemma tracks_subscribed_exclusive k x : tracks subscribed_exclusive (λ _, True) k x.
Proof.
  intros now s Hs _ _. split; [|done]. intros i.
  destruct k; simpl.
  - intros [->%elem_of_singleton|Hi]%elem_of_union.
    + by rewrite !lookup_delete_eq.
    + destruct (Hs i Hi) as [Hc Hd]. rewrite !lookup_delete_None. auto.
  - destruct (truthy_opt (discordId x)); apply Hs.
  - intros [Hi Hne%not_elem_of_singleton]%elem_of_difference.
    destruct (Hs i Hi) as [Hc Hd]. by rewrite lookup_insert_ne.
  - intros [Hi Hne%not_elem_of_singleton]%elem_of_difference.
    destruct (Hs i Hi) as [Hc Hd]. by rewrite lookup_insert_ne.
  - intros Hi. destruct (Hs i Hi) as [Hc Hd]. rewrite !lookup_delete_None. auto.
  - destruct (truthy_opt (discordId x)); apply Hs.
  - intros [Hi _]%elem_of_difference. by apply Hs.
Qed.

(** C2 as stated fails: after the third tick A has both a cancel record and
    a decline record. *)
Lemma canceled_and_declined_together : ¬ disposition_exclusive ThreeTicks.after_three.
Proof.
  intros H. destruct (H (Some "A")) as (_ & _ & Hboth). apply Hboth.
  split; compute_done.
Qed.

(** C2, amended.  A tick started on an object in which no entity of the
    subscribed set has a cancel record or a decline record leaves such an
    object; subscribing or reactivating deletes the entity's cancel and
    decline records, and canceling or declining deletes the entity from the
    subscribed set and deletes its reactivation record. *)
Theorem subscribed_exclusive_checkForUpdates (s : PatreonEvents) (api : ApiScript)
    (clk : nat → Z) :
  subscribed_exclusive s →
  subscribed_exclusive (state_after (run (checkForUpdates api) s clk))
  ∧ (∀ event member, event = subscribed ∨ event = reactivated →
       let s' := state_after (run (emitAndTrack event member true) s clk) in
       canceledMembers s' !! id member = None ∧ declinedMembers s' !! id member = None)
  ∧ (∀ event member, event = canceled ∨ event = declined →
       let s' := state_after (run (emitAndTrack event member true) s clk) in
       (id member ∉ subscribedMembers s') ∧ reactivatedMembers s' !! id member = None).
Proof.
  intros Hs. split; [|split].
  - apply (invariant_checkForUpdates subscribed_exclusive api); try done.
    apply tracks_subscribed_exclusive.
  - intros event member [-> | ->]; unfold state_after, run; rewrite emitAndTrack_run;
      simpl; by rewrite !lookup_delete_eq.
  - intros event member [-> | ->]; unfold state_after, run; rewrite emitAndTrack_run;
      simpl; rewrite lookup_delete_eq; (split; [|done]);
      rewrite elem_of_difference, elem_of_singleton; tauto.
Qed.

Lemma subscribed_exclusive_checkForUpdates_witness :
  subscribed_exclusive Sample.linked
  ∧ subscribed_exclusive
      (state_after (run (checkForUpdates Sample.left_api) Sample.linked Sample.clk))
  ∧ (∀ event member, event = subscribed ∨ event = reactivated →
       let s' := state_after (run (emitAndTrack event member true) Sample.linked
                                Sample.clk) in
       canceledMembers s' !! id member = None ∧ declinedMembers s' !! id member = None)
  ∧ (∀ event member, event = canceled ∨ event = declined →
       let s' := state_after (run (emitAndTrack event member true) Sample.linked
                                Sample.clk) in
       (id member ∉ subscribedMembers s') ∧ reactivatedMembers s' !! id member = None).
Proof.
  assert (H : subscribed_exclusive Sample.linked) by (intros i _; split; reflexivity).
  split; [exact H|].
  exact (subscribed_exclusive_checkForUpdates Sample.linked Sample.left_api Sample.clk H).
Defined.

(** * A fetch that fails *)

Lemma fetchMemberships_Rejects message w :
  fetchMemberships (Rejects message) w = mkOut [] w [ErrorEvent message].
Proof. reflexivity. Qed.

Lemma fetchMemberships_Malformed w : fetchMemberships Malformed w = mkOut [] w [].
Proof. reflexivity. Qed.

(** Whatever the object held, a tick whose fetch fails leaves no status:
    every entity is treated as removed. *)
Lemma fetch_failure_empties_status (s : PatreonEvents) (message : string) (clk : nat → Z) :
  lastMemberships (state_after (run (checkForUpdates (Rejects message)) s clk)) = []
  ∧ isFirstRun (state_after (run (checkForUpdates (Rejects message)) s clk)) = false.
Proof.
  unfold state_after, run. set (w := mkWorld s clk 0).
  change (after (checkForUpdates (Rejects message) w)) with (after (reconcile [] w)).
  rewrite self_after_reconcile. split; [|done]. simpl.
  unfold swept. rewrite lastMemberships_sweep.
  destruct (foldl _ _ _) as [|[k st] m] eqn:Hm; [done|].
  assert (Hk : k ∈ JSMap.keys (foldl (sweep_key (list_to_set (id <$> [])))
                 (lastMemberships (self (diffed [] w)))
                 (JSMap.keys (lastMemberships (self (diffed [] w))))))
    by (rewrite Hm; left).
  apply keys_sweep_current in Hk as [Hk Hcur]. by apply Hcur, not_elem_of_empty in Hk.
Qed.

(** C1 fails on the code.  The object holds A, active and linked to D1.
    The request is rejected: the tick does not stop at the error report, it
    goes on with an empty batch, emits [disconnected] for A, deletes A's
    status and linkage and replaces A's connect record by a disconnect
    record.  An answer without a [data] array does the same without an
    error report. *)
Theorem fetch_failure_discards_state :
  emitted FailedFetch.failed
  = [ErrorEvent "ECONNRESET";
     MemberEvent disconnected (bare_member (Some "A") "active_patron" (Some "D1"))]
  ∧ lastMemberships (state_after FailedFetch.failed) = []
  ∧ lastDiscordIds (state_after FailedFetch.failed) = ∅
  ∧ connectedDiscords (state_after FailedFetch.failed) = ∅
  ∧ disconnectedDiscords (state_after FailedFetch.failed) = {[Some "A" := "D1"]}
  ∧ state_after FailedFetch.failed ≠ Sample.linked
  ∧ emitted FailedFetch.malformed
    = [MemberEvent disconnected (bare_member (Some "A") "active_patron" (Some "D1"))]
  ∧ state_after FailedFetch.malformed = state_after FailedFetch.failed.
Proof.
  split; [by vm_compute|]. split; [by vm_compute|]. split; [by vm_compute|].
  split; [by vm_compute|]. split; [by vm_compute|]. split; [by vm_compute|].
  split; by vm_compute.
Qed.

(** * Records are not validated *)

Lemma is_Some_get_set {V : Type} (j i : entity_id) (v : V) (m : JSMap.t entity_id V) :
  is_Some (JSMap.get j m) → is_Some (JSMap.get j (JSMap.set i v m)).
Proof.
  intros H. destruct (decide (i = j)) as [->|Hne].
  - rewrite get_set_eq. by eexists.
  - by rewrite get_set_ne.
Qed.

Lemma entered_processMember j member :
  triple (entered j) (processMember member) (entered j) (λ _, True).
Proof.
  apply triple_processMember.
  - intros k _ now s [Hm Hl] _ _. split; [|done].
    split; [by rewrite lastMemberships_track | by rewrite lastDiscordIds_track].
  - intros k d _ now s [Hm Hl] _ _. split; [|done].
    split; [by rewrite lastMemberships_track | by rewrite lastDiscordIds_track].
  - by intros f s Hs.
  - intros s [Hm Hl]. split; [by apply is_Some_get_set | done].
  - intros s [Hm Hl]. split; [done|]. simpl.
    destruct (decide (id member = j)) as [->|Hne].
    + rewrite lookup_insert_eq. by eexists.
    + by rewrite lookup_insert_ne.
Qed.

Lemma entered_after_processMember member w :
  entered (id member) (self (after (processMember member w))).
Proof.
  split.
  - rewrite lastMemberships_after_processMember, get_set_eq. by eexists.
  - rewrite lastDiscordIds_after_processMember, lookup_insert_eq. by eexists.
Qed.

Lemma entered_swept j memberships keys :
  j ∈ id <$> memberships →
  triple (entered j) (forEach keys (removeMember (list_to_set (id <$> memberships))))
    (entered j) (λ _, True).
Proof.
  intros Hj. apply triple_forEach. intros i _. apply triple_removeMember.
  - intros Hi st d now s [Hm Hl] _ _. split; [|done].
    split; [by rewrite lastMemberships_track | by rewrite lastDiscordIds_track].
  - intros Hi s [Hm Hl]. split; [|done]. simpl. rewrite get_delete_ne; [done|].
    intros ->. apply Hi. by apply elem_of_list_to_set.
  - intros Hi s [Hm Hl]. split; [done|]. simpl. rewrite lookup_delete_ne; [done|].
    intros ->. apply Hi. by apply elem_of_list_to_set.
Qed.

(** The first record of an entity in a batch. *)
Lemma batch_first (memberships : list MembershipData) (i : entity_id) :
  i ∈ id <$> memberships →
  ∃ before member rest,
    memberships = before ++ member :: rest ∧ id member = i ∧ (i ∉ id <$> before).
Proof.
  induction memberships as [|m memberships IH]; simpl.
  - by intros ?%elem_of_nil.
  - destruct (decide (id m = i)) as [Heq|Hne].
    + intros _. exists [], m, memberships. repeat split; [done|]. apply not_elem_of_nil.
    + intros [?|Hi]%elem_of_cons; [congruence|].
      destruct (IH Hi) as (before & member & rest & -> & Hid & Hb).
      exists (m :: before), member, rest. repeat split; [done|].
      rewrite fmap_cons. apply not_elem_of_cons. split; [congruence | done].
Qed.

Lemma member_events_only memberships w :
  Forall member_event (emitted (reconcile memberships w)).
Proof.
  refine (proj2 (triple_reconcile (λ _, True) (λ _, True) member_event memberships
                   _ _ _ _ w I)); try done.
  - intros member _. apply triple_processMember; try done.
    + intros k _ now s _ _ _. split; [done|]. by eexists _, _.
    + intros k d _ now s _ _ _. split; [done|]. by eexists _, _.
  - intros i. apply triple_removeMember; try done.
    intros _ st d now s _ _ _. split; [done|]. by eexists _, _.
Qed.

(** C8 as stated fails: the record without an id is not skipped.  It is
    announced as a new subscriber and entered, under the key [undefined],
    in the status map, in the linkage map and in the subscribed set. *)
Lemma record_without_id_not_skipped :
  let r := run (checkForUpdates NoId.api) NoId.started Sample.clk in
  emitted r = [MemberEvent subscribed NoId.record]
  ∧ lastMemberships (state_after r) = [(None, "active_patron")]
  ∧ lastDiscordIds (state_after r) !! None = Some None
  ∧ None ∈ subscribedMembers (state_after r).
Proof. repeat split; compute_done. Qed.

(** C8, amended.  The reconciliation has no per-record validation: a
    record of the batch whose id is missing is processed under the key
    [undefined] like any record under its id.  After the tick the status
    map and the linkage map have an entry for it; if the tick is not the
    first and the object had neither a status nor a subscribed-set entry for
    the key, a [subscribed] event about it is emitted.  Processing it
    leaves what is recorded about the other entities as it is and emits
    nothing about them.  The engine raises no error: it emits member events
    only. *)
Theorem record_without_id_processed (s : PatreonEvents)
    (memberships : list MembershipData) (clk : nat → Z) (member : MembershipData) :
  member ∈ memberships →
  id member = None →
  entered None (state_after (run (reconcile memberships) s clk))
  ∧ (isFirstRun s = false → JSMap.get None (lastMemberships s) = None →
     None ∉ subscribedMembers s →
     ∃ e, e ∈ emitted (run (reconcile memberships) s clk)
          ∧ is_kind_of subscribed None e = true)
  ∧ (∀ j w, j ≠ None →
       view j (self (after (processMember member w))) = view j (self w)
       ∧ Forall (not_about j) (emitted (processMember member w)))
  ∧ Forall member_event (emitted (run (reconcile memberships) s clk)).
Proof.
  intros Hin Hid. unfold run, state_after. set (w := mkWorld s clk 0).
  assert (Hids : None ∈ id <$> memberships).
  { rewrite <- Hid. by apply list_elem_of_fmap_2. }
  split; [|split; [|split]]; [| | |apply member_events_only].
  - apply list_elem_of_split in Hin as (before & rest & Hsplit).
    set (w1 := after (forEach before processMember (cleared w))).
    pose proof (entered_after_processMember member w1) as H2. rewrite Hid in H2.
    destruct (triple_forEach (entered None) (λ _, True) rest processMember
                (λ m _, entered_processMember None m) _ H2) as [H3 _].
    assert (Hdiffed : diffed memberships w
              = after (forEach rest processMember (after (processMember member w1)))).
    { unfold diffed. rewrite Hsplit, after_forEach_app. fold w1.
      by rewrite forEach_cons, after_bind. }
    rewrite <- Hdiffed in H3.
    destruct (entered_swept None memberships
                (JSMap.keys (lastMemberships (self (diffed memberships w)))) Hids
                (diffed memberships w) H3) as [H4 _].
    rewrite self_after_reconcile. exact H4.
  - intros Hfirst Hget Hsub.
    destruct (batch_first _ _ Hids) as (before & m0 & rest & Hsplit & Hid0 & Hb).
    destruct (frame_forEach_processMember None (view None s) false before Hb
                (cleared w) (conj eq_refl Hfirst)) as [[Hv1 Hf1] _].
    set (w1 := after (forEach before processMember (cleared w))) in *.
    assert (Hget1 : JSMap.get (id m0) (lastMemberships (self w1)) = None).
    { rewrite Hid0. change (seen_status (view None (self w1)) = None). by rewrite Hv1. }
    assert (Hsub1 : id m0 ∉ subscribedMembers (self w1)).
    { rewrite Hid0. intros Hin1. apply Hsub.
      assert (Hb1 : seen_subscribed (view None (self w1)) = true)
        by (by apply bool_decide_eq_true_2).
      rewrite Hv1 in Hb1. by apply bool_decide_eq_true_1 in Hb1. }
    pose proof (statusHalf_subscribes m0 w1 Hget1 Hf1 Hsub1) as Hstatus.
    rewrite emitAndTrack_run in Hstatus.
    exists (MemberEvent subscribed m0). split.
    + rewrite emitted_reconcile, Hsplit, emitted_forEach_app. fold w1.
      rewrite forEach_cons, emitted_bind, emitted_processMember, Hstatus. simpl.
      apply elem_of_app. left. apply elem_of_app. right. by left.
    + simpl. by rewrite Hid0, !bool_decide_eq_true_2.
  - intros j w' Hj.
    destruct (frame_processMember j (view j (self w')) (isFirstRun (self w')) member)
      with (w := w') as [[Hv _] He]; [congruence|done|done].
Qed.

Lemma record_without_id_processed_witness :
  NoId.record ∈ [NoId.record]
  ∧ id NoId.record = None
  ∧ entered None (state_after (run (reconcile [NoId.record]) NoId.started Sample.clk))
  ∧ (isFirstRun NoId.started = false →
     JSMap.get None (lastMemberships NoId.started) = None →
     None ∉ subscribedMembers NoId.started →
     ∃ e, e ∈ emitted (run (reconcile [NoId.record]) NoId.started Sample.clk)
          ∧ is_kind_of subscribed None e = true)
  ∧ (∀ j w, j ≠ None →
       view j (self (after (processMember NoId.record w))) = view j (self w)
       ∧ Forall (not_about j) (emitted (processMember NoId.record w)))
  ∧ Forall member_event (emitted (run (reconcile [NoId.record]) NoId.started Sample.clk)).
Proof.
  assert (H1 : NoId.record ∈ [NoId.record]) by compute_done.
  assert (H2 : id NoId.record = None) by reflexivity.
  repeat (split; [assumption|]).
  exact (record_without_id_processed NoId.started [NoId.record] Sample.clk NoId.record
           H1 H2).
Defined.

(** * Running the same batch again *)

(** What the tracker never breaks is kept by the two halves of a record. *)
Lemma halves_keep (P : PatreonEvents → Prop) member w :
  (∀ k x now s, P s → P (track k x now s)) →
  P (self (indexed member w)) → P (self (after (discordHalf member w))).
Proof.
  intros Hk H0.
  pose proof (proj1 (triple_statusChanges P (λ _, True) member
    (JSMap.get (id member) (lastMemberships (self w)))
    (λ k _ now s Hs _ _, conj (Hk k member now s Hs) I) (indexed member w) H0)) as H1.
  exact (proj1 (triple_discordChanges P (λ _, True) member
    (lastDiscordIds (self w) !! id member)
    (λ k d _ now s Hs _ _, conj (Hk k (with_discordId member d) now s Hs) I) _ H1)).
Qed.

Lemma discordToMemberMap_indexed member w :
  discordToMemberMap (self (indexed member w))
  = index_member (discordToMemberMap (self w)) member.
Proof.
  unfold indexed, index_member. by destruct (discordId member) as [d|]; [destruct (truthy d)|].
Qed.

Lemma discordToMemberMap_after_processMember member w :
  discordToMemberMap (self (after (processMember member w)))
  = index_member (discordToMemberMap (self w)) member.
Proof.
  rewrite self_after_processMember. simpl.
  rewrite <- discordToMemberMap_indexed.
  apply (halves_keep (λ s, discordToMemberMap s = discordToMemberMap (self (indexed member w))));
    [|done].
  intros k x now s Hs. by rewrite discordToMemberMap_track.
Qed.

Lemma discordToMemberMap_forEach_processMember memberships w :
  discordToMemberMap (self (after (forEach memberships processMember w)))
  = foldl index_member (discordToMemberMap (self w)) memberships.
Proof.
  revert w. induction memberships as [|member memberships IH]; intros w; [done|].
  by rewrite forEach_cons, after_bind, IH, discordToMemberMap_after_processMember.
Qed.

(** The removed-member loop keeps the index and the first-run flag. *)
Lemma swept_keeps (P : PatreonEvents → Prop) currentMembers keys w :
  (∀ k x now s, P s → P (track k x now s)) →
  (∀ f s, P s → P (set_lastMemberships f s)) →
  (∀ f s, P s → P (set_lastDiscordIds f s)) →
  P (self w) → P (self (after (forEach keys (removeMember currentMembers) w))).
Proof.
  intros Hk Hm Hl H0.
  refine (proj1 (triple_forEach P (λ _, True) keys _ _ w H0)).
  intros i _. apply triple_removeMember; auto.
  intros _ st d now s Hs _ _. split; [by apply Hk | done].
Qed.

Lemma settled_view s s' member :
  view (id member) s' = view (id member) s → settled s member → settled s' member.
Proof.
  intros Hv [Hm Hl]. split.
  - change (seen_status (view (id member) s') = Some (status member)). by rewrite Hv.
  - change (seen_discordId (view (id member) s') = Some (discordId member)). by rewrite Hv.
Qed.

Lemma settled_after_processMember member w :
  settled (self (after (processMember member w))) member.
Proof.
  split.
  - by rewrite lastMemberships_after_processMember, get_set_eq.
  - by rewrite lastDiscordIds_after_processMember, lookup_insert_eq.
Qed.

(** After the records of a batch of distinct ids, each of them is
    settled. *)
Lemma settled_forEach_processMember memberships w :
  NoDup (id <$> memberships) →
  Forall (settled (self (after (forEach memberships processMember w)))) memberships.
Proof.
  revert w. induction memberships as [|member memberships IH]; intros w Hnd; [done|].
  rewrite fmap_cons in Hnd. apply NoDup_cons in Hnd as [Hm Hnd].
  rewrite forEach_cons, after_bind. constructor; [|by apply IH].
  set (w1 := after (processMember member w)).
  destruct (frame_forEach_processMember (id member) (view (id member) (self w1))
              (isFirstRun (self w1)) memberships Hm w1 (conj eq_refl eq_refl)) as [[Hv _] _].
  eapply settled_view; [exact Hv|]. apply settled_after_processMember.
Qed.

Lemma settled_reconcile memberships w :
  NoDup (id <$> memberships) →
  Forall (settled (self (after (reconcile memberships w)))) memberships.
Proof.
  intros Hnd. pose proof (settled_forEach_processMember memberships (cleared w) Hnd) as H.
  fold (diffed memberships w) in H.
  rewrite Forall_forall in H |- *. intros member Hin.
  assert (Hid : id member ∈ id <$> memberships) by (by apply list_elem_of_fmap_2).
  destruct (frame_swept (id member) (view (id member) (self (diffed memberships w)))
              (isFirstRun (self (diffed memberships w))) memberships
              (JSMap.keys (lastMemberships (self (diffed memberships w)))) Hid
              (diffed memberships w) (conj eq_refl eq_refl)) as [[Hv _] _].
  fold (swept memberships w) in Hv. rewrite self_after_reconcile.
  eapply settled_view; [|by apply H]. exact Hv.
Qed.

Lemma keys_after_reconcile memberships w k :
  k ∈ JSMap.keys (lastMemberships (self (after (reconcile memberships w)))) →
  k ∈ id <$> memberships.
Proof.
  rewrite self_after_reconcile. simpl. unfold swept. rewrite lastMemberships_sweep.
  intros [Hk Hcur]%keys_sweep_current. apply Hcur in Hk.
  by apply elem_of_list_to_set in Hk.
Qed.

Lemma discordToMemberMap_after_reconcile memberships w :
  discordToMemberMap (self (after (reconcile memberships w)))
  = foldl index_member ∅ memberships.
Proof.
  rewrite self_after_reconcile. simpl. unfold swept.
  transitivity (discordToMemberMap (self (diffed memberships w))).
  - apply (swept_keeps
             (λ s, discordToMemberMap s = discordToMemberMap (self (diffed memberships w))));
      try done.
    intros k x now s Hs. by rewrite discordToMemberMap_track.
  - unfold diffed. by rewrite discordToMemberMap_forEach_processMember.
Qed.

(** Objects are equal when their fields are. *)
Lemma PatreonEvents_eq (s1 s2 : PatreonEvents) :
  lastMemberships s1 = lastMemberships s2 →
  lastDiscordIds s1 = lastDiscordIds s2 →
  intervalId s1 = intervalId s2 →
  cacheSaveIntervalId s1 = cacheSaveIntervalId s2 →
  isFirstRun s1 = isFirstRun s2 →
  subscribedMembers s1 = subscribedMembers s2 →
  canceledMembers s1 = canceledMembers s2 →
  declinedMembers s1 = declinedMembers s2 →
  reactivatedMembers s1 = reactivatedMembers s2 →
  connectedDiscords s1 = connectedDiscords s2 →
  disconnectedDiscords s1 = disconnectedDiscords s2 →
  discordToMemberMap s1 = discordToMemberMap s2 →
  s1 = s2.
Proof. destruct s1, s2. simpl. by intros -> -> -> -> -> -> -> -> -> -> -> ->. Qed.

(** A well-formed record that is settled changes nothing but the index and
    emits nothing. *)
Lemma processMember_settled member w :
  well_formed member → settled (self w) member →
  emitted (processMember member w) = []
  ∧ self (after (processMember member w))
    = set_discordToMemberMap (λ acc, index_member acc member) (self w).
Proof.
  intros [Hst Hd] [Hm Hl].
  assert (Hstatus : statusHalf member w = mkOut tt (indexed member w) []).
  { unfold statusHalf, statusChanges. rewrite Hm.
    change (truthy_opt (Some (status member))) with (truthy (status member)).
    rewrite (proj2 (truthy_true _) Hst). simpl negb. cbv iota.
    by rewrite bool_decide_eq_false_2 by (by intros H). }
  assert (Hdiscord : discordHalf member w = mkOut tt (indexed member w) []).
  { unfold discordHalf. rewrite Hstatus, Hl. simpl after. unfold discordChanges.
    destruct (discordId member) as [d|] eqn:Heq.
    - assert (Ht : truthy d = true).
      { apply truthy_true. intros ->. by apply Hd. }
      change (truthy_opt (Some d)) with (truthy d). rewrite Ht. simpl negb. cbv iota.
      by rewrite bool_decide_eq_false_2 by (by intros H).
    - by rewrite this_bind_run. }
  split.
  - by rewrite emitted_processMember, Hstatus, Hdiscord.
  - rewrite self_after_processMember, Hdiscord. simpl after.
    destruct (self_indexed_fields member w) as (Hf1 & Hf2 & _).
    apply PatreonEvents_eq; simpl; rewrite ?Hf1, ?Hf2;
      try (unfold indexed; by destruct (discordId member) as [d|]; [destruct (truthy d)|]).
    + by apply set_id.
    + by apply insert_id.
    + apply discordToMemberMap_indexed.
Qed.

Lemma forEach_settled memberships w :
  Forall well_formed memberships → Forall (settled (self w)) memberships →
  emitted (forEach memberships processMember w) = []
  ∧ self (after (forEach memberships processMember w))
    = set_discordToMemberMap (λ acc, foldl index_member acc memberships) (self w).
Proof.
  revert w. induction memberships as [|member memberships IH]; intros w Hwf Hset.
  - split; [done|]. simpl. by destruct w as [[] ? ?].
  - apply Forall_cons in Hwf as [Hwf1 Hwf]. apply Forall_cons in Hset as [Hset1 Hset].
    destruct (processMember_settled member w Hwf1 Hset1) as [He Hs].
    destruct (IH (after (processMember member w)) Hwf) as [He' Hs'].
    { rewrite Hs. eapply Forall_impl; [exact Hset|]. by intros m [Hm Hl]. }
    rewrite forEach_cons, emitted_bind, after_bind, He, He', Hs', Hs. done.
Qed.

Lemma forEach_removeMember_current currentMembers keys w :
  (∀ k, k ∈ keys → k ∈ currentMembers) →
  forEach keys (removeMember currentMembers) w = mkOut tt w [].
Proof.
  induction keys as [|i keys IH]; intros Hall; [done|].
  rewrite forEach_cons. unfold mbind, Eff_bind.
  rewrite removeMember_current by (apply Hall; left). simpl.
  rewrite IH; [done|]. intros k Hk. apply Hall. by right.
Qed.

(** C3 as stated fails: with the same id twice in the batch, the second
    run on the updated object emits [reactivated] and [canceled] again. *)
Lemma duplicate_ids_not_idempotent :
  emitted (run (reconcile SameBatch.batch) SameBatch.once Sample.clk)
  = [MemberEvent reactivated (Sample.member "A" "active_patron" None);
     MemberEvent canceled (Sample.member "A" "former_patron" None)].
Proof. by vm_compute. Qed.

(** C3, amended.  For every object and every batch of well-formed records
    with pairwise distinct ids: running the reconciliation once, and then
    again on the updated object with the same batch, the second run emits
    no event and leaves the object as the first run left it. *)
Theorem reconcile_twice (s : PatreonEvents) (memberships : list MembershipData)
    (clk clk' : nat → Z) :
  NoDup (id <$> memberships) →
  Forall well_formed memberships →
  let s' := state_after (run (reconcile memberships) s clk) in
  isFirstRun s' = false
  ∧ emitted (run (reconcile memberships) s' clk') = []
  ∧ state_after (run (reconcile memberships) s' clk') = s'.
Proof.
  intros Hnd Hwf s'. unfold run, state_after in *.
  set (w := mkWorld s clk 0) in *. set (w' := mkWorld s' clk' 0).
  assert (Hfirst : isFirstRun s' = false) by done.
  assert (Hset : Forall (settled (self (cleared w'))) memberships).
  { eapply Forall_impl; [exact (settled_reconcile memberships w Hnd)|].
    by intros m [Hm Hl]. }
  destruct (forEach_settled memberships (cleared w') Hwf Hset) as [He1 Hs1].
  fold (diffed memberships w') in Hs1.
  assert (Hsweep : swept memberships w' = mkOut tt (diffed memberships w') []).
  { unfold swept. apply forEach_removeMember_current. intros k Hk.
    apply elem_of_list_to_set. rewrite Hs1 in Hk. simpl in Hk.
    by apply (keys_after_reconcile memberships w). }
  split; [done|]. split.
  - by rewrite emitted_reconcile, He1, Hsweep.
  - rewrite self_after_reconcile, Hsweep. simpl after. rewrite Hs1.
    apply PatreonEvents_eq; try done. simpl.
    symmetry. apply (discordToMemberMap_after_reconcile memberships w).
Qed.

Lemma reconcile_twice_witness :
  NoDup (id <$> SameBatch.distinct)
  ∧ Forall well_formed SameBatch.distinct
  ∧ (let s' := state_after (run (reconcile SameBatch.distinct) Sample.linked Sample.clk) in
     isFirstRun s' = false
     ∧ emitted (run (reconcile SameBatch.distinct) s' Sample.clk) = []
     ∧ state_after (run (reconcile SameBatch.distinct) s' Sample.clk) = s').
Proof.
  assert (H1 : NoDup (id <$> SameBatch.distinct)) by compute_done.
  assert (H2 : Forall well_formed SameBatch.distinct).
  { repeat constructor; simpl; discriminate. }
  repeat (split; [assumption|]).
  exact (reconcile_twice Sample.linked SameBatch.distinct Sample.clk Sample.clk H1 H2).
Defined.

(** The records that [fetchMemberships] returns are well formed. *)
Lemma well_formed_mapMember allIncluded member : well_formed (mapMember allIncluded member).
Proof.
  split; simpl.
  - apply truthy_true. by apply truthy_or_else.
  - apply or_null_not_empty.
Qed.

(** * The first run *)

(** On the first run no [subscribed] event is emitted. *)
Lemma first_run_reconcile_silent memberships w :
  isFirstRun (self w) = true →
  Forall (λ e, is_kind subscribed e = false) (emitted (reconcile memberships w)).
Proof.
  intros Hfirst. rewrite emitted_reconcile. apply Forall_app.
  assert (Htracks : ∀ k x, tracks (λ s, isFirstRun s = true)
                             (λ e, is_kind subscribed e = false) k x).
  { intros k x now s Hs _ Hk. split; [by rewrite isFirstRun_track|].
    destruct k; try done. specialize (Hk eq_refl). congruence. }
  assert (H1 : triple (λ s, isFirstRun s = true) (forEach memberships processMember)
                 (λ s, isFirstRun s = true) (λ e, is_kind subscribed e = false)).
  { apply triple_forEach. intros member _. apply triple_processMember; auto. }
  destruct (H1 (cleared w) Hfirst) as [Hf1 He1]. split; [done|].
  refine (proj2 (triple_forEach (λ s, isFirstRun s = true) _ _ _ _ _ Hf1)).
  intros i _. apply triple_removeMember; auto.
Qed.

Lemma isFirstRun_after_checkForUpdates api w :
  isFirstRun (self (after (checkForUpdates api w))) = false.
Proof. reflexivity. Qed.

(** The status half keeps what no lifecycle event breaks. *)
Lemma status_keeps (P : PatreonEvents → Prop) member w :
  (∀ k x now s, lifecycle k = true → P s → P (track k x now s)) →
  P (self (indexed member w)) → P (self (after (statusHalf member w))).
Proof.
  intros Hk H0.
  exact (proj1 (triple_statusChanges P (λ _, True) member
    (JSMap.get (id member) (lastMemberships (self w)))
    (λ k Hl now s Hs _ _, conj (Hk k member now s Hl Hs) I) (indexed member w) H0)).
Qed.

Lemma connectedDiscords_track_lifecycle k x now s :
  lifecycle k = true → connectedDiscords (track k x now s) = connectedDiscords s.
Proof. by destruct k. Qed.

(** A record with a Discord id, for an entity without a previous one and
    without a connect record of that id: [connected] is emitted with the
    record. *)
Lemma processMember_connects member d w :
  discordId member = Some d → truthy d = true →
  (lastDiscordIds (self w) !! id member = None
   ∨ lastDiscordIds (self w) !! id member = Some None) →
  connectedDiscords (self w) !! id member ≠ Some d →
  MemberEvent connected member ∈ emitted (processMember member w).
Proof.
  intros Hd Ht Hprev Hrec. rewrite emitted_processMember. apply elem_of_app. right.
  assert (Hconn : connectedDiscords (self (after (statusHalf member w)))
                  = connectedDiscords (self w)).
  { apply (status_keeps (λ s, connectedDiscords s = connectedDiscords (self w))).
    - intros k x now s Hk Hs. by rewrite connectedDiscords_track_lifecycle.
    - by destruct (self_indexed_fields member w) as (_ & _ & _ & _ & Hc & _). }
  assert (Hnot : hasProcessedEvent connected member (self (after (statusHalf member w)))
                 = false).
  { simpl. rewrite Hconn, Hd.
    destruct (connectedDiscords (self w) !! id member) as [d0|]; [|done].
    apply bool_decide_eq_false_2. congruence. }
  assert (Hrun : discordHalf member w
            = emitAndTrack connected member true (after (statusHalf member w))).
  { unfold discordHalf, discordChanges.
    destruct Hprev as [-> | ->]; rewrite this_bind_run, Hnot, Hd; simpl truthy_opt;
      by rewrite Ht. }
  rewrite Hrun, emitAndTrack_run. by left.
Qed.

(** On any tick, a record of a batch of distinct ids that has a Discord id,
    for an entity without a previous one and without a connect record of
    that id, has its [connected] event emitted. *)
Lemma reconcile_connects (s : PatreonEvents) (memberships : list MembershipData)
    (clk : nat → Z) (member : MembershipData) (d : string) :
  NoDup (id <$> memberships) → member ∈ memberships →
  discordId member = Some d → truthy d = true →
  (lastDiscordIds s !! id member = None ∨ lastDiscordIds s !! id member = Some None) →
  connectedDiscords s !! id member ≠ Some d →
  MemberEvent connected member ∈ emitted (run (reconcile memberships) s clk).
Proof.
  intros Hnd Hin Hd Ht Hprev Hrec. unfold run. set (w := mkWorld s clk 0).
  apply list_elem_of_split in Hin as (before & rest & Hsplit).
  assert (Hb : id member ∉ id <$> before).
  { rewrite Hsplit, fmap_app, fmap_cons in Hnd.
    apply NoDup_app in Hnd as (_ & Hb & _). intros Hin. eapply Hb; [exact Hin | left]. }
  destruct (frame_forEach_processMember (id member) (view (id member) s) (isFirstRun s)
              before Hb (cleared w) (conj eq_refl eq_refl)) as [[Hv1 _] _].
  set (w1 := after (forEach before processMember (cleared w))) in *.
  rewrite emitted_reconcile, Hsplit, emitted_forEach_app. fold w1.
  rewrite forEach_cons, emitted_bind.
  apply elem_of_app. left. apply elem_of_app. right. apply elem_of_app. left.
  apply (processMember_connects member d w1 Hd Ht).
  - change (seen_discordId (view (id member) (self w1)) = None
            ∨ seen_discordId (view (id member) (self w1)) = Some None).
    by rewrite Hv1.
  - change (seen_connected (view (id member) (self w1)) ≠ Some d). by rewrite Hv1.
Qed.

(** ** The other events do not depend on the first-run flag *)

Lemma others_app l1 l2 : others (l1 ++ l2) = others l1 ++ others l2.
Proof. apply List.filter_app. Qed.

Lemma within_agree : within agree.
Proof. by intros a b H. Qed.

Lemma within_pair s1 s2 : agree s1 s2 → within (λ a b, a = s1 ∧ b = s2).
Proof. by intros H a b [-> ->]. Qed.

Lemma agree_track k x n1 n2 s1 s2 :
  agree s1 s2 → agree (track k x n1 s1) (track k x n2 s2).
Proof.
  intros (Hm & Hl & Hc & Hd).
  destruct k; simpl; try (destruct (truthy_opt (discordId x)); simpl);
    repeat split; simpl; congruence.
Qed.

Lemma agree_track_left x n s1 s2 : agree s1 s2 → agree (track subscribed x n s1) s2.
Proof. by intros (Hm & Hl & Hc & Hd). Qed.

Lemma agree_track_right x n s1 s2 : agree s1 s2 → agree s1 (track subscribed x n s2).
Proof. by intros (Hm & Hl & Hc & Hd). Qed.

Lemma hasProcessedEvent_agree k x s1 s2 :
  linkage k = true → agree s1 s2 →
  hasProcessedEvent k x s1 = hasProcessedEvent k x s2.
Proof.
  intros Hk (Hm & Hl & Hc & Hd). destruct k; try done; simpl; by rewrite ?Hc, ?Hd.
Qed.

Lemma alike_weaken R R' m1 m2 :
  alike R' m1 m2 → (∀ a b, R a b → R' a b) → alike R m1 m2.
Proof. intros H HR w1 w2 Hw. apply H. by apply HR. Qed.

Lemma alike_ret R : within R → alike R (mret tt) (mret tt).
Proof. intros HR w1 w2 Hw. split; [by apply HR | done]. Qed.

Lemma alike_seq R m1 m2 k1 k2 :
  alike R m1 m2 → alike agree k1 k2 → alike R (m1 ;; k1) (m2 ;; k2).
Proof.
  intros Hm Hk w1 w2 Hw. destruct (Hm w1 w2 Hw) as [Ha He].
  destruct (Hk (after (m1 w1)) (after (m2 w2)) Ha) as [Ha' He'].
  rewrite !after_bind, !emitted_bind, !others_app. split; [done | congruence].
Qed.

Lemma alike_this R (k1 k2 : PatreonEvents → Eff unit) :
  (∀ s1 s2, R s1 s2 → alike (λ a b, a = s1 ∧ b = s2) (k1 s1) (k2 s2)) →
  alike R (this ≫= k1) (this ≫= k2).
Proof. intros H w1 w2 Hw. rewrite !this_bind_run. by apply (H _ _ Hw). Qed.

Lemma alike_update R f1 f2 :
  (∀ a b, R a b → agree (f1 a) (f2 b)) → alike R (update f1) (update f2).
Proof. intros H w1 w2 Hw. split; [by apply H | done]. Qed.

Lemma alike_when R c m1 m2 :
  within R → alike R m1 m2 → alike R (when c m1) (when c m2).
Proof. intros HR H. destruct c; [done | by apply alike_ret]. Qed.

Lemma alike_emitAndTrack R k x :
  within R → alike R (emitAndTrack k x true) (emitAndTrack k x true).
Proof.
  intros HR w1 w2 Hw. rewrite !emitAndTrack_run. simpl.
  split; [apply agree_track; by apply HR | done].
Qed.

Lemma alike_subscribed R c1 c2 x :
  within R →
  alike R (when c1 (emitAndTrack subscribed x true)) (when c2 (emitAndTrack subscribed x true)).
Proof.
  intros HR w1 w2 Hw. apply HR in Hw.
  destruct c1, c2; unfold when; rewrite ?emitAndTrack_run; simpl; (split; [|done]);
    first [ done | by apply agree_track | by apply agree_track_left
          | by apply agree_track_right ].
Qed.

Lemma alike_emitOnce k x : linkage k = true → alike agree (emitOnce k x) (emitOnce k x).
Proof.
  intros Hk. apply alike_this. intros s1 s2 Hs.
  rewrite (hasProcessedEvent_agree k x s1 s2 Hk Hs).
  apply alike_when; [by apply within_pair|]. apply alike_emitAndTrack. by apply within_pair.
Qed.

Lemma alike_forEach {A : Type} (l : list A) (body : A → Eff unit) :
  (∀ x, alike agree (body x) (body x)) → alike agree (forEach l body) (forEach l body).
Proof.
  intros H. induction l as [|x l IH]; [apply alike_ret, within_agree|].
  rewrite forEach_cons. by apply alike_seq.
Qed.

Lemma alike_statusChanges member previousStatus :
  alike agree (statusChanges member previousStatus) (statusChanges member previousStatus).
Proof.
  unfold statusChanges. destruct (negb (truthy_opt previousStatus)).
  { apply alike_this. intros s1 s2 Hs. apply alike_subscribed. by apply within_pair. }
  destruct (bool_decide (previousStatus ≠ Some (status member)));
    [|apply alike_ret, within_agree].
  repeat (apply alike_seq);
    apply alike_when; try apply alike_emitAndTrack; apply within_agree.
Qed.

Lemma alike_discordChanges member previousDiscordId :
  alike agree (discordChanges member previousDiscordId)
    (discordChanges member previousDiscordId).
Proof.
  assert (Hc : alike agree (s ← this;
      when (truthy_opt (discordId member) && negb (hasProcessedEvent connected member s))
        (emitAndTrack connected member true))
     (s ← this;
      when (truthy_opt (discordId member) && negb (hasProcessedEvent connected member s))
        (emitAndTrack connected member true))).
  { apply alike_this. intros s1 s2 Hs.
    rewrite (hasProcessedEvent_agree connected member s1 s2 eq_refl Hs).
    apply alike_when; [by apply within_pair|]. apply alike_emitAndTrack.
    by apply within_pair. }
  unfold discordChanges. destruct previousDiscordId as [[previous|]|]; [|done|done].
  destruct (negb (truthy_opt (discordId member))); [by apply alike_emitOnce|].
  destruct (bool_decide (Some previous ≠ discordId member));
    [|apply alike_ret, within_agree].
  apply alike_seq; by apply alike_emitOnce.
Qed.

Lemma alike_processMember member :
  alike agree (processMember member) (processMember member).
Proof.
  unfold processMember. apply alike_this. intros s1 s2 Hs.
  destruct Hs as (Hm & Hl & Hc & Hd). rewrite Hm, Hl.
  assert (Hw : within (λ a b, a = s1 ∧ b = s2)) by (by apply within_pair).
  apply alike_seq.
  { destruct (discordId member) as [d|]; [|by apply alike_ret].
    apply alike_when; [done|]. apply alike_update. by intros a b [-> ->]. }
  apply alike_seq; [apply alike_statusChanges|].
  apply alike_seq; [apply alike_discordChanges|].
  apply alike_seq; apply alike_update; intros a b (Ha & Hb & Hc' & Hd');
    repeat split; simpl; congruence.
Qed.

Lemma alike_removeMember currentMembers i :
  alike agree (removeMember currentMembers i) (removeMember currentMembers i).
Proof.
  unfold removeMember. apply alike_when; [apply within_agree|].
  apply alike_this. intros s1 s2 Hs.
  destruct Hs as (Hm & Hl & Hc & Hd). rewrite Hm, Hl.
  assert (Hw : within (λ a b, a = s1 ∧ b = s2)) by (by apply within_pair).
  apply alike_seq.
  { destruct (lastDiscordIds s2 !! i) as [[d|]|]; try by apply alike_ret.
    apply alike_when; [done|]. eapply alike_weaken; [by apply alike_emitOnce | done]. }
  apply alike_seq; apply alike_update; intros a b (Ha & Hb & Hc' & Hd');
    repeat split; simpl; congruence.
Qed.

Lemma alike_reconcile memberships :
  alike agree (reconcile memberships) (reconcile memberships).
Proof.
  unfold reconcile. apply alike_seq; [by apply alike_update|].
  apply alike_seq; [apply alike_forEach, alike_processMember|].
  apply alike_this. intros s1 s2 Hs. destruct Hs as (Hm & Hl & Hc & Hd). rewrite Hm.
  eapply alike_weaken; [|by apply within_pair].
  apply alike_seq; [apply alike_forEach, alike_removeMember|].
  apply alike_seq; [by apply alike_update | apply alike_ret, within_agree].
Qed.

(** * The timers *)

Lemma intervalId_track k x now s : intervalId (track k x now s) = intervalId s.
Proof. destruct k; simpl; try reflexivity; by destruct (truthy_opt (discordId x)). Qed.

Lemma cacheSaveIntervalId_track k x now s :
  cacheSaveIntervalId (track k x now s) = cacheSaveIntervalId s.
Proof. destruct k; simpl; try reflexivity; by destruct (truthy_opt (discordId x)). Qed.

(** A tick does not touch the timer handles. *)
Lemma handles_after_checkForUpdates api w :
  intervalId (self (after (checkForUpdates api w))) = intervalId (self w)
  ∧ cacheSaveIntervalId (self (after (checkForUpdates api w))) = cacheSaveIntervalId (self w).
Proof.
  refine (proj1 (invariant_checkForUpdates
    (λ s, intervalId s = intervalId (self w)
          ∧ cacheSaveIntervalId s = cacheSaveIntervalId (self w)) api _ _ _ _ _ w _));
    try done.
  intros k x now s [H1 H2] _ _. split; [|done].
  by rewrite intervalId_track, cacheSaveIntervalId_track.
Qed.

Lemma lift_saveCache l : lift saveCache l = l.
Proof. destruct l. unfold lift. simpl. by rewrite app_nil_r. Qed.

Lemma stop_disarms l : armed l ∨ disarmed l → disarmed (stop l).
Proof.
  intros [(h1 & h2 & Hne & Hi & Hc & Ht) | (Hi & Hc & Ht)]; unfold stop.
  - rewrite Hi. simpl. rewrite Hc. unfold disarmed. simpl.
    split; [done|]. split; [done|]. rewrite Ht.
    rewrite delete_insert_ne by done. rewrite delete_singleton_eq.
    rewrite delete_insert_eq. apply delete_empty.
  - rewrite Hi. rewrite Hc. unfold disarmed. simpl. by repeat split.
Qed.

Lemma stop_clears l : armed l ∨ timers l = ∅ → timers (stop l) = ∅.
Proof.
  intros [Ha | Ht]; [by apply stop_disarms; left|]. unfold stop.
  destruct (intervalId (self (world l))); simpl;
    destruct (cacheSaveIntervalId (self (world l))); simpl;
    by rewrite Ht, ?delete_empty.
Qed.

Lemma stop_inFlight l : inFlight (stop l) = inFlight l.
Proof.
  unfold stop. destruct (intervalId (self (world l))); simpl;
    by destruct (cacheSaveIntervalId (self (world l))).
Qed.

(** The rest of a tick touches neither the timers nor their handles nor
    the calls in flight. *)
Lemma finishTick_keeps api l l1 error :
  finishTick api l = (l1, error) →
  timers l1 = timers l ∧ nextHandle l1 = nextHandle l ∧ inFlight l1 = inFlight l
  ∧ intervalId (self (world l1)) = intervalId (self (world l))
  ∧ cacheSaveIntervalId (self (world l1)) = cacheSaveIntervalId (self (world l)).
Proof.
  destruct (handles_after_checkForUpdates api (world l)) as [Hi Hc].
  unfold finishTick.
  destruct (fetchPages api [] []) as [message| |ms incs];
    [destruct (errorListeners l)|..]; intros [= <- <-]; by repeat split.
Qed.

(** Once the tick of [initialize] is over, actions other than
    [initialize] keep the timers armed or cleared, and never bring back a
    call of [initialize]. *)
Lemma step_settled a l l' :
  a ≠ CallInitialize → step a l = Some l' →
  no_initial_call l → armed l ∨ timers l = ∅ →
  no_initial_call l' ∧ (armed l' ∨ timers l' = ∅) ∧ (timers l = ∅ → timers l' = ∅).
Proof.
  intros Ha Hstep Hcalls Hst.
  destruct a as [| |handle|call api| | |n]; [done|..]; simpl in Hstep.
  - injection Hstep as <-. split; [|split].
    + unfold no_initial_call. by rewrite stop_inFlight.
    + right. by apply stop_clears.
    + intros Ht. apply stop_clears. by right.
  - destruct (timers l !! handle) as [[|]|] eqn:Hjob; [| |done]; injection Hstep as <-.
    + split; [|split]; [|done|done]. apply Forall_app. split; [done|]. by repeat constructor.
    + by rewrite lift_saveCache.
  - destruct (inFlight l !! call) as [b|] eqn:Hcall; [|done].
    assert (b = false) as ->.
    { unfold no_initial_call in Hcalls. rewrite Forall_forall in Hcalls.
      apply Hcalls. by eapply list_elem_of_lookup_2. }
    destruct (finishTick api _) as [l1 error] eqn:Htick.
    apply finishTick_keeps in Htick as (Ht & _ & Hf & Hi & Hc). simpl in Ht, Hf, Hi, Hc.
    assert (Hgoal : no_initial_call l1 ∧ (armed l1 ∨ timers l1 = ∅)
                    ∧ (timers l = ∅ → timers l1 = ∅)).
    { split; [|split].
      - unfold no_initial_call. rewrite Hf. by apply Forall_delete.
      - destruct Hst as [(h1 & h2 & Hne & Hi' & Hc' & Ht') | Ht'].
        + left. exists h1, h2. by rewrite Hi, Hc, Ht.
        + right. by rewrite Ht.
      - intros Ht'. by rewrite Ht. }
    destruct error as [message|]; injection Hstep as <-; exact Hgoal.
  - injection Hstep as <-. by repeat split.
  - injection Hstep as <-. by repeat split.
  - injection Hstep as <-. by repeat split.
Qed.

Lemma exec_settled actions l l' :
  Forall (λ a, a ≠ CallInitialize) actions → exec actions l = Some l' →
  no_initial_call l → armed l ∨ timers l = ∅ →
  no_initial_call l' ∧ (armed l' ∨ timers l' = ∅) ∧ (timers l = ∅ → timers l' = ∅).
Proof.
  revert l. induction actions as [|a actions IH]; intros l Hall Hexec Hcalls Hst.
  - injection Hexec as <-. split; [exact Hcalls|]. split; [exact Hst|]. by intros H.
  - apply Forall_cons in Hall as [Ha Hall]. simpl in Hexec.
    destruct (step a l) as [l1|] eqn:Hstep; [|done].
    destruct (step_settled a l l1 Ha Hstep Hcalls Hst) as (Hc1 & Hs1 & Hd1).
    destruct (IH l1 Hall Hexec Hc1 Hs1) as (Hc2 & Hs2 & Hd2).
    split; [done|]. split; [done|]. intros Hd. apply Hd2. by apply Hd1.
Qed.

Lemma exec_app actions1 actions2 l l' :
  exec (actions1 ++ actions2) l = Some l' →
  ∃ l1, exec actions1 l = Some l1 ∧ exec actions2 l1 = Some l'.
Proof.
  revert l. induction actions1 as [|a actions1 IH]; intros l Hexec; simpl in *.
  - by exists l.
  - destruct (step a l) as [l1|]; [by apply IH | done].
Qed.

Lemma cleared_starts_nothing a l :
  timers l = ∅ → a ≠ CallInitialize → startsTick a l = false.
Proof.
  intros Ht Ha. destruct a as [| |handle|call api| | |n]; try done. simpl.
  by rewrite Ht, lookup_empty.
Qed.

(** When the tick of [initialize] is over on a new object, the timers are
    armed; or, when its promise was rejected, there is still none. *)
Lemma first_tick_settles s clk listeners api :
  ∃ l, exec [CallInitialize; FetchCompletes 0 api] (boot s clk listeners) = Some l
       ∧ no_initial_call l ∧ (armed l ∨ timers l = ∅).
Proof.
  cbn [exec step initialize startTick boot inFlight world timers nextHandle eventLog
       errorListeners unhandled app lookup list_lookup delete list_delete].
  destruct (finishTick api _) as [l1 error] eqn:Htick.
  apply finishTick_keeps in Htick as (Ht & Hn & Hf & _). simpl in Ht, Hn, Hf.
  destruct error as [message|]; eexists; (split; [reflexivity|]).
  - unfold initialize_catch. destruct (errorListeners l1); simpl;
      (split; [unfold no_initial_call; simpl; by rewrite Hf | by right]).
  - split; [unfold no_initial_call; simpl; by rewrite Hf|]. left.
    exists 0, 1. simpl. rewrite Ht, Hn. by repeat split.
Qed.

(** C9 as stated fails.  After [initialize] and its first tick, the timer
    fires and starts a tick; it can fire again while that tick still waits
    for its fetch, and starts a second one.  And when [stop] is called
    before the first tick has completed, the [then] callback of
    [initialize] arms the timer afterwards, and a tick starts after [stop]
    has returned. *)
Lemma ticks_overlap_and_outlive_stop :
  ¬ no_overlap Timers.idle ∧ ¬ stop_final Timers.idle.
Proof.
  split.
  - intros H.
    destruct (exec Timers.ticking Timers.idle) as [l|] eqn:Hexec;
      [|by vm_compute in Hexec].
    assert (Hstarts : startsTick (TimerFires 0) l = true).
    { vm_compute in Hexec. injection Hexec as <-. by vm_compute. }
    assert (Hflight : inFlight l = [false]).
    { vm_compute in Hexec. injection Hexec as <-. by vm_compute. }
    specialize (H Timers.ticking (TimerFires 0) l Hexec Hstarts). congruence.
  - intros H.
    destruct (exec Timers.early_stop Timers.idle) as [l|] eqn:Hexec;
      [|by vm_compute in Hexec].
    assert (Hstarts : startsTick (TimerFires 0) l = true).
    { vm_compute in Hexec. injection Hexec as <-. by vm_compute. }
    assert (Hlater : Forall (λ x, x ≠ CallInitialize) [FetchCompletes 0 Timers.api])
      by (by repeat constructor).
    assert (Ha : TimerFires 0 ≠ CallInitialize) by done.
    specialize (H [CallInitialize] [FetchCompletes 0 Timers.api] (TimerFires 0) l Hexec
                  Hlater Ha).
    congruence.
Qed.

(** C9, amended.  After [initialize] on a new object and the completion of
    its first tick, whatever happens next short of another [initialize]:
    once [stop] has returned, both interval timers are cleared and no action
    starts a tick.  (Ticks are not kept apart: the interval timer starts a
    tick whether or not an earlier one is still in flight.) *)
Theorem stop_after_first_tick (s : PatreonEvents) (clk : nat → Z) (listeners : list bool)
    (api : ApiScript) (before later : list Action) (l : Loop) :
  Forall (λ a, a ≠ CallInitialize) before →
  Forall (λ a, a ≠ CallInitialize) later →
  exec (CallInitialize :: FetchCompletes 0 api :: before ++ CallStop :: later)
    (boot s clk listeners)
  = Some l →
  timers l = ∅ ∧ ∀ a, a ≠ CallInitialize → startsTick a l = false.
Proof.
  intros Hbefore Hlater Hexec.
  destruct (first_tick_settles s clk listeners api) as (l0 & Hexec0 & Hcalls0 & Harmed0).
  change (CallInitialize :: FetchCompletes 0 api :: before ++ CallStop :: later)
    with ([CallInitialize; FetchCompletes 0 api] ++ (before ++ CallStop :: later)) in Hexec.
  apply exec_app in Hexec as (l0' & Hexec0' & Hexec).
  rewrite Hexec0 in Hexec0'. injection Hexec0' as <-.
  apply exec_app in Hexec as (l1 & Hexec1 & Hexec).
  destruct (exec_settled before l0 l1 Hbefore Hexec1 Hcalls0 Harmed0)
    as (Hcalls1 & Hst1 & _).
  change (exec later (stop l1) = Some l) in Hexec.
  destruct (exec_settled later (stop l1) l Hlater Hexec) as (_ & _ & Hd).
  - unfold no_initial_call. by rewrite stop_inFlight.
  - right. by apply stop_clears.
  - specialize (Hd (stop_clears l1 Hst1)). split; [apply Hd|].
    intros a Ha. by apply cleared_starts_nothing.
Qed.

Lemma stop_after_first_tick_witness :
  Forall (λ a, a ≠ CallInitialize) Stopped.before
  ∧ Forall (λ a, a ≠ CallInitialize) Stopped.later
  ∧ ∃ l, Stopped.stopped = Some l
         ∧ timers l = ∅ ∧ ∀ a, a ≠ CallInitialize → startsTick a l = false.
Proof.
  assert (H1 : Forall (λ a, a ≠ CallInitialize) Stopped.before)
    by (repeat constructor; discriminate).
  assert (H2 : Forall (λ a, a ≠ CallInitialize) Stopped.later)
    by (repeat constructor; discriminate).
  repeat (split; [assumption|]).
  destruct Stopped.stopped as [l|] eqn:Hexec; [|by vm_compute in Hexec].
  exists l. split; [reflexivity|].
  exact (stop_after_first_tick new_PatreonEvents Sample.clk [false] Timers.api
           Stopped.before Stopped.later l H1 H2 Hexec).
Defined.

(** * The pages of a fetch *)

Lemma fetchPages_served api allMembers allIncluded :
  fetchPages api allMembers allIncluded
  = match ending api with
    | Complete =>
        Collected (allMembers ++ served_data api) (allIncluded ++ served_included api)
    | Rejected message => Thrown message
    | NoData => Unexpected
    end.
Proof.
  revert allMembers allIncluded.
  induction api as [message| |data included|data included next IH];
    intros allMembers allIncluded; simpl; try reflexivity.
  rewrite IH. destruct (ending next); [|done|done]. by rewrite !app_assoc.
Qed.


(** X2.  Every record that [fetchMemberships] returns has a status that is
    not empty, which is the raw [patron_status] or ["none"], and a Discord
    id that is [null] or not empty. *)
Theorem fetchMemberships_well_formed (api : ApiScript) (w : World) :
  Forall (λ member,
            well_formed member
            ∧ (status member = "none" ∨ patronStatus member = Some (status member)))
    (value (fetchMemberships api w)).
Proof.
  unfold fetchMemberships. destruct (fetchPages api [] []) as [message| |ms incs];
    try by constructor.
  simpl. apply Forall_fmap, Forall_forall. intros raw _. split.
  - apply well_formed_mapMember.
  - simpl. destruct (raw_patron_status raw) as [st|]; simpl; [|by left].
    destruct (truthy st); [by right | by left].
Qed.

(** * The guarded emission *)

Lemma hasProcessedEvent_track event member now s :
  deduplicated event member →
  hasProcessedEvent event member (track event member now s) = true.
Proof.
  intros [->|[[-> | ->] Ht]]; simpl.
  - apply bool_decide_eq_true_2, elem_of_union_l. by apply elem_of_singleton.
  - rewrite Ht. simpl. rewrite lookup_insert_eq.
    apply bool_decide_eq_true_2. by destruct (discordId member).
  - rewrite Ht. simpl. rewrite lookup_insert_eq.
    apply bool_decide_eq_true_2. by destruct (discordId member).
Qed.

(** X3.  For [subscribed], and for [connected] and [disconnected] with a
    Discord id that is not empty: after the guarded emission of an event
    ([emitAndTrack] unless [hasProcessedEvent]), [hasProcessedEvent] holds
    of it, and a second guarded emission emits nothing and leaves the
    object as it is. *)
Theorem emitOnce_idempotent (event : EventKind) (member : MembershipData) (w : World) :
  deduplicated event member →
  hasProcessedEvent event member (self (after (emitOnce event member w))) = true
  ∧ emitOnce event member (after (emitOnce event member w))
    = mkOut tt (after (emitOnce event member w)) [].
Proof.
  intros Hd.
  assert (Hp : hasProcessedEvent event member (self (after (emitOnce event member w))) = true).
  { rewrite emitOnce_run.
    destruct (hasProcessedEvent event member (self w)) eqn:Hw; [done|].
    rewrite emitAndTrack_run. by apply hasProcessedEvent_track. }
  split; [done|]. by rewrite (emitOnce_run event member (after _)), Hp.
Qed.

Lemma emitOnce_idempotent_witness :
  deduplicated connected (Sample.member "A" "active_patron" (Some "D1"))
  ∧ hasProcessedEvent connected (Sample.member "A" "active_patron" (Some "D1"))
      (self (after (emitOnce connected (Sample.member "A" "active_patron" (Some "D1"))
                      (mkWorld new_PatreonEvents Sample.clk 0)))) = true
  ∧ emitOnce connected (Sample.member "A" "active_patron" (Some "D1"))
      (after (emitOnce connected (Sample.member "A" "active_patron" (Some "D1"))
                (mkWorld new_PatreonEvents Sample.clk 0)))
    = mkOut tt
        (after (emitOnce connected (Sample.member "A" "active_patron" (Some "D1"))
                  (mkWorld new_PatreonEvents Sample.clk 0))) [].
Proof.
  assert (H : deduplicated connected (Sample.member "A" "active_patron" (Some "D1"))).
  { right. split; [by left | reflexivity]. }
  split; [exact H|].
  exact (emitOnce_idempotent connected (Sample.member "A" "active_patron" (Some "D1"))
           (mkWorld new_PatreonEvents Sample.clk 0) H).
Defined.

(** * The events of one record *)

Lemma emitted_when c (body : Eff unit) w :
  emitted (when c body w) = if c then emitted (body w) else [].
Proof. by destruct c. Qed.

Lemma emitted_emitOnce event member w :
  emitted (emitOnce event member w)
  = if hasProcessedEvent event member (self w) then [] else [MemberEvent event member].
Proof.
  rewrite emitOnce_run. destruct (hasProcessedEvent event member (self w)); [done|].
  by rewrite emitAndTrack_run.
Qed.

Lemma emitted_emitAndTrack event member w :
  emitted (emitAndTrack event member true w) = [MemberEvent event member].
Proof. by rewrite emitAndTrack_run. Qed.

(** The status half emits at most one event. *)
Lemma emitted_statusChanges member previousStatus w :
  ∃ k, lifecycle k = true
    ∧ (emitted (statusChanges member previousStatus w) = []
       ∨ emitted (statusChanges member previousStatus w) = [MemberEvent k member]).
Proof.
  unfold statusChanges. destruct (negb (truthy_opt previousStatus)).
  { exists subscribed. split; [done|]. rewrite this_bind_run, emitted_when.
    destruct (_ && _); [right | by left]. by rewrite emitAndTrack_run. }
  destruct (bool_decide (previousStatus ≠ Some (status member)));
    [|exists subscribed; split; [done | by left]].
  rewrite !emitted_bind, !emitted_when, !emitted_emitAndTrack.
  destruct (decide (status member = "former_patron")) as [Hst|Hn1].
  { exists canceled. split; [done|]. right. by rewrite Hst. }
  rewrite (bool_decide_eq_false_2 _ Hn1).
  destruct (decide (status member = "declined_patron")) as [Hst|Hn2].
  { exists declined. split; [done|]. right. by rewrite Hst. }
  rewrite (bool_decide_eq_false_2 _ Hn2).
  destruct (decide (status member = "active_patron")) as [Hst|Hn3].
  { exists reactivated. split; [done|]. rewrite Hst. simpl.
    destruct (_ || _); simpl; [by right | by left]. }
  rewrite (bool_decide_eq_false_2 _ Hn3). simpl.
  exists expired. split; [done|].
  destruct (bool_decide (status member = "none")); [by right | by left].
Qed.

(** The linkage half emits a [disconnected] event with a previous id, a
    [connected] event with the record, the former before the latter, or
    nothing. *)
Lemma emitted_discordChanges member previousDiscordId w :
  ∃ p, emitted (discordChanges member previousDiscordId w)
       `sublist_of` [MemberEvent disconnected (with_discordId member p);
                     MemberEvent connected member].
Proof.
  unfold discordChanges. destruct previousDiscordId as [[previous|]|].
  - exists (Some previous). destruct (negb (truthy_opt (discordId member))).
    { rewrite emitted_emitOnce. destruct (hasProcessedEvent _ _ _).
      - apply sublist_nil_l.
      - apply sublist_skip, sublist_nil_l. }
    destruct (bool_decide (Some previous ≠ discordId member)); [|apply sublist_nil_l].
    rewrite emitted_bind, !emitted_emitOnce.
    destruct (hasProcessedEvent disconnected _ _); destruct (hasProcessedEvent connected _ _);
      simpl.
    + apply sublist_nil_l.
    + apply sublist_cons, sublist_skip, sublist_nil_l.
    + apply sublist_skip, sublist_nil_l.
    + done.
  - exists None. rewrite this_bind_run, emitted_when. destruct (_ && _).
    + rewrite emitAndTrack_run. apply sublist_cons. done.
    + apply sublist_nil_l.
  - exists None. rewrite this_bind_run, emitted_when. destruct (_ && _).
    + rewrite emitAndTrack_run. apply sublist_cons. done.
    + apply sublist_nil_l.
Qed.

Lemma emitted_processMember_sublist member w :
  ∃ k p, lifecycle k = true
    ∧ emitted (processMember member w)
      `sublist_of` [MemberEvent k member;
                    MemberEvent disconnected (with_discordId member p);
                    MemberEvent connected member].
Proof.
  destruct (emitted_statusChanges member
              (JSMap.get (id member) (lastMemberships (self w))) (indexed member w))
    as (k & Hk & Hs).
  destruct (emitted_discordChanges member (lastDiscordIds (self w) !! id member)
              (after (statusHalf member w))) as (p & Hd).
  exists k, p. split; [done|]. rewrite emitted_processMember.
  fold (statusHalf member w) in Hs. fold (discordHalf member w) in Hd.
  destruct Hs as [-> | ->]; simpl.
  - by apply sublist_cons.
  - by apply sublist_skip.
Qed.

Lemma emitted_processMember_about member w :
  Forall (λ e, event_id e = Some (id member)) (emitted (processMember member w)).
Proof.
  destruct (emitted_processMember_sublist member w) as (k & p & _ & Hsub).
  eapply Forall_forall. intros e He. eapply elem_of_sublist in He; [|exact Hsub].
  set_unfold in He. by destruct He as [-> | [-> | [-> | []]]].
Qed.

(** * The events of a record, from what is recorded about its entity *)

Lemma filter_about_not_about i l : Forall (not_about i) l → List.filter (about i) l = [].
Proof.
  induction 1 as [|e l He _ IH]; [done|]. simpl. rewrite IH.
  unfold about. by rewrite bool_decide_eq_false_2.
Qed.

Lemma filter_about_all i l :
  Forall (λ e, event_id e = Some i) l → List.filter (about i) l = l.
Proof.
  induction 1 as [|e l He _ IH]; [done|]. simpl. rewrite IH.
  unfold about. by rewrite bool_decide_eq_true_2.
Qed.

Lemma hasProcessedEvent_connected member s :
  hasProcessedEvent connected member s
  = recorded (seen_connected (view (id member) s)) (discordId member).
Proof. reflexivity. Qed.

Lemma hasProcessedEvent_disconnected member s d :
  hasProcessedEvent disconnected (with_discordId member d) s
  = recorded (seen_disconnected (view (id member) s)) d.
Proof. reflexivity. Qed.

Lemma emitted_statusHalf member w :
  emitted (statusHalf member w)
  = status_events member (isFirstRun (self w)) (view (id member) (self w)).
Proof.
  destruct (self_indexed_fields member w) as (_ & _ & Hf & Hs & _).
  unfold statusHalf, statusChanges, status_events. simpl seen_status.
  destruct (negb (truthy_opt _)).
  { rewrite this_bind_run, emitted_when. simpl hasProcessedEvent. rewrite Hf, Hs.
    simpl seen_subscribed. destruct (_ && _); [|done]. by rewrite emitted_emitAndTrack. }
  destruct (bool_decide (_ ≠ _)); [|done].
  rewrite !emitted_bind, !emitted_when, !emitted_emitAndTrack. done.
Qed.

Lemma disconnectedDiscords_track_lifecycle k x now s :
  lifecycle k = true → disconnectedDiscords (track k x now s) = disconnectedDiscords s.
Proof. by destruct k. Qed.

(** The status half leaves the linkage records as they are. *)
Lemma linkage_records_after_statusHalf member w :
  connectedDiscords (self (after (statusHalf member w))) = connectedDiscords (self w)
  ∧ disconnectedDiscords (self (after (statusHalf member w))) = disconnectedDiscords (self w).
Proof.
  apply (status_keeps (λ s, connectedDiscords s = connectedDiscords (self w)
                            ∧ disconnectedDiscords s = disconnectedDiscords (self w))).
  - intros k x now s Hk [H1 H2].
    by rewrite connectedDiscords_track_lifecycle, disconnectedDiscords_track_lifecycle.
  - by destruct (self_indexed_fields member w) as (_ & _ & _ & _ & Hc & Hd).
Qed.

Lemma emitted_discordChanges_view member previousDiscordId w :
  emitted (discordChanges member previousDiscordId w)
  = linkage_events member
      {| seen_status := None; seen_discordId := previousDiscordId;
         seen_subscribed := false; seen_canceled := None; seen_declined := None;
         seen_reactivated := None;
         seen_connected := connectedDiscords (self w) !! id member;
         seen_disconnected := disconnectedDiscords (self w) !! id member |}.
Proof.
  unfold discordChanges, linkage_events. cbn [seen_discordId seen_connected seen_disconnected].
  assert (Hc : emitted ((s ← this;
      when (truthy_opt (discordId member) && negb (hasProcessedEvent connected member s))
        (emitAndTrack connected member true)) w)
    = if truthy_opt (discordId member)
      then (if recorded (connectedDiscords (self w) !! id member) (discordId member)
            then [] else [MemberEvent connected member])
      else []).
  { rewrite this_bind_run, emitted_when, hasProcessedEvent_connected.
    cbn [view seen_connected].
    destruct (truthy_opt (discordId member)); [|done]. cbn [andb].
    destruct (recorded _ _); [done|]. cbn [negb]. by rewrite emitted_emitAndTrack. }
  destruct previousDiscordId as [[previous|]|]; [|exact Hc|exact Hc].
  destruct (negb (truthy_opt (discordId member))).
  { rewrite emitted_emitOnce, hasProcessedEvent_disconnected.
    cbn [view seen_disconnected]. by destruct (recorded _ _). }
  destruct (bool_decide (Some previous ≠ discordId member)); [|done].
  rewrite emitted_bind, !emitted_emitOnce, hasProcessedEvent_disconnected.
  rewrite emitOnce_run, hasProcessedEvent_disconnected, hasProcessedEvent_connected.
  cbn [view seen_disconnected seen_connected].
  destruct (recorded (disconnectedDiscords (self w) !! id member) (Some previous)).
  { cbn [after self app]. by destruct (recorded _ _). }
  rewrite emitAndTrack_run. cbn [after self track with_discordId discordId id truthy_opt].
  destruct (truthy previous).
  - cbn [connectedDiscords set_connectedDiscords set_disconnectedDiscords].
    by rewrite lookup_delete_eq.
  - by destruct (recorded _ _).
Qed.

Lemma emitted_discordHalf member w :
  emitted (discordHalf member w) = linkage_events member (view (id member) (self w)).
Proof.
  unfold discordHalf. rewrite emitted_discordChanges_view.
  destruct (linkage_records_after_statusHalf member w) as [-> ->].
  reflexivity.
Qed.

(** The events of a record are a function of the record, the first-run
    flag and what the object records about the entity. *)
Lemma emitted_processMember_view member w :
  emitted (processMember member w)
  = status_events member (isFirstRun (self w)) (view (id member) (self w))
    ++ linkage_events member (view (id member) (self w)).
Proof. by rewrite emitted_processMember, emitted_statusHalf, emitted_discordHalf. Qed.

Lemma status_events_same_guards member first v1 v2 :
  same_guards v1 v2 → status_events member first v1 = status_events member first v2.
Proof. intros (H1 & H2 & H3 & H4 & H5). unfold status_events. by rewrite H1, H3. Qed.

Lemma linkage_events_same_guards member v1 v2 :
  same_guards v1 v2 → linkage_events member v1 = linkage_events member v2.
Proof. intros (H1 & H2 & H3 & H4 & H5). unfold linkage_events. by rewrite H2, H4, H5. Qed.

(** * The events of a tick about one entity *)

(** In a batch of distinct ids, the events of the tick about an entity of
    the batch are those of its record, processed on an object that records
    about the entity what the object recorded when the tick started. *)
Lemma reconcile_local (s : PatreonEvents) (memberships : list MembershipData)
    (clk : nat → Z) (member : MembershipData) :
  NoDup (id <$> memberships) → member ∈ memberships →
  ∃ w1, view (id member) (self w1) = view (id member) s
    ∧ isFirstRun (self w1) = isFirstRun s
    ∧ List.filter (about (id member)) (emitted (run (reconcile memberships) s clk))
      = emitted (processMember member w1)
    ∧ view (id member) (state_after (run (reconcile memberships) s clk))
      = view (id member) (self (after (processMember member w1))).
Proof.
  intros Hnd Hin. unfold run, state_after. set (w := mkWorld s clk 0).
  assert (Hi : id member ∈ id <$> memberships) by (by apply list_elem_of_fmap_2).
  apply list_elem_of_split in Hin as (before & rest & Hsplit).
  assert (Hb : id member ∉ id <$> before).
  { rewrite Hsplit, fmap_app, fmap_cons in Hnd.
    apply NoDup_app in Hnd as (_ & Hb & _). intros Hin. eapply Hb; [exact Hin | left]. }
  assert (Hr : id member ∉ id <$> rest).
  { rewrite Hsplit, fmap_app, fmap_cons in Hnd.
    apply NoDup_app in Hnd as (_ & _ & Hr). by apply NoDup_cons in Hr as [Hr _]. }
  destruct (frame_forEach_processMember (id member) (view (id member) s) (isFirstRun s)
              before Hb (cleared w) (conj eq_refl eq_refl)) as [[Hv1 Hf1] He1].
  set (w1 := after (forEach before processMember (cleared w))) in *.
  exists w1. split; [done|]. split; [done|].
  set (w2 := after (processMember member w1)).
  destruct (frame_forEach_processMember (id member) (view (id member) (self w2))
              (isFirstRun (self w2)) rest Hr w2 (conj eq_refl eq_refl)) as [[Hv3 _] He3].
  assert (Hdiffed : diffed memberships w = after (forEach rest processMember w2)).
  { unfold diffed. rewrite Hsplit, after_forEach_app. fold w1.
    by rewrite forEach_cons, after_bind. }
  destruct (frame_swept (id member) (view (id member) (self w2))
              (isFirstRun (self (diffed memberships w))) memberships
              (JSMap.keys (lastMemberships (self (diffed memberships w)))) Hi
              (diffed memberships w)) as [[Hv4 _] He4].
  { split; [|done]. by rewrite Hdiffed. }
  fold (swept memberships w) in Hv4, He4.
  split.
  - rewrite emitted_reconcile. rewrite Hsplit at 1. rewrite emitted_forEach_app. fold w1.
    rewrite forEach_cons, emitted_bind. fold w2.
    rewrite !List.filter_app.
    rewrite (filter_about_not_about _ _ He1), (filter_about_not_about _ _ He3),
      (filter_about_not_about _ _ He4), !app_nil_r. cbn [app].
    apply filter_about_all, emitted_processMember_about.
  - rewrite self_after_reconcile. exact Hv4.
Qed.

(** X4.  The entities of a batch do not interfere.  Two objects that record
    the same status, Discord id, subscribed mark, connect record and
    disconnect record for the entity of a record, and have the same
    first-run flag; two batches of pairwise distinct ids that both hold the
    record: the two ticks emit the same events about that entity, whatever
    else the objects and the batches hold, and whatever the clocks. *)
Theorem events_of_entity_independent (s1 s2 : PatreonEvents)
    (memberships1 memberships2 : list MembershipData) (clk1 clk2 : nat → Z)
    (member : MembershipData) :
  NoDup (id <$> memberships1) → NoDup (id <$> memberships2) →
  member ∈ memberships1 → member ∈ memberships2 →
  same_guards (view (id member) s1) (view (id member) s2) →
  isFirstRun s1 = isFirstRun s2 →
  List.filter (about (id member)) (emitted (run (reconcile memberships1) s1 clk1))
  = List.filter (about (id member)) (emitted (run (reconcile memberships2) s2 clk2)).
Proof.
  intros Hnd1 Hnd2 Hin1 Hin2 Hg Hf.
  destruct (reconcile_local s1 memberships1 clk1 member Hnd1 Hin1)
    as (w1 & Hv1 & Hf1 & -> & _).
  destruct (reconcile_local s2 memberships2 clk2 member Hnd2 Hin2)
    as (w2 & Hv2 & Hf2 & -> & _).
  rewrite !emitted_processMember_view, Hv1, Hv2, Hf1, Hf2, Hf.
  by rewrite (status_events_same_guards _ _ _ _ Hg), (linkage_events_same_guards _ _ _ Hg).
Qed.

Lemma events_of_entity_independent_witness :
  NoDup (id <$> [Linked.other]) ∧ NoDup (id <$> [Linked.former; Linked.other])
  ∧ Linked.other ∈ [Linked.other] ∧ Linked.other ∈ [Linked.former; Linked.other]
  ∧ same_guards (view (id Linked.other) NoId.started) (view (id Linked.other) Sample.linked)
  ∧ isFirstRun NoId.started = isFirstRun Sample.linked
  ∧ List.filter (about (id Linked.other))
      (emitted (run (reconcile [Linked.other]) NoId.started Sample.clk))
    = List.filter (about (id Linked.other))
        (emitted (run (reconcile [Linked.former; Linked.other]) Sample.linked Sample.clk)).
Proof.
  assert (H1 : NoDup (id <$> [Linked.other])) by compute_done.
  assert (H2 : NoDup (id <$> [Linked.former; Linked.other])) by compute_done.
  assert (H3 : Linked.other ∈ [Linked.other]) by compute_done.
  assert (H4 : Linked.other ∈ [Linked.former; Linked.other]) by compute_done.
  assert (H5 : same_guards (view (id Linked.other) NoId.started)
                 (view (id Linked.other) Sample.linked))
    by (repeat split; by vm_compute).
  assert (H6 : isFirstRun NoId.started = isFirstRun Sample.linked) by reflexivity.
  repeat (split; [assumption|]).
  exact (events_of_entity_independent NoId.started Sample.linked [Linked.other]
           [Linked.former; Linked.other] Sample.clk Sample.clk Linked.other
           H1 H2 H3 H4 H5 H6).
Defined.

(** X5.  With pairwise distinct ids in the batch, a tick emits at most three
    events about an entity of the batch: at most one lifecycle event with
    the record, then at most one [disconnected] with the record carrying a
    previous Discord id, then at most one [connected] with the record, in
    this order. *)
Theorem at_most_three_events_per_entity (s : PatreonEvents)
    (memberships : list MembershipData) (clk : nat → Z) (member : MembershipData) :
  NoDup (id <$> memberships) → member ∈ memberships →
  ∃ k p, lifecycle k = true
    ∧ List.filter (about (id member)) (emitted (run (reconcile memberships) s clk))
      `sublist_of` [MemberEvent k member;
                    MemberEvent disconnected (with_discordId member p);
                    MemberEvent connected member].
Proof.
  intros Hnd Hin.
  destruct (reconcile_local s memberships clk member Hnd Hin) as (w1 & _ & _ & -> & _).
  apply emitted_processMember_sublist.
Qed.

Lemma at_most_three_events_per_entity_witness :
  NoDup (id <$> [Linked.swapped; Linked.other])
  ∧ Linked.swapped ∈ [Linked.swapped; Linked.other]
  ∧ ∃ k p, lifecycle k = true
      ∧ List.filter (about (id Linked.swapped))
          (emitted (run (reconcile [Linked.swapped; Linked.other]) Sample.linked Sample.clk))
        `sublist_of` [MemberEvent k Linked.swapped;
                      MemberEvent disconnected (with_discordId Linked.swapped p);
                      MemberEvent connected Linked.swapped].
Proof.
  assert (H1 : NoDup (id <$> [Linked.swapped; Linked.other])) by compute_done.
  assert (H2 : Linked.swapped ∈ [Linked.swapped; Linked.other]) by compute_done.
  repeat (split; [assumption|]).
  exact (at_most_three_events_per_entity Sample.linked [Linked.swapped; Linked.other]
           Sample.clk Linked.swapped H1 H2).
Defined.

(** * The trackers record the emitted events *)

Lemma same_trackers_refl s : same_trackers s s.
Proof. by repeat split. Qed.

Lemma same_trackers_trans s1 s2 s3 :
  same_trackers s1 s2 → same_trackers s2 s3 → same_trackers s1 s3.
Proof.
  intros (H1 & H2 & H3 & H4 & H5 & H6) (G1 & G2 & G3 & G4 & G5 & G6).
  repeat split; congruence.
Qed.

Lemma same_trackers_track k x now s1 s2 :
  same_trackers s1 s2 → same_trackers (track k x now s1) (track k x now s2).
Proof.
  intros (H1 & H2 & H3 & H4 & H5 & H6).
  destruct k; simpl; try (destruct (truthy_opt (discordId x)); simpl);
    repeat split; simpl; congruence.
Qed.

Lemma same_trackers_track_all events clk n s1 s2 :
  same_trackers s1 s2 →
  same_trackers (track_all events clk n s1) (track_all events clk n s2).
Proof.
  revert n s1 s2. induction events as [|[k x|message|] events IH]; intros n s1 s2 H;
    simpl; [done| |by apply IH|by apply IH].
  by apply IH, same_trackers_track.
Qed.

Lemma track_all_app events1 events2 clk n s :
  track_all (events1 ++ events2) clk n s
  = track_all events2 clk (n + clock_reads events1) (track_all events1 clk n s).
Proof.
  revert n s. induction events1 as [|[k x|message|] events1 IH]; intros n s; simpl.
  - by rewrite Nat.add_0_r.
  - rewrite IH. by rewrite Nat.add_succ_r.
  - apply IH.
  - apply IH.
Qed.

Lemma clock_reads_app events1 events2 :
  clock_reads (events1 ++ events2) = clock_reads events1 + clock_reads events2.
Proof.
  induction events1 as [|[k x|message|] events1 IH]; simpl; [done| |done|done].
  by rewrite IH.
Qed.

Section records_rules.
Context {A B : Type}.

Lemma records_ret (a : A) : records_events (mret a : Eff A).
Proof.
  intros w. simpl. rewrite Nat.add_0_r. repeat split; done.
Qed.

Lemma records_bind (m : Eff A) (f : A → Eff B) :
  records_events m → (∀ a, records_events (f a)) → records_events (m ≫= f).
Proof.
  intros Hm Hf w. destruct (Hm w) as (Hc1 & Hr1 & Ht1).
  destruct (Hf (value (m w)) (after (m w))) as (Hc2 & Hr2 & Ht2).
  rewrite after_bind, emitted_bind, clock_reads_app, track_all_app.
  split; [congruence|]. split; [lia|].
  eapply same_trackers_trans; [exact Ht2|].
  rewrite Hc1, Hr1. by apply same_trackers_track_all.
Qed.

Lemma records_this (k : PatreonEvents → Eff A) :
  (∀ s, records_events (k s)) → records_events (this ≫= k).
Proof. intros H w. rewrite this_bind_run. apply H. Qed.
End records_rules.

Lemma records_update (f : PatreonEvents → PatreonEvents) :
  (∀ s, same_trackers (f s) s) → records_events (update f).
Proof.
  intros H w. simpl. rewrite Nat.add_0_r. repeat split; apply H.
Qed.

Lemma records_when c (body : Eff unit) : records_events body → records_events (when c body).
Proof. intros H. destruct c; [done | apply records_ret]. Qed.

Lemma records_forEach {A : Type} (l : list A) (body : A → Eff unit) :
  (∀ x, records_events (body x)) → records_events (forEach l body).
Proof.
  intros H. induction l as [|x l IH]; [apply records_ret|].
  rewrite forEach_cons. by apply records_bind.
Qed.

Lemma records_emitAndTrack event member : records_events (emitAndTrack event member true).
Proof.
  intros w. rewrite emitAndTrack_run. simpl. split; [done|]. split; [lia|].
  apply same_trackers_refl.
Qed.

Lemma records_emitOnce event member : records_events (emitOnce event member).
Proof.
  apply records_this. intros s. apply records_when, records_emitAndTrack.
Qed.

Lemma records_statusChanges member previousStatus :
  records_events (statusChanges member previousStatus).
Proof.
  unfold statusChanges. destruct (negb _).
  { apply records_this. intros s. apply records_when, records_emitAndTrack. }
  destruct (bool_decide _); [|apply records_ret].
  repeat (apply records_bind; [|intros _]); apply records_when, records_emitAndTrack.
Qed.

Lemma records_discordChanges member previousDiscordId :
  records_events (discordChanges member previousDiscordId).
Proof.
  unfold discordChanges. destruct previousDiscordId as [[previous|]|].
  - destruct (negb _); [apply records_emitOnce|].
    destruct (bool_decide _); [|apply records_ret].
    apply records_bind; [|intros _]; apply records_emitOnce.
  - apply records_this. intros s. apply records_when, records_emitAndTrack.
  - apply records_this. intros s. apply records_when, records_emitAndTrack.
Qed.

Lemma records_processMember member : records_events (processMember member).
Proof.
  unfold processMember. apply records_this. intros s.
  apply records_bind.
  { destruct (discordId member) as [d|]; [|apply records_ret].
    apply records_when, records_update. by intros s'. }
  intros _. apply records_bind; [apply records_statusChanges|intros _].
  apply records_bind; [apply records_discordChanges|intros _].
  apply records_bind; [|intros _]; apply records_update; by intros s'.
Qed.

Lemma records_removeMember currentMembers i : records_events (removeMember currentMembers i).
Proof.
  unfold removeMember. apply records_when, records_this. intros s.
  apply records_bind.
  { destruct (lastDiscordIds s !! i) as [[d|]|]; try apply records_ret.
    apply records_when, records_emitOnce. }
  intros _.
  apply records_bind; [|intros _]; apply records_update; by intros s'.
Qed.

Lemma records_reconcile memberships : records_events (reconcile memberships).
Proof.
  unfold reconcile.
  apply records_bind; [apply records_update; by intros s|intros _].
  apply records_bind; [apply records_forEach, records_processMember|intros _].
  apply records_this. intros s.
  apply records_bind; [apply records_forEach, records_removeMember|intros _].
  apply records_bind; [apply records_update; by intros s'|intros _].
  apply records_ret.
Qed.

Lemma records_fetchMemberships api : records_events (fetchMemberships api).
Proof.
  unfold fetchMemberships. destruct (fetchPages api [] []) as [message| |ms incs];
    [|apply records_ret|apply records_ret].
  intros w. simpl. rewrite Nat.add_0_r. by repeat split.
Qed.

(** X6.  After a tick, the subscribed set and the cancel, decline,
    reactivation, connect and disconnect maps are those of the object
    before the tick with the emitted member events recorded one after the
    other, the n-th member event with the n-th value of the clock; nothing
    else changes them, and the tick reads the clock once per member
    event. *)
Theorem trackers_record_events (api : ApiScript) (s : PatreonEvents) (clk : nat → Z) :
  same_trackers (state_after (run (checkForUpdates api) s clk))
    (track_all (emitted (run (checkForUpdates api) s clk)) clk 0 s)
  ∧ reads (after (run (checkForUpdates api) s clk))
    = clock_reads (emitted (run (checkForUpdates api) s clk)).
Proof.
  assert (H : records_events (checkForUpdates api)).
  { unfold checkForUpdates. apply records_bind; [apply records_fetchMemberships|].
    intros memberships. apply records_reconcile. }
  destruct (H (mkWorld s clk 0)) as (_ & Hr & Ht). split; [exact Ht | exact Hr].
Qed.

(** * The maps after a tick *)

Lemma keys_forEach_processMember memberships w k :
  k ∈ JSMap.keys (lastMemberships (self (after (forEach memberships processMember w))))
  ↔ k ∈ JSMap.keys (lastMemberships (self w)) ∨ k ∈ id <$> memberships.
Proof.
  revert w. induction memberships as [|member memberships IH]; intros w.
  - simpl. rewrite elem_of_nil. tauto.
  - rewrite forEach_cons, after_bind, IH, lastMemberships_after_processMember.
    rewrite elem_of_keys_set, fmap_cons, elem_of_cons. tauto.
Qed.

Lemma keys_sweep_kept currentMembers keys (m : JSMap.t entity_id string) k :
  k ∈ currentMembers → k ∈ JSMap.keys m →
  k ∈ JSMap.keys (foldl (sweep_key currentMembers) m keys).
Proof.
  intros Hcur. revert m. induction keys as [|i keys IH]; intros m Hk; [done|].
  simpl. apply IH. unfold sweep_key.
  destruct (bool_decide (i ∈ currentMembers)) eqn:Hi; [done|].
  apply bool_decide_eq_false_1 in Hi. apply elem_of_keys_delete. split; [|done].
  by intros ->.
Qed.

Lemma keys_reconcile memberships w k :
  k ∈ JSMap.keys (lastMemberships (self (after (reconcile memberships w))))
  ↔ k ∈ id <$> memberships.
Proof.
  split; [apply keys_after_reconcile|]. intros Hk.
  rewrite self_after_reconcile. simpl. unfold swept. rewrite lastMemberships_sweep.
  apply keys_sweep_kept; [by apply elem_of_list_to_set|].
  unfold diffed. apply keys_forEach_processMember. by right.
Qed.

(** The record that comes last for its id is the one the maps hold. *)
Lemma settled_last before member rest w :
  id member ∉ id <$> rest →
  settled (self (after (reconcile (before ++ member :: rest) w))) member.
Proof.
  intros Hr. set (memberships := before ++ member :: rest).
  set (w1 := after (forEach before processMember (cleared w))).
  set (w2 := after (processMember member w1)).
  destruct (frame_forEach_processMember (id member) (view (id member) (self w2))
              (isFirstRun (self w2)) rest Hr w2 (conj eq_refl eq_refl)) as [[Hv3 _] _].
  assert (Hdiffed : diffed memberships w = after (forEach rest processMember w2)).
  { unfold diffed, memberships. rewrite after_forEach_app. fold w1.
    by rewrite forEach_cons, after_bind. }
  assert (Hi : id member ∈ id <$> memberships).
  { unfold memberships. rewrite fmap_app, fmap_cons, elem_of_app, elem_of_cons. auto. }
  destruct (frame_swept (id member) (view (id member) (self w2))
              (isFirstRun (self (diffed memberships w))) memberships
              (JSMap.keys (lastMemberships (self (diffed memberships w)))) Hi
              (diffed memberships w)) as [[Hv4 _] _].
  { split; [|done]. by rewrite Hdiffed. }
  fold (swept memberships w) in Hv4.
  rewrite self_after_reconcile.
  eapply settled_view; [|apply (settled_after_processMember member w1)]. exact Hv4.
Qed.

Lemma forgotten_removeMember j currentMembers i :
  triple (forgotten j) (removeMember currentMembers i) (forgotten j) (λ _, True).
Proof.
  apply triple_removeMember.
  - intros _ st d now s [Hm Hl] _ _. split; [|done].
    split; [by rewrite lastMemberships_track | by rewrite lastDiscordIds_track].
  - intros _ s [Hm Hl]. split; [|done]. simpl.
    destruct (decide (i = j)) as [->|Hne]; [apply get_delete_eq | by rewrite get_delete_ne].
  - intros _ s [Hm Hl]. split; [done|]. simpl.
    destruct (decide (i = j)) as [->|Hne];
      [apply lookup_delete_eq | by rewrite lookup_delete_ne].
Qed.

Lemma removeMember_forgets currentMembers i w :
  i ∉ currentMembers → forgotten i (self (after (removeMember currentMembers i w))).
Proof.
  intros Hi. unfold removeMember.
  rewrite bool_decide_eq_false_2 by done. change (when (negb false)) with (when true).
  unfold when at 1. rewrite this_bind_run, !after_bind. simpl.
  split; [apply get_delete_eq | apply lookup_delete_eq].
Qed.

Lemma sweep_forgets currentMembers keys i w :
  i ∉ currentMembers → i ∈ keys →
  forgotten i (self (after (forEach keys (removeMember currentMembers) w))).
Proof.
  intros Hi Hin. apply list_elem_of_split in Hin as (before & rest & ->).
  rewrite after_forEach_app, forEach_cons, after_bind.
  refine (proj1 (triple_forEach (forgotten i) (λ _, True) rest _ _ _ _)).
  - intros k _. apply forgotten_removeMember.
  - by apply removeMember_forgets.
Qed.

(** An entity that is not in the batch: the tick leaves it without a
    status, and without a linkage if it had a status. *)
Lemma linkage_of_absent memberships w i :
  i ∉ id <$> memberships →
  lastDiscordIds (self (after (reconcile memberships w))) !! i
  = if bool_decide (i ∈ JSMap.keys (lastMemberships (self w))) then None
    else lastDiscordIds (self w) !! i.
Proof.
  intros Hi. rewrite self_after_reconcile. simpl.
  destruct (frame_forEach_processMember i (view i (self w)) (isFirstRun (self w))
              memberships Hi (cleared w) (conj eq_refl eq_refl)) as [[Hv1 _] _].
  fold (diffed memberships w) in Hv1.
  assert (Hcur : i ∉ (list_to_set (id <$> memberships) : gset entity_id))
    by (by rewrite elem_of_list_to_set).
  destruct (bool_decide (i ∈ JSMap.keys (lastMemberships (self w)))) eqn:Hk.
  - apply bool_decide_eq_true_1 in Hk. apply (sweep_forgets _ _ i (diffed memberships w) Hcur).
    unfold diffed. apply keys_forEach_processMember. by left.
  - apply bool_decide_eq_false_1 in Hk.
    assert (Hk1 : i ∉ JSMap.keys (lastMemberships (self (diffed memberships w)))).
    { unfold diffed. rewrite keys_forEach_processMember. intros [H|H]; [|done].
      by apply Hk. }
    destruct (frame_sweep_others i (view i (self w))
                (isFirstRun (self (diffed memberships w)))
                (list_to_set (id <$> memberships)) _ Hk1 (diffed memberships w)
                (conj Hv1 eq_refl)) as [[Hv2 _] _].
    fold (swept memberships w) in Hv2.
    change (seen_discordId (view i (self (after (swept memberships w))))
            = seen_discordId (view i (self w))).
    by rewrite Hv2.
Qed.

(** X7.  After a tick the status map holds exactly the ids of the batch; for
    each id it holds the status, and the linkage map the Discord id, of the
    last record of the batch with that id; an entity that is not in the
    batch has no linkage left if it had a status, and keeps its linkage
    entry otherwise. *)
Theorem maps_hold_the_batch (s : PatreonEvents) (memberships : list MembershipData)
    (clk : nat → Z) :
  (∀ i, i ∈ JSMap.keys (lastMemberships (state_after (run (reconcile memberships) s clk)))
        ↔ i ∈ id <$> memberships)
  ∧ (∀ before member rest,
       memberships = before ++ member :: rest → id member ∉ id <$> rest →
       settled (state_after (run (reconcile memberships) s clk)) member)
  ∧ (∀ i, i ∉ id <$> memberships →
       lastDiscordIds (state_after (run (reconcile memberships) s clk)) !! i
       = if bool_decide (i ∈ JSMap.keys (lastMemberships s)) then None
         else lastDiscordIds s !! i).
Proof.
  split; [|split].
  - intros i. apply keys_reconcile.
  - intros before member rest -> Hr. by apply settled_last.
  - intros i Hi. by apply (linkage_of_absent memberships (mkWorld s clk 0)).
Qed.

(** * Whom the events are about *)

(** X8.  A tick emits member events only, and only about entities it knows:
    each event is about an entity of the batch, or it is the
    [disconnected] event of an entity that had a status when the tick
    started and is not in the batch. *)
Theorem events_about_known_entities (s : PatreonEvents)
    (memberships : list MembershipData) (clk : nat → Z) :
  Forall (about_known s memberships) (emitted (run (reconcile memberships) s clk)).
Proof.
  unfold run. set (w := mkWorld s clk 0). rewrite emitted_reconcile. apply Forall_app. split.
  - refine (proj2 (triple_forEach (λ _, True) (about_known s memberships) memberships _ _
                     (cleared w) I)).
    intros member Hin.
    assert (Hi : id member ∈ id <$> memberships) by (by apply list_elem_of_fmap_2).
    apply triple_processMember; try done.
    + intros k _ now s' _ _ _. split; [done|]. exists k, member. split; [done | by left].
    + intros k d _ now s' _ _ _. split; [done|].
      exists k, (with_discordId member d). split; [done | by left].
  - unfold swept.
    refine (proj2 (triple_forEach (λ _, True) (about_known s memberships) _ _ _
                     (diffed memberships w) I)).
    intros i Hin. apply triple_removeMember; try done.
    intros Hcur st d now s' _ _ _. split; [done|].
    rewrite elem_of_list_to_set in Hcur.
    exists disconnected, (bare_member i st (Some d)). split; [done|]. right.
    split; [done|]. split; [|done]. simpl.
    unfold diffed in Hin. apply keys_forEach_processMember in Hin as [Hin|Hin]; done.
Qed.

(** * Soundness is kept by the tick *)

Lemma view_processMember_ne j member w :
  id member ≠ j → view j (self (after (processMember member w))) = view j (self w).
Proof.
  intros Hne.
  by destruct (frame_processMember j (view j (self w)) (isFirstRun (self w)) member Hne w
                 (conj eq_refl eq_refl)) as [[Hv _] _].
Qed.

Lemma view_removeMember_ne j currentMembers i w :
  i ≠ j → view j (self (after (removeMember currentMembers i w))) = view j (self w).
Proof.
  intros Hne.
  by destruct (frame_removeMember j (view j (self w)) (isFirstRun (self w)) currentMembers i
                 (λ _, Hne) w (conj eq_refl eq_refl)) as [[Hv _] _].
Qed.

Lemma tracks_reactivated_exclusive k x : tracks reactivated_exclusive (λ _, True) k x.
Proof.
  intros now s Hs _ _. split; [|done]. intros i.
  destruct k; simpl.
  - intros Hi. destruct (Hs i Hi) as [Hc Hd]. rewrite !lookup_delete_None. auto.
  - destruct (truthy_opt (discordId x)); apply Hs.
  - destruct (decide (i = id x)) as [->|Hne].
    + rewrite lookup_delete_eq. by intros [? ?].
    + rewrite lookup_delete_ne by done. intros Hi. destruct (Hs i Hi) as [Hc Hd].
      by rewrite lookup_insert_ne.
  - destruct (decide (i = id x)) as [->|Hne].
    + rewrite lookup_delete_eq. by intros [? ?].
    + rewrite lookup_delete_ne by done. intros Hi. destruct (Hs i Hi) as [Hc Hd].
      by rewrite lookup_insert_ne.
  - destruct (decide (i = id x)) as [->|Hne].
    + intros _. by rewrite !lookup_delete_eq.
    + rewrite lookup_insert_ne by done. intros Hi. destruct (Hs i Hi) as [Hc Hd].
      rewrite !lookup_delete_None. auto.
  - destruct (truthy_opt (discordId x)); apply Hs.
  - apply Hs.
Qed.

(** What the object records about the linkage of an entity, after the
    linkage half of its record. *)
Lemma trackers_after_discordHalf member w :
  same_trackers (self (after (discordHalf member w)))
    (track_all (linkage_events member (view (id member) (self w)))
       (clock (after (statusHalf member w))) (reads (after (statusHalf member w)))
       (self (after (statusHalf member w)))).
Proof.
  unfold discordHalf.
  destruct (records_discordChanges member (lastDiscordIds (self w) !! id member)
              (after (statusHalf member w))) as (_ & _ & Ht).
  rewrite emitted_discordChanges_view in Ht.
  destruct (linkage_records_after_statusHalf member w) as [Hc Hd].
  rewrite Hc, Hd in Ht. exact Ht.
Qed.

Lemma connected_after_processMember member w :
  well_formed member → maps_coherent (self w) → linkage_exclusive (self w) →
  ∀ d, connectedDiscords (self (after (processMember member w))) !! id member = Some d
       ↔ discordId member = Some d.
Proof.
  intros [_ Hwf] Hcoh Hex d.
  destruct (trackers_after_discordHalf member w) as (_ & _ & _ & _ & Hc & _).
  destruct (linkage_records_after_statusHalf member w) as [Hc0 Hd0].
  rewrite self_after_processMember.
  cbn [connectedDiscords set_lastDiscordIds set_lastMemberships]. rewrite Hc. clear Hc.
  destruct (Hcoh (id member)) as (_ & _ & H3 & H4).
  set (ws := after (statusHalf member w)) in *.
  unfold linkage_events. cbn [view seen_discordId seen_connected seen_disconnected].
  destruct (lastDiscordIds (self w) !! id member) as [[p|]|] eqn:Hprev.
  - assert (Hp : truthy p = true) by (apply truthy_true; congruence).
    assert (Hcr : connectedDiscords (self w) !! id member = Some p) by (by apply H4).
    assert (Hdr : disconnectedDiscords (self w) !! id member = None).
    { destruct (Hex (id member)) as [H|H]; [congruence | done]. }
    rewrite Hcr, Hdr, Hp. cbn [recorded].
    destruct (discordId member) as [d'|] eqn:Hd.
    + assert (Ht : truthy d' = true) by (apply truthy_true; congruence).
      cbn [truthy_opt]. rewrite Ht. cbn [negb].
      destruct (decide (p = d')) as [->|Hne].
      * rewrite bool_decide_eq_false_2 by (by intros H). cbn [track_all].
        rewrite Hc0, Hcr. done.
      * rewrite bool_decide_eq_true_2 by congruence. cbn [track_all].
        simpl. rewrite Hd, Hp. simpl. rewrite Ht. simpl. rewrite lookup_insert_eq.
        done.
    + cbn [truthy_opt negb track_all]. simpl. rewrite Hp. simpl.
      rewrite lookup_delete_eq. done.
  - assert (Hcr : connectedDiscords (self w) !! id member = None).
    { destruct (connectedDiscords (self w) !! id member) as [x|] eqn:Hx; [|done].
      destruct (H4 x) as [H _]. specialize (H eq_refl). congruence. }
    rewrite Hcr. cbn [recorded].
    destruct (discordId member) as [d'|] eqn:Hd.
    + assert (Ht : truthy d' = true) by (apply truthy_true; congruence).
      cbn [truthy_opt]. rewrite Ht. cbn [track_all]. simpl. rewrite Hd. simpl.
      rewrite Ht. simpl. rewrite lookup_insert_eq. done.
    + cbn [truthy_opt track_all]. rewrite Hc0, Hcr. done.
  - assert (Hcr : connectedDiscords (self w) !! id member = None).
    { destruct (connectedDiscords (self w) !! id member) as [x|] eqn:Hx; [|done].
      destruct (H4 x) as [H _]. specialize (H eq_refl). congruence. }
    rewrite Hcr. cbn [recorded].
    destruct (discordId member) as [d'|] eqn:Hd.
    + assert (Ht : truthy d' = true) by (apply truthy_true; congruence).
      cbn [truthy_opt]. rewrite Ht. cbn [track_all]. simpl. rewrite Hd. simpl.
      rewrite Ht. simpl. rewrite lookup_insert_eq. done.
    + cbn [truthy_opt track_all]. rewrite Hc0, Hcr. done.
Qed.

Lemma maps_coherent_view i s s' :
  view i s' = view i s →
  ((is_Some (JSMap.get i (lastMemberships s)) ↔ is_Some (lastDiscordIds s !! i))
   ∧ JSMap.get i (lastMemberships s) ≠ Some EmptyString
   ∧ lastDiscordIds s !! i ≠ Some (Some EmptyString)
   ∧ (∀ d, connectedDiscords s !! i = Some d ↔ lastDiscordIds s !! i = Some (Some d))) →
  (is_Some (JSMap.get i (lastMemberships s')) ↔ is_Some (lastDiscordIds s' !! i))
  ∧ JSMap.get i (lastMemberships s') ≠ Some EmptyString
  ∧ lastDiscordIds s' !! i ≠ Some (Some EmptyString)
  ∧ (∀ d, connectedDiscords s' !! i = Some d ↔ lastDiscordIds s' !! i = Some (Some d)).
Proof.
  intros Hv.
  pose proof (f_equal seen_status Hv) as H1. pose proof (f_equal seen_discordId Hv) as H2.
  pose proof (f_equal seen_connected Hv) as H3. simpl in H1, H2, H3.
  by rewrite H1, H2, H3.
Qed.

Lemma maps_coherent_processMember member w :
  well_formed member → maps_coherent (self w) → linkage_exclusive (self w) →
  maps_coherent (self (after (processMember member w))).
Proof.
  intros Hwf Hcoh Hex i. destruct (decide (id member = i)) as [<-|Hne].
  - rewrite lastMemberships_after_processMember, lastDiscordIds_after_processMember.
    rewrite get_set_eq, lookup_insert_eq. destruct Hwf as [Hst Hd].
    split; [by split; eexists|]. split; [congruence|]. split; [congruence|].
    intros d. rewrite (connected_after_processMember member w (conj Hst Hd) Hcoh Hex d).
    split; congruence.
  - eapply maps_coherent_view; [by apply view_processMember_ne | apply Hcoh].
Qed.

Lemma connected_after_removeMember currentMembers i w :
  maps_coherent (self w) → linkage_exclusive (self w) → i ∉ currentMembers →
  connectedDiscords (self (after (removeMember currentMembers i w))) !! i = None.
Proof.
  intros Hcoh Hex Hi. destruct (Hcoh i) as (_ & _ & H3 & H4).
  unfold removeMember.
  rewrite bool_decide_eq_false_2 by done. change (when (negb false)) with (when true).
  unfold when at 1. rewrite this_bind_run, !after_bind.
  cbn [self after update connectedDiscords set_lastDiscordIds set_lastMemberships].
  destruct (lastDiscordIds (self w) !! i) as [[d|]|] eqn:Hprev.
  - assert (Hd : truthy d = true) by (apply truthy_true; congruence).
    assert (Hcr : connectedDiscords (self w) !! i = Some d) by (by apply H4).
    assert (Hdr : disconnectedDiscords (self w) !! i = None).
    { destruct (Hex i) as [H|H]; [congruence | done]. }
    rewrite Hd. unfold when. rewrite emitOnce_run. simpl hasProcessedEvent. rewrite Hdr.
    rewrite emitAndTrack_run. simpl. rewrite Hd. simpl. apply lookup_delete_eq.
  - simpl. destruct (connectedDiscords (self w) !! i) as [x|] eqn:Hx; [|done].
    destruct (H4 x) as [H _]. specialize (H eq_refl). congruence.
  - simpl. destruct (connectedDiscords (self w) !! i) as [x|] eqn:Hx; [|done].
    destruct (H4 x) as [H _]. specialize (H eq_refl). congruence.
Qed.

Lemma maps_coherent_removeMember currentMembers i w :
  maps_coherent (self w) → linkage_exclusive (self w) →
  maps_coherent (self (after (removeMember currentMembers i w))).
Proof.
  intros Hcoh Hex. destruct (decide (i ∈ currentMembers)) as [Hin|Hi].
  { by rewrite removeMember_current. }
  intros j. destruct (decide (i = j)) as [<-|Hne].
  - destruct (removeMember_forgets currentMembers i w Hi) as [Hm Hl].
    rewrite Hm, Hl, (connected_after_removeMember currentMembers i w Hcoh Hex Hi).
    split; [by split; intros [? ?]|]. split; [done|]. split; [done|].
    intros d. split; discriminate.
  - eapply maps_coherent_view; [by apply view_removeMember_ne | apply Hcoh].
Qed.

Lemma linkage_exclusive_processMember member :
  triple linkage_exclusive (processMember member) linkage_exclusive (λ _, True).
Proof.
  apply triple_processMember; try done.
  - intros k _. apply tracks_linkage_exclusive.
  - intros k d _. apply tracks_linkage_exclusive.
Qed.

Lemma linkage_exclusive_removeMember currentMembers i :
  triple linkage_exclusive (removeMember currentMembers i) linkage_exclusive (λ _, True).
Proof.
  apply triple_removeMember; try done. intros _ st d. apply tracks_linkage_exclusive.
Qed.

(** A tick that reconciles a batch of well-formed records keeps the maps
    coherent. *)
Lemma maps_coherent_reconcile memberships :
  Forall well_formed memberships →
  triple (λ s, maps_coherent s ∧ linkage_exclusive s) (reconcile memberships)
    (λ s, maps_coherent s ∧ linkage_exclusive s) (λ _, True).
Proof.
  intros Hwf. apply triple_reconcile; try done.
  - intros member Hin w [Hcoh Hex]. split; [|by apply Forall_true].
    split; [apply maps_coherent_processMember; try done|].
    + rewrite Forall_forall in Hwf. by apply Hwf.
    + by apply linkage_exclusive_processMember.
  - intros i w [Hcoh Hex]. split; [|by apply Forall_true].
    split; [by apply maps_coherent_removeMember|].
    by apply linkage_exclusive_removeMember.
Qed.

(** A tick is the reconciliation of the batch that the fetch returns, whose
    records are well formed. *)
Lemma checkForUpdates_reconcile api w :
  ∃ memberships, Forall well_formed memberships
    ∧ value (fetchMemberships api w) = memberships
    ∧ self (after (checkForUpdates api w)) = self (after (reconcile memberships w))
    ∧ emitted (checkForUpdates api w)
      = emitted (fetchMemberships api w) ++ emitted (reconcile memberships w).
Proof.
  unfold checkForUpdates, fetchMemberships.
  destruct (fetchPages api [] []) as [message| |ms incs].
  - exists []. by repeat split.
  - exists []. by repeat split.
  - exists (mapMember incs <$> ms). split; [|by repeat split].
    apply Forall_fmap, Forall_forall. intros raw _. apply well_formed_mapMember.
Qed.

Lemma sound_checkForUpdates api s clk :
  sound s → sound (state_after (run (checkForUpdates api) s clk)).
Proof.
  intros (Hcoh & Hex & Hsub & Hre & Hnd). unfold state_after, run.
  set (w := mkWorld s clk 0).
  destruct (checkForUpdates_reconcile api w) as (memberships & Hwf & _ & Hself & _).
  destruct (maps_coherent_reconcile memberships Hwf w (conj Hcoh Hex)) as [[H1 H2] _].
  split; [by rewrite Hself|]. split; [by rewrite Hself|]. split; [|split].
  - apply (invariant_checkForUpdates subscribed_exclusive api); try done.
    apply tracks_subscribed_exclusive.
  - apply (invariant_checkForUpdates reactivated_exclusive api); try done.
    apply tracks_reactivated_exclusive.
  - rewrite Hself. by apply keys_distinct_reconcile.
Qed.

Lemma sound_new : sound new_PatreonEvents.
Proof.
  split; [|split; [|split; [|split]]].
  - intros i. simpl. rewrite !lookup_empty. split; [by split; intros [? ?]|].
    split; [done|]. split; [done|]. intros d. split; discriminate.
  - apply linkage_exclusive_new.
  - by intros i Hi%not_elem_of_empty.
  - intros i. simpl. rewrite lookup_empty. by intros [? ?].
  - apply NoDup_nil_2.
Qed.

Lemma sound_ticks answers s : sound s → sound (ticks answers s).
Proof.
  revert s. induction answers as [|[api clk] answers IH]; intros s Hs; [done|].
  apply IH. by apply sound_checkForUpdates.
Qed.

(** X9.  Every object that ticks produce from a new object, whatever the API
    answers, is sound: status and linkage are recorded together, no
    recorded status or Discord id is empty, the connect record of an entity
    is the Discord id it is linked to, no entity has both a connect and a
    disconnect record, no entity of the subscribed set or with a
    reactivation record has a cancel or a decline record, and the keys of
    the status map are pairwise distinct. *)
Theorem ticks_from_new_are_sound (answers : list (ApiScript * (nat → Z))) :
  sound (ticks answers new_PatreonEvents).
Proof. apply sound_ticks, sound_new. Qed.

(** * The linkage events of a sound object *)

Lemma lifecycle_status_events member first v :
  Forall (lifecycle_event member) (status_events member first v).
Proof.
  unfold status_events.
  repeat (apply Forall_app_2 || apply Forall_nil_2 || case_match);
    apply Forall_singleton; eexists; (split; [|reflexivity]); reflexivity.
Qed.

(** In a sound object the dedup records of the linkage suppress nothing
    and let nothing through twice: the linkage events of a record are the
    diff of the Discord ids. *)
Lemma linkage_events_sound member s :
  well_formed member → maps_coherent s → linkage_exclusive s →
  linkage_events member (view (id member) s)
  = linkage_diff member (lastDiscordIds s !! id member).
Proof.
  intros [_ Hwf] Hcoh Hex. destruct (Hcoh (id member)) as (_ & _ & H3 & H4).
  unfold linkage_events, linkage_diff.
  cbn [view seen_discordId seen_connected seen_disconnected].
  destruct (lastDiscordIds s !! id member) as [[p|]|] eqn:Hprev.
  - assert (Hp : truthy p = true) by (apply truthy_true; congruence).
    assert (Hcr : connectedDiscords s !! id member = Some p) by (by apply H4).
    assert (Hdr : disconnectedDiscords s !! id member = None).
    { destruct (Hex (id member)) as [H|H]; [congruence | done]. }
    rewrite Hcr, Hdr, Hp. cbn [recorded].
    destruct (discordId member) as [d|] eqn:Hd.
    + assert (Ht : truthy d = true) by (apply truthy_true; congruence).
      cbn [truthy_opt]. rewrite Ht. cbn [negb].
      destruct (decide (p = d)) as [->|Hne].
      * rewrite !bool_decide_eq_false_2 by (by intros H). done.
      * rewrite !bool_decide_eq_true_2 by congruence. done.
    + cbn [truthy_opt negb]. by rewrite bool_decide_eq_true_2.
  - assert (Hcr : connectedDiscords s !! id member = None).
    { destruct (connectedDiscords s !! id member) as [x|] eqn:Hx; [|done].
      destruct (H4 x) as [H _]. specialize (H eq_refl). congruence. }
    rewrite Hcr. cbn [recorded]. destruct (discordId member) as [d|] eqn:Hd; [|done].
    assert (Ht : truthy d = true) by (apply truthy_true; congruence).
    cbn [truthy_opt]. rewrite Ht. by rewrite bool_decide_eq_true_2.
  - assert (Hcr : connectedDiscords s !! id member = None).
    { destruct (connectedDiscords s !! id member) as [x|] eqn:Hx; [|done].
      destruct (H4 x) as [H _]. specialize (H eq_refl). congruence. }
    rewrite Hcr. cbn [recorded]. destruct (discordId member) as [d|] eqn:Hd; [|done].
    assert (Ht : truthy d = true) by (apply truthy_true; congruence).
    cbn [truthy_opt]. rewrite Ht. by rewrite bool_decide_eq_true_2.
Qed.

(** X10.  In a sound object the linkage events follow the change of the
    Discord id: for a well-formed record of a batch of pairwise distinct
    ids, the events about its entity are lifecycle events, then
    [disconnected] with the previous Discord id when the entity was linked
    and the record has another id or none, then [connected] when the record
    has a Discord id that is not the recorded one.  The dedup records
    suppress none of them. *)
Theorem linkage_events_are_the_diff (s : PatreonEvents)
    (memberships : list MembershipData) (clk : nat → Z) (member : MembershipData) :
  sound s → NoDup (id <$> memberships) → member ∈ memberships → well_formed member →
  ∃ first, Forall (lifecycle_event member) first
    ∧ List.filter (about (id member)) (emitted (run (reconcile memberships) s clk))
      = first ++ linkage_diff member (lastDiscordIds s !! id member).
Proof.
  intros (Hcoh & Hex & _) Hnd Hin Hwf.
  destruct (reconcile_local s memberships clk member Hnd Hin) as (w1 & Hv1 & Hf1 & -> & _).
  exists (status_events member (isFirstRun (self w1)) (view (id member) (self w1))).
  split; [apply lifecycle_status_events|].
  rewrite emitted_processMember_view, Hv1. f_equal. by apply linkage_events_sound.
Qed.

Lemma linkage_events_are_the_diff_witness :
  sound Linked.produced
  ∧ NoDup (id <$> [Linked.swapped; Linked.other])
  ∧ Linked.swapped ∈ [Linked.swapped; Linked.other]
  ∧ well_formed Linked.swapped
  ∧ ∃ first, Forall (lifecycle_event Linked.swapped) first
      ∧ List.filter (about (id Linked.swapped))
          (emitted (run (reconcile [Linked.swapped; Linked.other]) Linked.produced
                      Sample.clk))
        = first ++ linkage_diff Linked.swapped
                     (lastDiscordIds Linked.produced !! id Linked.swapped).
Proof.
  assert (H1 : sound Linked.produced) by apply sound_ticks, sound_new.
  assert (H2 : NoDup (id <$> [Linked.swapped; Linked.other])) by compute_done.
  assert (H3 : Linked.swapped ∈ [Linked.swapped; Linked.other]) by compute_done.
  assert (H4 : well_formed Linked.swapped) by (split; discriminate).
  repeat (split; [assumption|]).
  exact (linkage_events_are_the_diff Linked.produced [Linked.swapped; Linked.other]
           Sample.clk Linked.swapped H1 H2 H3 H4).
Defined.

(** * The events about an entity that is not in the batch *)

Lemma emitted_removeMember currentMembers i w :
  i ∉ currentMembers →
  emitted (removeMember currentMembers i w)
  = match lastDiscordIds (self w) !! i with
    | Some (Some d) =>
        if truthy d && negb (recorded (disconnectedDiscords (self w) !! i) (Some d))
        then [MemberEvent disconnected
                (bare_member i (or_else (JSMap.get i (lastMemberships (self w))) "none")
                   (Some d))]
        else []
    | _ => []
    end.
Proof.
  intros Hi. unfold removeMember.
  rewrite bool_decide_eq_false_2 by done. change (when (negb false)) with (when true).
  unfold when at 1. rewrite this_bind_run, !emitted_bind. simpl. rewrite !app_nil_r.
  destruct (lastDiscordIds (self w) !! i) as [[d|]|]; [|done|done].
  rewrite emitted_when. destruct (truthy d); [|done].
  rewrite emitted_emitOnce. cbn [andb]. simpl hasProcessedEvent.
  fold (recorded (disconnectedDiscords (self w) !! i) (Some d)).
  by destruct (recorded _ _).
Qed.

Lemma emitted_removeMember_about currentMembers i w :
  Forall (λ e, event_id e = Some i) (emitted (removeMember currentMembers i w)).
Proof.
  destruct (decide (i ∈ currentMembers)) as [Hin|Hi].
  { by rewrite removeMember_current. }
  rewrite emitted_removeMember by done.
  destruct (lastDiscordIds (self w) !! i) as [[d|]|]; [|done|done].
  destruct (_ && _); [|done]. by apply Forall_singleton.
Qed.

(** The events of a tick about an entity that has a status and is not in
    the batch are those of its turn in the removed-member loop, on an
    object that records about the entity what the object recorded when the
    tick started. *)
Lemma reconcile_removed (s : PatreonEvents) (memberships : list MembershipData)
    (clk : nat → Z) (i : entity_id) :
  keys_distinct s → i ∈ JSMap.keys (lastMemberships s) → i ∉ id <$> memberships →
  ∃ w2, view i (self w2) = view i s
    ∧ List.filter (about i) (emitted (run (reconcile memberships) s clk))
      = emitted (removeMember (list_to_set (id <$> memberships)) i w2).
Proof.
  intros Hnd Hk Hi. unfold run. set (w := mkWorld s clk 0).
  destruct (frame_forEach_processMember i (view i s) (isFirstRun s) memberships Hi
              (cleared w) (conj eq_refl eq_refl)) as [[Hv1 _] He1].
  destruct (keys_distinct_forEach_processMember memberships (cleared w) Hnd) as [Hnd1 _].
  fold (diffed memberships w) in Hv1, Hnd1.
  assert (Hk1 : i ∈ JSMap.keys (lastMemberships (self (diffed memberships w)))).
  { unfold diffed. apply keys_forEach_processMember. by left. }
  apply list_elem_of_split in Hk1 as (before & rest & Hkeys).
  assert (Hb : i ∉ before).
  { unfold keys_distinct in Hnd1. rewrite Hkeys in Hnd1.
    apply NoDup_app in Hnd1 as (_ & Hb & _). intros Hin. eapply Hb; [exact Hin | left]. }
  assert (Hr : i ∉ rest).
  { unfold keys_distinct in Hnd1. rewrite Hkeys in Hnd1.
    apply NoDup_app in Hnd1 as (_ & _ & Hr). by apply NoDup_cons in Hr as [Hr _]. }
  set (cur := list_to_set (id <$> memberships) : gset entity_id).
  destruct (frame_sweep_others i (view i s) (isFirstRun (self (diffed memberships w)))
              cur before Hb (diffed memberships w) (conj Hv1 eq_refl)) as [[Hv2 _] He2].
  set (w2 := after (forEach before (removeMember cur) (diffed memberships w))) in *.
  set (w3 := after (removeMember cur i w2)).
  destruct (frame_sweep_others i (view i (self w3)) (isFirstRun (self w3))
              cur rest Hr w3 (conj eq_refl eq_refl)) as [_ He4].
  exists w2. split; [done|].
  rewrite emitted_reconcile. unfold swept. fold cur. rewrite Hkeys.
  rewrite emitted_forEach_app. fold w2. rewrite forEach_cons, emitted_bind. fold w3.
  rewrite !List.filter_app.
  rewrite (filter_about_not_about _ _ He1), (filter_about_not_about _ _ He2),
    (filter_about_not_about _ _ He4), !app_nil_r. cbn [app].
  apply filter_about_all, emitted_removeMember_about.
Qed.

(** An entity without a status that is not in the batch: nothing is
    emitted about it. *)
Lemma reconcile_unknown (s : PatreonEvents) (memberships : list MembershipData)
    (clk : nat → Z) (i : entity_id) :
  i ∉ JSMap.keys (lastMemberships s) → i ∉ id <$> memberships →
  List.filter (about i) (emitted (run (reconcile memberships) s clk)) = [].
Proof.
  intros Hk Hi. unfold run. set (w := mkWorld s clk 0).
  destruct (frame_forEach_processMember i (view i s) (isFirstRun s) memberships Hi
              (cleared w) (conj eq_refl eq_refl)) as [[Hv1 _] He1].
  fold (diffed memberships w) in Hv1.
  assert (Hk1 : i ∉ JSMap.keys (lastMemberships (self (diffed memberships w)))).
  { unfold diffed. rewrite keys_forEach_processMember. intros [H|H]; [|done].
    by apply Hk. }
  destruct (frame_sweep_others i (view i s) (isFirstRun (self (diffed memberships w)))
              (list_to_set (id <$> memberships)) _ Hk1 (diffed memberships w)
              (conj Hv1 eq_refl)) as [_ He2].
  fold (swept memberships w) in He2.
  rewrite emitted_reconcile, List.filter_app.
  by rewrite (filter_about_not_about _ _ He1), (filter_about_not_about _ _ He2).
Qed.

(** X11.  In a sound object, for an entity that is not in the batch, the tick
    emits exactly one event about it, [disconnected] with its last status
    and Discord id, when it had a status and was linked, and no event
    otherwise. *)
Theorem removed_entity_in_sound_object (s : PatreonEvents)
    (memberships : list MembershipData) (clk : nat → Z) (i : entity_id) :
  sound s → i ∉ id <$> memberships →
  List.filter (about i) (emitted (run (reconcile memberships) s clk))
  = match JSMap.get i (lastMemberships s), lastDiscordIds s !! i with
    | Some st, Some (Some d) => [MemberEvent disconnected (bare_member i st (Some d))]
    | _, _ => []
    end.
Proof.
  intros (Hcoh & Hex & _ & _ & Hnd) Hi.
  destruct (Hcoh i) as (H1 & H2 & H3 & H4).
  destruct (JSMap.get i (lastMemberships s)) as [st|] eqn:Hget.
  - destruct (reconcile_removed s memberships clk i Hnd (get_Some_keys _ _ _ Hget) Hi)
      as (w2 & Hv2 & ->).
    rewrite emitted_removeMember by (by rewrite elem_of_list_to_set).
    change (lastDiscordIds (self w2) !! i) with (seen_discordId (view i (self w2))).
    change (disconnectedDiscords (self w2) !! i) with (seen_disconnected (view i (self w2))).
    change (JSMap.get i (lastMemberships (self w2))) with (seen_status (view i (self w2))).
    rewrite Hv2. cbn [view seen_discordId seen_disconnected seen_status]. rewrite Hget.
    destruct (lastDiscordIds s !! i) as [[d|]|] eqn:Hprev; [|done|done].
    assert (Hd : truthy d = true) by (apply truthy_true; congruence).
    assert (Hcr : connectedDiscords s !! i = Some d) by (by apply H4).
    assert (Hdr : disconnectedDiscords s !! i = None).
    { destruct (Hex i) as [H|H]; [congruence | done]. }
    rewrite Hd, Hdr. simpl.
    assert (Hst : truthy st = true) by (apply truthy_true; congruence).
    by rewrite Hst.
  - apply reconcile_unknown; [|done]. by apply get_None_keys.
Qed.

Lemma removed_entity_in_sound_object_witness :
  sound Linked.produced
  ∧ (Some "A" ∉ id <$> [Linked.other])
  ∧ List.filter (about (Some "A"))
      (emitted (run (reconcile [Linked.other]) Linked.produced Sample.clk))
    = match JSMap.get (Some "A") (lastMemberships Linked.produced),
            lastDiscordIds Linked.produced !! Some "A" with
      | Some st, Some (Some d) =>
          [MemberEvent disconnected (bare_member (Some "A") st (Some d))]
      | _, _ => []
      end.
Proof.
  assert (H1 : sound Linked.produced) by apply sound_ticks, sound_new.
  assert (H2 : Some "A" ∉ id <$> [Linked.other]) by compute_done.
  repeat (split; [assumption|]).
  exact (removed_entity_in_sound_object Linked.produced [Linked.other] Sample.clk
           (Some "A") H1 H2).
Defined.

(** * The constructor *)

Lemma loadCache_keeps (P : PatreonEvents → Prop) file w :
  (∀ f s, P s → P (set_lastMemberships f s)) →
  (∀ f s, P s → P (set_lastDiscordIds f s)) →
  (∀ f s, P s → P (set_subscribedMembers f s)) →
  (∀ f s, P s → P (set_canceledMembers f s)) →
  (∀ f s, P s → P (set_declinedMembers f s)) →
  (∀ f s, P s → P (set_reactivatedMembers f s)) →
  (∀ f s, P s → P (set_connectedDiscords f s)) →
  (∀ f s, P s → P (set_disconnectedDiscords f s)) →
  P (self w) → P (self (after (loadCache file w))).
Proof.
  intros H1 H2 H3 H4 H5 H6 H7 H8 H0. destruct file as [c|]; [|done].
  unfold loadCache, load.
  destruct c as [[?|] [?|] [?|] [?|] [?|] [?|] [?|] [?|]]; simpl; auto 10.
Qed.

Lemma isFirstRun_constructor file :
  isFirstRun (constructor file) = true ∧ discordToMemberMap (constructor file) = ∅.
Proof.
  unfold constructor.
  by apply (loadCache_keeps (λ s, isFirstRun s = true ∧ discordToMemberMap s = ∅)).
Qed.


(** * Lookup by Discord id *)

Lemma lookup_foldl_index_member (d : string) memberships acc :
  truthy d = true →
  foldl index_member acc memberships !! d
  = match last_linked d memberships with
    | Some member => Some member
    | None => acc !! d
    end.
Proof.
  intros Hd. unfold last_linked.
  induction memberships as [|member memberships IH] using rev_ind; [done|].
  rewrite foldl_app, List.filter_app. simpl.
  unfold index_member at 1.
  destruct (decide (discordId member = Some d)) as [Heq|Hne].
  - rewrite bool_decide_eq_true_2 by done. rewrite last_snoc.
    rewrite Heq, Hd. by rewrite lookup_insert_eq.
  - rewrite bool_decide_eq_false_2 by done. rewrite app_nil_r, <- IH.
    destruct (discordId member) as [d'|]; [|done].
    destruct (truthy d'); [|done]. rewrite lookup_insert_ne; [done|]. congruence.
Qed.

Lemma lookup_foldl_index_member_empty memberships :
  foldl index_member ∅ memberships !! EmptyString = None.
Proof.
  induction memberships as [|member memberships IH] using rev_ind; [done|].
  rewrite foldl_app. simpl. unfold index_member at 1.
  destruct (discordId member) as [d'|]; [|done].
  destruct (truthy d') eqn:Ht; [|done]. rewrite lookup_insert_ne; [done|].
  intros ->. done.
Qed.

Lemma getByDiscordId_after_reconcile trim memberships w discordId :
  getByDiscordId trim discordId (self (after (reconcile memberships w)))
  = if truthy (trim discordId) then last_linked (trim discordId) memberships else None.
Proof.
  unfold getByDiscordId. rewrite discordToMemberMap_after_reconcile.
  destruct (truthy (trim discordId)) eqn:Ht.
  - rewrite lookup_foldl_index_member by done. by destruct (last_linked _ _).
  - destruct (trim discordId); [|done]. apply lookup_foldl_index_member_empty.
Qed.


(** * The rest of a tick in the loop *)

Lemma rejects_fetchPages api :
  rejects api = match fetchPages api [] [] with Thrown _ => true | _ => false end.
Proof. unfold rejects. rewrite fetchPages_served. by destruct (ending api). Qed.

(** A call that cannot run to its end changes nothing, and its promise is
    rejected. *)
Lemma finishTick_rejected api l :
  fulfils api l = false → ∃ message, finishTick api l = (l, Some message).
Proof.
  unfold fulfils, finishTick. rewrite rejects_fetchPages.
  destruct (fetchPages api [] []) as [message| |ms incs]; [|done|done].
  destruct (errorListeners l); [|done]. intros _. by exists message.
Qed.

(** A call that can run to its end is [checkForUpdates]; it leaves the
    timers, the calls in flight and the unhandled rejections as they are. *)
Lemma finishTick_fulfilled api l :
  fulfils api l = true →
  ∃ l1, finishTick api l = (l1, None)
    ∧ world l1 = after (checkForUpdates api (world l))
    ∧ eventLog l1 = eventLog l ++ emitted (checkForUpdates api (world l))
    ∧ timers l1 = timers l ∧ nextHandle l1 = nextHandle l ∧ inFlight l1 = inFlight l
    ∧ unhandled l1 = unhandled l.
Proof.
  unfold fulfils, finishTick. rewrite rejects_fetchPages.
  destruct (fetchPages api [] []) as [message| |ms incs];
    [destruct (errorListeners l); [done|]|..]; intros _; eexists; by repeat split.
Qed.

Lemma finishTick_cases api l l1 error :
  finishTick api l = (l1, error) →
  (fulfils api l = true ∧ error = None)
  ∨ (fulfils api l = false ∧ l1 = l ∧ errorListeners l = [] ∧ is_Some error).
Proof.
  destruct (fulfils api l) eqn:Hf; intros Htick.
  - left. destruct (finishTick_fulfilled api l Hf) as (l1' & Hrun & _). split; congruence.
  - right. destruct (finishTick_rejected api l Hf) as (message & Hrun).
    rewrite Hrun in Htick. injection Htick as <- <-.
    repeat split; [|by eexists]. unfold fulfils in Hf.
    apply orb_false_iff in Hf as [_ Hf]. apply negb_false_iff in Hf.
    by apply bool_decide_eq_true_1 in Hf.
Qed.

(** * The [ready] event *)

Lemma eventLog_stop l : eventLog (stop l) = eventLog l.
Proof.
  unfold stop. rewrite lift_saveCache.
  destruct (intervalId (self (world l))); simpl;
    destruct (cacheSaveIntervalId (self (world l))); simpl; by rewrite ?app_nil_r.
Qed.

Lemma unhandled_stop l : unhandled (stop l) = unhandled l.
Proof.
  unfold stop. rewrite lift_saveCache.
  destruct (intervalId (self (world l))); simpl;
    by destruct (cacheSaveIntervalId (self (world l))).
Qed.

Lemma no_ready_checkForUpdates api w :
  count_events is_ready (emitted (checkForUpdates api w)) = 0.
Proof.
  destruct (checkForUpdates_reconcile api w) as (memberships & _ & _ & _ & ->).
  rewrite count_events_app.
  assert (H1 : count_events is_ready (emitted (fetchMemberships api w)) = 0).
  { unfold fetchMemberships. by destruct (fetchPages api [] []). }
  assert (H2 : count_events is_ready (emitted (reconcile memberships w)) = 0).
  { pose proof (member_events_only memberships w) as H. unfold count_events.
    induction H as [|e l (k & data & ->) _ IH]; [done | exact IH]. }
  by rewrite H1, H2.
Qed.

Lemma pending_delete (calls : list bool) (call : nat) (b : bool) :
  calls !! call = Some b →
  length (List.filter (λ b : bool, b) (delete call calls)) + (if b then 1 else 0)
  = length (List.filter (λ b : bool, b) calls).
Proof.
  revert call. induction calls as [|c calls IH]; intros call Hc; [done|].
  destruct call as [|call]; simpl in *.
  - injection Hc as ->. destruct b; simpl; lia.
  - specialize (IH call Hc). destruct c; simpl; lia.
Qed.

Lemma eventLog_initialize_then l :
  eventLog (initialize_then l) = eventLog l ++ [ReadyEvent]
  ∧ inFlight (initialize_then l) = inFlight l
  ∧ unhandled (initialize_then l) = unhandled l.
Proof. unfold initialize_then. simpl. by rewrite !app_nil_r. Qed.

Lemma ready_step a l l' :
  step a l = Some l' →
  count_events is_ready (eventLog l') + pending l' + failed l'
  = count_events is_ready (eventLog l) + pending l + failed l
    + (if is_CallInitialize a then 1 else 0).
Proof.
  unfold pending, failed. destruct a as [| |handle|call api| | |n]; simpl; intros Hstep.
  - injection Hstep as <-. simpl. rewrite List.filter_app, length_app. simpl. lia.
  - injection Hstep as <-. rewrite eventLog_stop, stop_inFlight, unhandled_stop. lia.
  - destruct (timers l !! handle) as [[|]|]; [| |done]; injection Hstep as <-.
    + simpl. rewrite List.filter_app, length_app. simpl. lia.
    + rewrite lift_saveCache. lia.
  - destruct (inFlight l !! call) as [b|] eqn:Hcall; [|done].
    pose proof (pending_delete _ _ _ Hcall) as Hp.
    pose proof (no_ready_checkForUpdates api (world l)) as Hn.
    set (l0 := mkLoop (world l) (timers l) (nextHandle l) (delete call (inFlight l))
                 (eventLog l) (errorListeners l) (unhandled l)) in *.
    destruct (finishTick api l0) as [l1 error] eqn:Htick.
    destruct (finishTick_cases api l0 l1 error Htick)
      as [[Hf ->] | (Hf & -> & Hnone & [message ->])].
    + destruct (finishTick_fulfilled api l0 Hf) as (l1' & Hrun & _ & Hlog & _ & _ & Hfl & Hun).
      rewrite Hrun in Htick. injection Htick as ->. subst l0.
      cbn [world eventLog inFlight unhandled] in Hlog, Hfl, Hun.
      injection Hstep as <-. destruct b.
      * destruct (eventLog_initialize_then l1) as (-> & -> & ->).
        rewrite Hlog, Hfl, Hun, !count_events_app, Hn.
        change (count_events is_ready [ReadyEvent]) with 1. lia.
      * rewrite Hlog, Hfl, Hun, !count_events_app, Hn. lia.
    + injection Hstep as <-. subst l0. simpl in Hnone. destruct b.
      * unfold initialize_catch. simpl. rewrite Hnone. simpl.
        rewrite List.filter_app, length_app. simpl. lia.
      * simpl. rewrite List.filter_app, length_app. simpl. lia.
  - injection Hstep as <-. simpl. lia.
  - injection Hstep as <-. simpl. lia.
  - injection Hstep as <-. simpl. lia.
Qed.

Lemma ready_exec actions l l' :
  exec actions l = Some l' →
  count_events is_ready (eventLog l') + pending l' + failed l'
  = count_events is_ready (eventLog l) + pending l + failed l
    + length (List.filter is_CallInitialize actions).
Proof.
  revert l. induction actions as [|a actions IH]; intros l Hexec; simpl in Hexec.
  - injection Hexec as <-. simpl. lia.
  - destruct (step a l) as [l1|] eqn:Hstep; [|done].
    rewrite (IH l1 Hexec), (ready_step a l l1 Hstep). simpl.
    destruct (is_CallInitialize a); simpl; lia.
Qed.

(** X14.  Every call of [initialize] ends in exactly one way.  Along every
    run of the event loop from a new object (calls of [initialize], [stop],
    [on], [once] and [off], timers firing, fetches completing or being
    rejected), the number of [ready] events emitted, plus the number of
    [initialize] calls that still wait for their fetch, plus the number of
    [initialize] calls that ended in an unhandled rejection (their fetch was
    rejected while no listener for [error] was registered, as it is after
    [stop]), is the number of [initialize] calls: [ready] is emitted at most
    once per [initialize], and never by a tick of the timer. *)
Theorem ready_once_per_initialize (actions : list Action) (s : PatreonEvents)
    (clk : nat → Z) (listeners : list bool) (l : Loop) :
  exec actions (boot s clk listeners) = Some l →
  count_events is_ready (eventLog l) + pending l + failed l
  = length (List.filter is_CallInitialize actions).
Proof. intros Hexec. by rewrite (ready_exec actions _ l Hexec). Qed.

Lemma ready_once_per_initialize_witness :
  ∃ l, exec Timers.silenced Timers.idle = Some l
    ∧ count_events is_ready (eventLog l) + pending l + failed l
      = length (List.filter is_CallInitialize Timers.silenced).
Proof.
  destruct (exec Timers.silenced Timers.idle) as [l|] eqn:Hexec; [|by vm_compute in Hexec].
  exists l. split; [reflexivity|].
  exact (ready_once_per_initialize Timers.silenced new_PatreonEvents Sample.clk [false] l
           Hexec).
Defined.

(** * [restart] *)

(** The tick of an [initialize] call made with no timer armed and no other
    [initialize] pending. *)
Lemma initialize_rearms l0 api :
  disarmed l0 → no_initial_call l0 →
  ∃ l', step (FetchCompletes (length (inFlight l0)) api) (initialize l0) = Some l'
    ∧ no_initial_call l'
    ∧ if fulfils api l0
      then armed l'
           ∧ eventLog l' = eventLog l0 ++ emitted (checkForUpdates api (world l0))
                           ++ [ReadyEvent]
      else disarmed l' ∧ eventLog l' = eventLog l0 ∧ unhandled l' = unhandled l0 ++ [true].
Proof.
  intros (Hi & Hc & Ht) Hcalls.
  destruct (handles_after_checkForUpdates api (world l0)) as [Hi' Hc'].
  assert (Hcall : (inFlight l0 ++ [true]) !! length (inFlight l0) = Some true).
  { rewrite lookup_app_r by done. by rewrite Nat.sub_diag. }
  assert (Hdel : delete (length (inFlight l0)) (inFlight l0 ++ [true]) = inFlight l0).
  { rewrite delete_middle. apply app_nil_r. }
  cbn [step initialize startTick inFlight world timers nextHandle eventLog
       errorListeners unhandled].
  rewrite Hcall, Hdel.
  assert (Hsame : mkLoop (world l0) (timers l0) (nextHandle l0) (inFlight l0) (eventLog l0)
                    (errorListeners l0) (unhandled l0) = l0) by (by destruct l0).
  rewrite Hsame. destruct (fulfils api l0) eqn:Hf.
  - destruct (finishTick_fulfilled api l0 Hf) as (l1 & -> & Hw & Hlog & Ht1 & Hn1 & Hfl & _).
    eexists. split; [reflexivity|].
    destruct (eventLog_initialize_then l1) as (Hlog' & Hfl' & _).
    split; [|split].
    + unfold no_initial_call. by rewrite Hfl', Hfl.
    + exists (nextHandle l0), (S (nextHandle l0)).
      split; [lia|]. unfold initialize_then. cbn. rewrite Ht1, Hn1, Ht.
      repeat split; by rewrite ?insert_empty.
    + by rewrite Hlog', Hlog, <- app_assoc.
  - destruct (finishTick_rejected api l0 Hf) as (message & ->).
    eexists. split; [reflexivity|].
    assert (Hnone : errorListeners l0 = []).
    { unfold fulfils in Hf. apply orb_false_iff in Hf as [_ Hf].
      apply negb_false_iff in Hf. by apply bool_decide_eq_true_1 in Hf. }
    unfold initialize_catch. rewrite Hnone. by repeat split.
Qed.

Lemma fulfils_listeners api l l' :
  errorListeners l' = errorListeners l → fulfils api l' = fulfils api l.
Proof. unfold fulfils. by intros ->. Qed.

(** [restart] is [initialize] on the object with its timers cleared. *)
Lemma restart_initialize l :
  armed l ∨ disarmed l →
  ∃ l0, restart l = initialize l0 ∧ disarmed l0 ∧ world l0 = world (stop l)
    ∧ inFlight l0 = inFlight l ∧ eventLog l0 = eventLog l ∧ unhandled l0 = unhandled l
    ∧ errorListeners l0 = errorListeners l.
Proof.
  intros Hst. pose proof (stop_disarms l Hst) as Hd. revert Hd.
  unfold restart, stop, disarmed. rewrite !lift_saveCache.
  destruct (intervalId (self (world l))); simpl;
    destruct (cacheSaveIntervalId (self (world l))); simpl; intros Hd;
    (eexists; split; [reflexivity|]); simpl; by rewrite ?app_nil_r.
Qed.

(** X15.  [restart] on an object whose timers are both armed or both
    cleared, with no [initialize] pending: the two timers are cleared at
    once.  When the tick that [restart] started completes, and unless its
    fetch was rejected with no listener for [error] registered, the object
    has exactly two timers again, the tick timer and the save timer, whose
    handles it remembers, and [ready] is emitted after the events of that
    tick.  When the fetch was rejected with no listener for [error], no
    timer is armed, nothing is emitted and the rejection is unhandled. *)
Theorem restart_rearms (l : Loop) (api : ApiScript) :
  armed l ∨ disarmed l → no_initial_call l →
  disarmed (restart l)
  ∧ ∃ l', step (FetchCompletes (length (inFlight l)) api) (restart l) = Some l'
      ∧ no_initial_call l'
      ∧ if fulfils api l
        then armed l'
             ∧ eventLog l' = eventLog l ++ emitted (checkForUpdates api (world (stop l)))
                             ++ [ReadyEvent]
        else disarmed l' ∧ eventLog l' = eventLog l ∧ unhandled l' = unhandled l ++ [true].
Proof.
  intros Hst Hcalls.
  destruct (restart_initialize l Hst) as (l0 & -> & Hd & Hw & Hfl & Hlog & Hun & Hls).
  split.
  { destruct Hd as (Hi & Hc & Ht). by repeat split. }
  rewrite <- Hfl, <- Hlog, <- Hun, <- Hw, <- (fulfils_listeners api l l0) by done.
  apply initialize_rearms; [done|]. unfold no_initial_call. by rewrite Hfl.
Qed.

Lemma restart_rearms_witness :
  (armed Running.running ∨ disarmed Running.running) ∧ no_initial_call Running.running
  ∧ disarmed (restart Running.running)
  ∧ ∃ l', step (FetchCompletes (length (inFlight Running.running)) Timers.api)
            (restart Running.running) = Some l'
      ∧ no_initial_call l'
      ∧ armed l'
      ∧ eventLog l'
        = eventLog Running.running
          ++ emitted (checkForUpdates Timers.api (world (stop Running.running)))
          ++ [ReadyEvent].
Proof.
  assert (H1 : armed Running.running ∨ disarmed Running.running).
  { left. exists 0, 1. split; [lia|]. by repeat split. }
  assert (H2 : no_initial_call Running.running) by constructor.
  repeat (split; [assumption|]).
  exact (restart_rearms Running.running Timers.api H1 H2).
Defined.

(** * The lifecycle event of a known entity *)

Lemma status_events_known member first v previous :
  seen_status v = Some previous → truthy previous = true →
  status_events member first v
  = match transition previous (status member) with
    | Some k => [MemberEvent k member]
    | None => []
    end.
Proof.
  intros Hv Ht. unfold status_events, transition. rewrite Hv. cbn [truthy_opt]. rewrite Ht.
  cbn [negb].
  destruct (decide (previous = status member)) as [Heq|Hne].
  { rewrite bool_decide_eq_false_2 by (intros H; apply H; congruence).
    by rewrite bool_decide_eq_true_2. }
  rewrite bool_decide_eq_true_2 by congruence.
  rewrite (bool_decide_eq_false_2 (previous = status member)) by done.
  destruct (decide (status member = "former_patron")) as [->|Hn1]; [done|].
  rewrite (bool_decide_eq_false_2 _ Hn1).
  destruct (decide (status member = "declined_patron")) as [->|Hn2]; [done|].
  rewrite (bool_decide_eq_false_2 _ Hn2).
  destruct (decide (status member = "active_patron")) as [->|Hn3].
  { simpl.
    assert (Hp : ∀ x : string, bool_decide (Some previous = Some x)
                               = bool_decide (previous = x)).
    { intros x. apply bool_decide_ext. split; congruence. }
    rewrite !Hp. by destruct (_ || _). }
  rewrite (bool_decide_eq_false_2 _ Hn3). simpl.
  by destruct (bool_decide (status member = "none")).
Qed.

Lemma linkage_linkage_events member v :
  Forall (linkage_event member) (linkage_events member v).
Proof.
  assert (Hc : linkage_event member (MemberEvent connected member)).
  { exists connected, (discordId member). by rewrite with_discordId_same. }
  assert (Hd : ∀ p, linkage_event member
                      (MemberEvent disconnected (with_discordId member p))).
  { intros p. by exists disconnected, p. }
  unfold linkage_events.
  repeat (apply Forall_nil_2 || apply Forall_cons_2 || case_match); auto.
Qed.

(** X16.  For a record of a batch of pairwise distinct ids whose entity has
    a previous status that is not empty, the events about the entity are at
    most one lifecycle event followed by linkage events, and the lifecycle
    event is a function of the two statuses: none when they are equal;
    otherwise [canceled] for [former_patron], [declined] for
    [declined_patron], [reactivated] for [active_patron] when the previous
    status is [former_patron] or [declined_patron], [expired] for ["none"],
    and none in every other case. *)
Theorem lifecycle_event_of_known_entity (s : PatreonEvents)
    (memberships : list MembershipData) (clk : nat → Z) (member : MembershipData)
    (previous : string) :
  NoDup (id <$> memberships) → member ∈ memberships →
  JSMap.get (id member) (lastMemberships s) = Some previous → previous ≠ EmptyString →
  ∃ second, Forall (linkage_event member) second
    ∧ List.filter (about (id member)) (emitted (run (reconcile memberships) s clk))
      = match transition previous (status member) with
        | Some k => [MemberEvent k member]
        | None => []
        end ++ second.
Proof.
  intros Hnd Hin Hget Hprev.
  destruct (reconcile_local s memberships clk member Hnd Hin) as (w1 & Hv1 & Hf1 & -> & _).
  exists (linkage_events member (view (id member) (self w1))).
  split; [apply linkage_linkage_events|].
  rewrite emitted_processMember_view. f_equal.
  apply status_events_known; [|by apply truthy_true]. by rewrite Hv1.
Qed.

Lemma lifecycle_event_of_known_entity_witness :
  NoDup (id <$> [Linked.former; Linked.other])
  ∧ Linked.former ∈ [Linked.former; Linked.other]
  ∧ JSMap.get (id Linked.former) (lastMemberships Sample.linked) = Some "active_patron"
  ∧ "active_patron" ≠ EmptyString
  ∧ ∃ second, Forall (linkage_event Linked.former) second
      ∧ List.filter (about (id Linked.former))
          (emitted (run (reconcile [Linked.former; Linked.other]) Sample.linked Sample.clk))
        = match transition "active_patron" (status Linked.former) with
          | Some k => [MemberEvent k Linked.former]
          | None => []
          end ++ second.
Proof.
  assert (H1 : NoDup (id <$> [Linked.former; Linked.other])) by compute_done.
  assert (H2 : Linked.former ∈ [Linked.former; Linked.other]) by compute_done.
  assert (H3 : JSMap.get (id Linked.former) (lastMemberships Sample.linked)
               = Some "active_patron") by reflexivity.
  assert (H4 : "active_patron" ≠ EmptyString) by discriminate.
  repeat (split; [assumption|]).
  exact (lifecycle_event_of_known_entity Sample.linked [Linked.former; Linked.other]
           Sample.clk Linked.former "active_patron" H1 H2 H3 H4).
Defined.

(** * A tick that finds nothing new *)

Lemma reconcile_settled memberships w :
  Forall well_formed memberships → Forall (settled (self w)) memberships →
  (∀ k, k ∈ JSMap.keys (lastMemberships (self w)) → k ∈ id <$> memberships) →
  emitted (reconcile memberships w) = []
  ∧ self (after (reconcile memberships w))
    = set_isFirstRun false
        (set_discordToMemberMap (λ _, foldl index_member ∅ memberships) (self w)).
Proof.
  intros Hwf Hset Hkeys.
  destruct (forEach_settled memberships (cleared w) Hwf) as [He1 Hs1].
  { eapply Forall_impl; [exact Hset|]. by intros m [Hm Hl]. }
  fold (diffed memberships w) in Hs1.
  assert (Hsweep : swept memberships w = mkOut tt (diffed memberships w) []).
  { unfold swept. apply forEach_removeMember_current. intros k Hk.
    apply elem_of_list_to_set. rewrite Hs1 in Hk. by apply Hkeys. }
  split.
  - by rewrite emitted_reconcile, He1, Hsweep.
  - rewrite self_after_reconcile, Hsweep. simpl after. by rewrite Hs1.
Qed.

(** X17.  A tick that finds nothing new is silent: when the object already
    holds the status and the Discord id of every record of a batch of
    well-formed records, and has no status for an entity outside the batch,
    the tick emits nothing and changes nothing but the index by Discord id,
    which it rebuilds, and the first-run flag, which it clears. *)
Theorem no_change_no_events (s : PatreonEvents) (memberships : list MembershipData)
    (clk : nat → Z) :
  Forall well_formed memberships → Forall (settled s) memberships →
  (∀ k, k ∈ JSMap.keys (lastMemberships s) → k ∈ id <$> memberships) →
  emitted (run (reconcile memberships) s clk) = []
  ∧ state_after (run (reconcile memberships) s clk)
    = set_isFirstRun false
        (set_discordToMemberMap (λ _, foldl index_member ∅ memberships) s).
Proof. intros Hwf Hset Hkeys. by apply (reconcile_settled memberships (mkWorld s clk 0)). Qed.

Lemma no_change_no_events_witness :
  Forall well_formed [Linked.same] ∧ Forall (settled Sample.linked) [Linked.same]
  ∧ (∀ k, k ∈ JSMap.keys (lastMemberships Sample.linked) → k ∈ id <$> [Linked.same])
  ∧ emitted (run (reconcile [Linked.same]) Sample.linked Sample.clk) = []
  ∧ state_after (run (reconcile [Linked.same]) Sample.linked Sample.clk)
    = set_isFirstRun false
        (set_discordToMemberMap (λ _, foldl index_member ∅ [Linked.same]) Sample.linked).
Proof.
  assert (H1 : Forall well_formed [Linked.same]).
  { repeat constructor; discriminate. }
  assert (H2 : Forall (settled Sample.linked) [Linked.same]).
  { repeat constructor. }
  assert (H3 : ∀ k, k ∈ JSMap.keys (lastMemberships Sample.linked)
                    → k ∈ id <$> [Linked.same]).
  { intros k Hk. exact Hk. }
  repeat (split; [assumption|]).
  exact (no_change_no_events Sample.linked [Linked.same] Sample.clk H1 H2 H3).
Defined.

(** * A fetch that fails, on any object *)

Lemma checkForUpdates_failed api w :
  ending api ≠ Complete →
  self (after (checkForUpdates api w)) = self (after (reconcile [] w))
  ∧ emitted (checkForUpdates api w)
    = match ending api with
      | Rejected message => [ErrorEvent message]
      | _ => []
      end ++ emitted (reconcile [] w).
Proof.
  intros Hend. unfold checkForUpdates, fetchMemberships. rewrite fetchPages_served.
  by destruct (ending api).
Qed.

Lemma keys_nil (m : JSMap.t entity_id string) : (∀ k, k ∉ JSMap.keys m) → m = [].
Proof.
  destruct m as [|[k v] m]; [done|]. intros H. exfalso. apply (H k). by left.
Qed.



(** * Calling [initialize] on a running object *)

(** X19.  [initialize] called on an object whose timers are armed leaks
    them: once its tick has completed, and unless its fetch was rejected
    with no listener for [error] registered, the object remembers only the
    two new handles, so that [stop] leaves the two old timers armed, and the
    old tick timer still starts ticks.  When the fetch was rejected with no
    listener for [error], the call arms nothing: the timers are those the
    object had, and [stop] clears them. *)
Theorem second_initialize_leaks_timers (l : Loop) (api : ApiScript) :
  armed l → handles_fresh l →
  ∃ l', step (FetchCompletes (length (inFlight l)) api) (initialize l) = Some l'
    ∧ if fulfils api l
      then timers (stop l') = timers l ∧ ∃ h, startsTick (TimerFires h) (stop l') = true
      else timers l' = timers l ∧ timers (stop l') = ∅.
Proof.
  intros Harmed Hfresh. pose proof Harmed as (h1 & h2 & Hne & Hi & Hc & Ht).
  assert (Hcall : (inFlight l ++ [true]) !! length (inFlight l) = Some true).
  { rewrite lookup_app_r by done. by rewrite Nat.sub_diag. }
  assert (Hdel : delete (length (inFlight l)) (inFlight l ++ [true]) = inFlight l).
  { rewrite delete_middle. apply app_nil_r. }
  cbn [step initialize startTick inFlight world timers nextHandle eventLog
       errorListeners unhandled].
  rewrite Hcall, Hdel.
  assert (Hsame : mkLoop (world l) (timers l) (nextHandle l) (inFlight l) (eventLog l)
                    (errorListeners l) (unhandled l) = l) by (by destruct l).
  rewrite Hsame. destruct (fulfils api l) eqn:Hf.
  - destruct (finishTick_fulfilled api l Hf) as (l1 & -> & _ & _ & Ht1 & Hn1 & _ & _).
    eexists. split; [reflexivity|].
    assert (Hn1' : timers l !! nextHandle l = None).
    { destruct (timers l !! nextHandle l) as [j|] eqn:Hj; [|done].
      assert (nextHandle l < nextHandle l) by (apply Hfresh; by rewrite Hj). lia. }
    assert (Hn2 : timers l !! S (nextHandle l) = None).
    { destruct (timers l !! S (nextHandle l)) as [j|] eqn:Hj; [|done].
      assert (S (nextHandle l) < nextHandle l) by (apply Hfresh; by rewrite Hj). lia. }
    assert (Htimers : timers (stop (initialize_then l1)) = timers l).
    { unfold stop, initialize_then. cbn. rewrite Ht1, Hn1.
      rewrite delete_insert_ne by lia. rewrite delete_insert_eq.
      rewrite delete_insert_eq. rewrite (delete_id _ (nextHandle l)) by done.
      by apply delete_id. }
    split; [exact Htimers|]. exists h1. unfold startsTick. rewrite Htimers, Ht.
    rewrite lookup_insert_ne by done. by rewrite lookup_singleton_eq.
  - destruct (finishTick_rejected api l Hf) as (message & ->).
    eexists. split; [reflexivity|].
    assert (Hnone : errorListeners l = []).
    { unfold fulfils in Hf. apply orb_false_iff in Hf as [_ Hf].
      apply negb_false_iff in Hf. by apply bool_decide_eq_true_1 in Hf. }
    unfold initialize_catch. rewrite Hnone. split; [done|].
    apply stop_clears. left. exists h1, h2. by repeat split.
Qed.

Lemma second_initialize_leaks_timers_witness :
  armed Running.running ∧ handles_fresh Running.running
  ∧ ∃ l', step (FetchCompletes (length (inFlight Running.running)) Timers.api)
            (initialize Running.running) = Some l'
      ∧ timers (stop l') = timers Running.running
      ∧ ∃ h, startsTick (TimerFires h) (stop l') = true.
Proof.
  assert (H1 : armed Running.running).
  { exists 0, 1. split; [lia|]. by repeat split. }
  assert (H2 : handles_fresh Running.running).
  { intros [|[|h]]; simpl; [lia|lia|].
    rewrite lookup_insert_ne by lia. rewrite lookup_singleton_ne by lia.
    by intros [? ?]. }
  repeat (split; [assumption|]).
  exact (second_initialize_leaks_timers Running.running Timers.api H1 H2).
Defined.

(** * A fetch that is rejected after [stop] *)

Lemma stop_facts l :
  errorListeners (stop l) = [] ∧ nextHandle (stop l) = nextHandle l.
Proof.
  unfold stop. rewrite lift_saveCache.
  destruct (intervalId (self (world l))); simpl;
    by destruct (cacheSaveIntervalId (self (world l))).
Qed.

(** X24.  [stop] does not cancel the ticks that wait for their fetch, and
    it removes every listener.  So when the fetch of such a tick is rejected
    after [stop], [emit('error')] throws instead of reporting: the tick
    leaves the object, the timers and the emitted events as [stop] left them
    (no [error] event, no empty batch reconciled, no timer armed and no
    [ready], also for the tick of [initialize]), and the call ends in a
    rejection that nothing handles. *)
Theorem rejected_fetch_after_stop (l : Loop) (call : nat) (api : ApiScript)
    (fromInitialize : bool) :
  inFlight l !! call = Some fromInitialize → rejects api = true →
  ∃ l', step (FetchCompletes call api) (stop l) = Some l'
    ∧ world l' = world (stop l) ∧ timers l' = timers (stop l)
    ∧ eventLog l' = eventLog l
    ∧ inFlight l' = delete call (inFlight l)
    ∧ unhandled l' = unhandled l ++ [fromInitialize].
Proof.
  intros Hcall Hrej. destruct (stop_facts l) as [Hnone _].
  cbn [step]. rewrite stop_inFlight, Hcall.
  set (l0 := mkLoop (world (stop l)) (timers (stop l)) (nextHandle (stop l))
               (delete call (inFlight l)) (eventLog (stop l)) (errorListeners (stop l))
               (unhandled (stop l))).
  assert (Hf : fulfils api l0 = false).
  { unfold fulfils. rewrite Hrej. unfold l0. cbn [errorListeners]. by rewrite Hnone. }
  destruct (finishTick_rejected api l0 Hf) as (message & ->).
  eexists. split; [reflexivity|].
  unfold initialize_catch, l0. cbn [errorListeners]. rewrite Hnone.
  rewrite <- (eventLog_stop l), <- (unhandled_stop l). by destruct fromInitialize.
Qed.

Lemma rejected_fetch_after_stop_witness :
  inFlight (initialize Timers.idle) !! 0 = Some true
  ∧ rejects (Rejects "ECONNRESET") = true
  ∧ ∃ l', step (FetchCompletes 0 (Rejects "ECONNRESET")) (stop (initialize Timers.idle))
          = Some l'
    ∧ world l' = world (stop (initialize Timers.idle))
    ∧ timers l' = timers (stop (initialize Timers.idle))
    ∧ eventLog l' = eventLog (initialize Timers.idle)
    ∧ inFlight l' = delete 0 (inFlight (initialize Timers.idle))
    ∧ unhandled l' = unhandled (initialize Timers.idle) ++ [true].
Proof.
  assert (H1 : inFlight (initialize Timers.idle) !! 0 = Some true) by reflexivity.
  assert (H2 : rejects (Rejects "ECONNRESET") = true) by reflexivity.
  repeat (split; [assumption|]).
  exact (rejected_fetch_after_stop (initialize Timers.idle) 0 (Rejects "ECONNRESET") true
           H1 H2).
Defined.

(** * A start from a cache that is up to date *)

Lemma Map_of_entries_snoc entries entry :
  Map_of_entries (entries ++ [entry])
  = JSMap.set (Some entry.1) entry.2 (Map_of_entries entries).
Proof. unfold Map_of_entries. by rewrite foldl_app. Qed.

Lemma gmap_of_entries_snoc {V : Type} (entries : list (string * V)) entry :
  gmap_of_entries (entries ++ [entry])
  = <[Some entry.1 := entry.2]> (gmap_of_entries entries).
Proof. unfold gmap_of_entries. by rewrite foldl_app. Qed.

Lemma get_Map_of_entries entries k v :
  NoDup entries.*1 → (k, v) ∈ entries →
  JSMap.get (Some k) (Map_of_entries entries) = Some v.
Proof.
  induction entries as [|[k' v'] entries IH] using rev_ind; [by intros _ ?%elem_of_nil|].
  rewrite fmap_app. intros Hnd [Hin|Hin%list_elem_of_singleton]%elem_of_app.
  - apply NoDup_app in Hnd as (Hnd & Hdis & _). rewrite Map_of_entries_snoc. simpl.
    rewrite get_set_ne; [by apply IH|]. intros [= <-].
    apply (Hdis k'); [|by left]. apply list_elem_of_fmap. by exists (k', v).
  - injection Hin as -> ->. rewrite Map_of_entries_snoc. apply get_set_eq.
Qed.

Lemma keys_Map_of_entries entries i :
  i ∈ JSMap.keys (Map_of_entries entries) → ∃ k, i = Some k ∧ k ∈ entries.*1.
Proof.
  induction entries as [|[k' v'] entries IH] using rev_ind; [by intros ?%elem_of_nil|].
  rewrite Map_of_entries_snoc, fmap_app. simpl.
  intros [->|Hin]%elem_of_keys_set.
  - exists k'. split; [done|]. apply elem_of_app. right. by left.
  - destruct (IH Hin) as (k & -> & Hk). exists k. split; [done|]. apply elem_of_app. by left.
Qed.

Lemma lookup_gmap_of_entries {V : Type} (entries : list (string * V)) k v :
  NoDup entries.*1 → (k, v) ∈ entries → gmap_of_entries entries !! Some k = Some v.
Proof.
  induction entries as [|[k' v'] entries IH] using rev_ind; [by intros _ ?%elem_of_nil|].
  rewrite fmap_app. intros Hnd [Hin|Hin%list_elem_of_singleton]%elem_of_app.
  - apply NoDup_app in Hnd as (Hnd & Hdis & _). rewrite gmap_of_entries_snoc. simpl.
    rewrite lookup_insert_ne; [by apply IH|]. intros [= <-].
    apply (Hdis k'); [|by left]. apply list_elem_of_fmap. by exists (k', v).
  - injection Hin as -> ->. rewrite gmap_of_entries_snoc. apply lookup_insert_eq.
Qed.

Lemma maps_loadCache cacheData w :
  lastMemberships (self (after (loadCache (Some cacheData) w)))
  = match cache_memberships cacheData with
    | Some entries => Map_of_entries entries
    | None => lastMemberships (self w)
    end
  ∧ lastDiscordIds (self (after (loadCache (Some cacheData) w)))
    = match cache_discordIds cacheData with
      | Some entries => gmap_of_entries entries
      | None => lastDiscordIds (self w)
      end.
Proof.
  destruct cacheData as [m d [?|] [?|] [?|] [?|] [?|] [?|]]; destruct m, d; done.
Qed.

(** X20.  An object constructed from a cache file that holds, under its id,
    the status and the Discord id of every record of a batch of well-formed
    records, and no status for any other entity, emits nothing when it
    reconciles that batch. *)
Theorem warm_start_is_silent (cacheData : CacheData)
    (entries : list (string * string)) (links : list (string * option string))
    (memberships : list MembershipData) (clk : nat → Z) :
  cache_memberships cacheData = Some entries → cache_discordIds cacheData = Some links →
  NoDup entries.*1 → NoDup links.*1 →
  Forall well_formed memberships → Forall (cached entries links) memberships →
  (∀ k, k ∈ entries.*1 → Some k ∈ id <$> memberships) →
  emitted (run (reconcile memberships) (constructor (Some cacheData)) clk) = [].
Proof.
  intros Hm Hd Hnd1 Hnd2 Hwf Hcached Hkeys.
  destruct (maps_loadCache cacheData (mkWorld new_PatreonEvents (λ _, 0%Z) 0)) as [H1 H2].
  rewrite Hm in H1. rewrite Hd in H2. fold (constructor (Some cacheData)) in H1, H2.
  apply (reconcile_settled memberships (mkWorld (constructor (Some cacheData)) clk 0));
    [done| |].
  - eapply Forall_impl; [exact Hcached|]. intros member (k & Hid & Hst & Hl).
    split; simpl; rewrite Hid.
    + rewrite H1. by apply get_Map_of_entries.
    + rewrite H2. by apply lookup_gmap_of_entries.
  - simpl. rewrite H1. intros i (k & -> & Hk)%keys_Map_of_entries. by apply Hkeys.
Qed.

Lemma warm_start_is_silent_witness :
  cache_memberships Linked.cache = Some [("A", "active_patron")]
  ∧ cache_discordIds Linked.cache = Some [("A", Some "D1")]
  ∧ NoDup [("A", "active_patron")].*1 ∧ NoDup [("A", Some "D1")].*1
  ∧ Forall well_formed [Linked.same]
  ∧ Forall (cached [("A", "active_patron")] [("A", Some "D1")]) [Linked.same]
  ∧ (∀ k, k ∈ [("A", "active_patron")].*1 → Some k ∈ id <$> [Linked.same])
  ∧ emitted (run (reconcile [Linked.same]) (constructor (Some Linked.cache)) Sample.clk) = [].
Proof.
  assert (H1 : cache_memberships Linked.cache = Some [("A", "active_patron")])
    by reflexivity.
  assert (H2 : cache_discordIds Linked.cache = Some [("A", Some "D1")]) by reflexivity.
  assert (H3 : NoDup [("A", "active_patron")].*1) by compute_done.
  assert (H4 : NoDup [("A", Some "D1")].*1) by compute_done.
  assert (H5 : Forall well_formed [Linked.same]).
  { repeat constructor; discriminate. }
  assert (H6 : Forall (cached [("A", "active_patron")] [("A", Some "D1")]) [Linked.same]).
  { repeat constructor. exists "A". repeat split; by left. }
  assert (H7 : ∀ k, k ∈ [("A", "active_patron")].*1 → Some k ∈ id <$> [Linked.same]).
  { intros k Hk%list_elem_of_singleton. subst k. by left. }
  repeat (split; [assumption|]).
  exact (warm_start_is_silent Linked.cache [("A", "active_patron")] [("A", Some "D1")]
           [Linked.same] Sample.clk H1 H2 H3 H4 H5 H6 H7).
Defined.

(** * The events of a tick, from the object it starts on *)

Lemma flat_map_ext_elem_of {A B : Type} (f g : A → list B) (l : list A) :
  (∀ x, x ∈ l → f x = g x) → flat_map f l = flat_map g l.
Proof.
  induction l as [|x l IH]; intros H; [done|]. simpl.
  rewrite (H x) by left. rewrite IH; [done|]. intros y Hy. apply H. by right.
Qed.

Lemma isFirstRun_processMember member w :
  isFirstRun (self (after (processMember member w))) = isFirstRun (self w).
Proof.
  rewrite self_after_processMember. simpl.
  apply (halves_keep (λ s, isFirstRun s = isFirstRun (self w))).
  - intros k x now s Hs. by rewrite isFirstRun_track.
  - by destruct (self_indexed_fields member w) as (_ & _ & Hf & _).
Qed.

Lemma record_events_view first s s' member :
  view (id member) s' = view (id member) s →
  record_events first s' member = record_events first s member.
Proof. intros Hv. unfold record_events. by rewrite Hv. Qed.

Lemma emitted_forEach_processMember_view memberships w :
  NoDup (id <$> memberships) →
  emitted (forEach memberships processMember w)
  = flat_map (record_events (isFirstRun (self w)) (self w)) memberships.
Proof.
  revert w. induction memberships as [|member memberships IH]; intros w Hnd; [done|].
  rewrite fmap_cons in Hnd. apply NoDup_cons in Hnd as [Hm Hnd].
  rewrite forEach_cons, emitted_bind, IH by done. cbn [flat_map].
  rewrite emitted_processMember_view. unfold record_events at 3. f_equal.
  rewrite isFirstRun_processMember. apply flat_map_ext_elem_of. intros x Hx.
  apply record_events_view, view_processMember_ne. intros Heq. apply Hm.
  rewrite Heq. by apply list_elem_of_fmap_2.
Qed.

Lemma removal_events_view memberships s s' i :
  view i s' = view i s → removal_events memberships s' i = removal_events memberships s i.
Proof.
  intros Hv. unfold removal_events.
  pose proof (f_equal seen_status Hv) as H1. pose proof (f_equal seen_discordId Hv) as H2.
  pose proof (f_equal seen_disconnected Hv) as H3. simpl in H1, H2, H3.
  by rewrite H1, H2, H3.
Qed.

Lemma emitted_removeMember_view memberships i w :
  emitted (removeMember (list_to_set (id <$> memberships)) i w)
  = removal_events memberships (self w) i.
Proof.
  unfold removal_events. destruct (decide (i ∈ id <$> memberships)) as [Hin|Hi].
  - rewrite bool_decide_eq_true_2 by done.
    by rewrite removeMember_current by (by apply elem_of_list_to_set).
  - rewrite bool_decide_eq_false_2 by done.
    by rewrite emitted_removeMember by (by rewrite elem_of_list_to_set).
Qed.

Lemma emitted_sweep_view memberships keys w :
  NoDup keys →
  emitted (forEach keys (removeMember (list_to_set (id <$> memberships))) w)
  = flat_map (removal_events memberships (self w)) keys.
Proof.
  revert w. induction keys as [|i keys IH]; intros w Hnd; [done|].
  apply NoDup_cons in Hnd as [Hi Hnd].
  rewrite forEach_cons, emitted_bind, IH by done. cbn [flat_map].
  rewrite emitted_removeMember_view. f_equal.
  apply flat_map_ext_elem_of. intros j Hj.
  apply removal_events_view, view_removeMember_ne. by intros ->.
Qed.

(** The keys of the status map after the records of the batch: those it
    had, then new ones, which are ids of the batch. *)
Lemma keys_set_app (m : JSMap.t entity_id string) i st :
  ∃ extra, JSMap.keys (JSMap.set i st m) = JSMap.keys m ++ extra
    ∧ ∀ k, k ∈ extra → k = i.
Proof.
  unfold JSMap.keys. induction m as [|[k v] m IH]; simpl.
  - exists [i]. split; [done|]. by intros k ->%list_elem_of_singleton.
  - destruct (decide (i = k)) as [->|Hne]; simpl.
    + exists []. split; [by rewrite app_nil_r|]. by intros k' ?%elem_of_nil.
    + destruct IH as (extra & Heq & Hextra). exists extra. split; [|done].
      simpl. f_equal. exact Heq.
Qed.

Lemma keys_forEach_processMember_app memberships w :
  ∃ extra,
    JSMap.keys (lastMemberships (self (after (forEach memberships processMember w))))
    = JSMap.keys (lastMemberships (self w)) ++ extra
    ∧ ∀ k, k ∈ extra → k ∈ id <$> memberships.
Proof.
  revert w. induction memberships as [|member memberships IH]; intros w.
  - exists []. split; [by rewrite app_nil_r|]. by intros k ?%elem_of_nil.
  - rewrite forEach_cons, after_bind.
    destruct (IH (after (processMember member w))) as (extra2 & -> & H2).
    rewrite lastMemberships_after_processMember.
    destruct (keys_set_app (lastMemberships (self w)) (id member) (status member))
      as (extra1 & -> & H1).
    exists (extra1 ++ extra2). split; [by rewrite app_assoc|].
    intros k [Hk|Hk]%elem_of_app; rewrite fmap_cons.
    + rewrite (H1 k Hk). by left.
    + right. by apply H2.
Qed.

Lemma emitted_reconcile_view memberships w :
  keys_distinct (self w) → NoDup (id <$> memberships) →
  emitted (reconcile memberships w)
  = flat_map (record_events (isFirstRun (self w)) (self w)) memberships
    ++ flat_map (removal_events memberships (self w)) (JSMap.keys (lastMemberships (self w))).
Proof.
  intros Hkeys Hnd. rewrite emitted_reconcile. f_equal.
  - by rewrite emitted_forEach_processMember_view.
  - unfold swept.
    destruct (keys_distinct_forEach_processMember memberships (cleared w) Hkeys) as [Hnd1 _].
    fold (diffed memberships w) in Hnd1. rewrite emitted_sweep_view by exact Hnd1.
    destruct (keys_forEach_processMember_app memberships (cleared w)) as (extra & Heq & Hextra).
    fold (diffed memberships w) in Heq. rewrite Heq, flat_map_app.
    assert (Hnone : flat_map (removal_events memberships (self (diffed memberships w))) extra
                    = []).
    { clear Heq. induction extra as [|k extra IH]; [done|]. simpl.
      rewrite IH by (intros j Hj; apply Hextra; by right).
      unfold removal_events. by rewrite bool_decide_eq_true_2 by (apply Hextra; left). }
    rewrite Hnone, app_nil_r. apply flat_map_ext_elem_of. intros i Hi.
    unfold removal_events at 1 2.
    destruct (decide (i ∈ id <$> memberships)) as [Hin|Hout].
    { by rewrite !bool_decide_eq_true_2. }
    fold (removal_events memberships (self (diffed memberships w)) i).
    fold (removal_events memberships (self w) i).
    apply removal_events_view.
    by destruct (frame_forEach_processMember i (view i (self w)) (isFirstRun (self w))
                   memberships Hout (cleared w) (conj eq_refl eq_refl)) as [[Hv _] _].
Qed.

(** X21.  The events of a tick are a function of the batch and of the object
    it starts on.  With pairwise distinct ids in the batch (and distinct
    keys in the status map), the tick emits, for each record in batch
    order, its lifecycle events and then its linkage events, as the guards
    of lines 461-515 give them on what the object recorded about the entity
    when the tick started; and then, for each key of the status map in
    insertion order that is not an id of the batch, [disconnected] with the
    last status and Discord id when the entity was linked and that
    disconnection is not recorded yet. *)
Theorem events_of_a_tick (s : PatreonEvents) (memberships : list MembershipData)
    (clk : nat → Z) :
  keys_distinct s → NoDup (id <$> memberships) →
  emitted (run (reconcile memberships) s clk)
  = flat_map (record_events (isFirstRun s) s) memberships
    ++ flat_map (removal_events memberships s) (JSMap.keys (lastMemberships s)).
Proof. intros Hkeys Hnd. by apply (emitted_reconcile_view memberships (mkWorld s clk 0)). Qed.

Lemma events_of_a_tick_witness :
  keys_distinct Sample.linked ∧ NoDup (id <$> [Linked.swapped; Linked.other])
  ∧ emitted (run (reconcile [Linked.swapped; Linked.other]) Sample.linked Sample.clk)
    = flat_map (record_events (isFirstRun Sample.linked) Sample.linked)
        [Linked.swapped; Linked.other]
      ++ flat_map (removal_events [Linked.swapped; Linked.other] Sample.linked)
           (JSMap.keys (lastMemberships Sample.linked)).
Proof.
  assert (H1 : keys_distinct Sample.linked) by compute_done.
  assert (H2 : NoDup (id <$> [Linked.swapped; Linked.other])) by compute_done.
  repeat (split; [assumption|]).
  exact (events_of_a_tick Sample.linked [Linked.swapped; Linked.other] Sample.clk H1 H2).
Defined.

(** X22.  A cold start announces the linked members only: the first tick of
    a new object, on a batch of pairwise distinct ids, emits [connected]
    for each record that has a Discord id, in batch order, and nothing
    else. *)
Theorem cold_start_connects (memberships : list MembershipData) (clk : nat → Z) :
  NoDup (id <$> memberships) →
  emitted (run (reconcile memberships) new_PatreonEvents clk)
  = flat_map (λ member, if truthy_opt (discordId member)
                        then [MemberEvent connected member] else []) memberships.
Proof.
  intros Hnd. unfold run.
  rewrite (emitted_reconcile_view memberships (mkWorld new_PatreonEvents clk 0));
    [|apply NoDup_nil_2|done].
  simpl. rewrite app_nil_r. apply flat_map_ext_elem_of. intros member _.
  unfold record_events, status_events, linkage_events. simpl.
  rewrite !lookup_empty. simpl. by destruct (truthy_opt (discordId member)).
Qed.

Lemma cold_start_connects_witness :
  NoDup (id <$> ColdStart.batch)
  ∧ emitted (run (reconcile ColdStart.batch) new_PatreonEvents Sample.clk)
    = flat_map (λ member, if truthy_opt (discordId member)
                          then [MemberEvent connected member] else []) ColdStart.batch.
Proof.
  assert (H1 : NoDup (id <$> ColdStart.batch)) by compute_done.
  split; [assumption|].
  exact (cold_start_connects ColdStart.batch Sample.clk H1).
Defined.

(** * Who is announced *)

Lemma subscribed_in_status_events member first v x :
  MemberEvent subscribed x ∈ status_events member first v →
  x = member ∧ first = false ∧ truthy_opt (seen_status v) = false
  ∧ seen_subscribed v = false.
Proof.
  unfold status_events. destruct (truthy_opt (seen_status v)); simpl.
  - destruct (bool_decide (seen_status v ≠ Some (status member)));
      [|by intros ?%elem_of_nil].
    intros H. exfalso. repeat (apply elem_of_app in H as [H|H]);
      destruct (bool_decide _) in H; simpl in H;
      try (by apply elem_of_nil in H);
      try (by apply list_elem_of_singleton in H).
    destruct (_ || _) in H; simpl in H;
      [by apply list_elem_of_singleton in H | by apply elem_of_nil in H].
  - destruct first, (seen_subscribed v); simpl; try by intros ?%elem_of_nil.
    intros [= ->]%list_elem_of_singleton. done.
Qed.

Lemma not_subscribed_linkage_events member v j :
  Forall (not_subscribed j) (linkage_events member v).
Proof.
  eapply Forall_impl; [apply linkage_linkage_events|].
  intros e (k & d & Hk & ->). unfold not_subscribed. simpl. by destruct k.
Qed.

(** A well-formed record of an entity that is known is not announced, and
    the entity stays known. *)
Lemma known_processMember j member :
  well_formed member →
  triple (known j) (processMember member) (known j) (not_subscribed j).
Proof.
  intros [Hst _] w Hw. split.
  - unfold known. rewrite lastMemberships_after_processMember.
    destruct (decide (id member = j)) as [<-|Hne].
    + rewrite get_set_eq. by apply truthy_true.
    + by rewrite get_set_ne.
  - rewrite emitted_processMember_view. apply Forall_app. split;
      [|apply not_subscribed_linkage_events].
    apply Forall_forall. intros e He. unfold not_subscribed.
    destruct e as [k data| |]; [|done|done]. simpl.
    destruct (decide (k = subscribed)) as [->|Hk];
      [|by rewrite (bool_decide_eq_false_2 _ Hk)].
    apply subscribed_in_status_events in He as (-> & _ & Hs & _).
    rewrite bool_decide_eq_true_2 by done. simpl. apply bool_decide_eq_false_2.
    intros <-. unfold known in Hw. simpl in Hs. congruence.
Qed.

Lemma not_subscribed_sweep j currentMembers keys w :
  Forall (not_subscribed j) (emitted (forEach keys (removeMember currentMembers) w)).
Proof.
  refine (proj2 (triple_forEach (λ _, True) (not_subscribed j) keys _ _ w I)).
  intros i _. by apply triple_removeMember.
Qed.

Lemma not_subscribed_not_about j l : Forall (not_about j) l → Forall (not_subscribed j) l.
Proof.
  intros H. eapply Forall_impl; [exact H|]. intros e He. unfold not_subscribed.
  destruct e as [k data| |]; [|done|done]. simpl.
  rewrite (bool_decide_eq_false_2 (id data = j)); [by rewrite andb_false_r|].
  intros Hid. apply He. simpl. by rewrite Hid.
Qed.

Lemma subscribed_not_subscribed x l :
  Forall (not_subscribed (id x)) l → MemberEvent subscribed x ∉ l.
Proof.
  intros H Hin. rewrite Forall_forall in H. specialize (H _ Hin).
  unfold not_subscribed in H. simpl in H. by rewrite !bool_decide_eq_true_2 in H.
Qed.

(** X23.  Who is announced.  When a tick on a batch of well-formed records
    emits [subscribed] with a record, the tick is not the first one, the
    object had no status for the entity (or an empty one) and did not have
    it in the subscribed set when the tick started, and the record is the
    first one of the batch with its id: a member that the object knows is
    never announced. *)
Theorem subscribed_only_when_new (s : PatreonEvents) (memberships : list MembershipData)
    (clk : nat → Z) (x : MembershipData) :
  Forall well_formed memberships →
  MemberEvent subscribed x ∈ emitted (run (reconcile memberships) s clk) →
  isFirstRun s = false
  ∧ truthy_opt (JSMap.get (id x) (lastMemberships s)) = false
  ∧ (id x ∉ subscribedMembers s)
  ∧ ∃ before rest, memberships = before ++ x :: rest ∧ (id x ∉ id <$> before).
Proof.
  intros Hwf Hin. unfold run in Hin. set (w := mkWorld s clk 0) in *.
  rewrite emitted_reconcile in Hin. apply elem_of_app in Hin as [Hin|Hin];
    [|by apply (subscribed_not_subscribed x _ (not_subscribed_sweep (id x) _ _ _)) in Hin].
  destruct (decide (id x ∈ id <$> memberships)) as [Hi|Hi].
  2: { exfalso.
       destruct (frame_forEach_processMember (id x) (view (id x) s) (isFirstRun s)
                   memberships Hi (cleared w) (conj eq_refl eq_refl)) as [_ He].
       by apply (subscribed_not_subscribed x _ (not_subscribed_not_about _ _ He)) in Hin. }
  destruct (batch_first memberships (id x) Hi) as (before & member & rest & Hsplit & Hid & Hb).
  destruct (frame_forEach_processMember (id x) (view (id x) s) (isFirstRun s)
              before Hb (cleared w) (conj eq_refl eq_refl)) as [[Hv1 Hf1] He1].
  set (w1 := after (forEach before processMember (cleared w))) in *.
  rewrite Hsplit, emitted_forEach_app in Hin. fold w1 in Hin.
  apply elem_of_app in Hin as [Hin|Hin];
    [by apply (subscribed_not_subscribed x _ (not_subscribed_not_about _ _ He1)) in Hin|].
  rewrite forEach_cons, emitted_bind in Hin.
  assert (Hwf1 : well_formed member ∧ Forall well_formed rest).
  { rewrite Hsplit in Hwf. apply Forall_app in Hwf as [_ Hwf].
    by apply Forall_cons in Hwf. }
  destruct Hwf1 as [Hwfm Hwfr].
  apply elem_of_app in Hin as [Hin|Hin].
  - rewrite emitted_processMember_view in Hin. apply elem_of_app in Hin as [Hin|Hin].
    + apply subscribed_in_status_events in Hin as (-> & Hfirst & Hs & Hsub).
      rewrite Hv1 in Hs, Hsub. rewrite Hf1 in Hfirst.
      split; [done|]. split; [exact Hs|]. split.
      * intros Hmem. simpl in Hsub. by rewrite bool_decide_eq_true_2 in Hsub.
      * by exists before, rest.
    + by apply (subscribed_not_subscribed x _ (not_subscribed_linkage_events _ _ _)) in Hin.
  - exfalso.
    assert (Hknown : known (id x) (self (after (processMember member w1)))).
    { unfold known. rewrite lastMemberships_after_processMember, <- Hid, get_set_eq.
      apply truthy_true, Hwfm. }
    assert (Htriple : triple (known (id x)) (forEach rest processMember) (known (id x))
                        (not_subscribed (id x))).
    { apply triple_forEach. intros m Hm. apply known_processMember.
      rewrite Forall_forall in Hwfr. by apply Hwfr. }
    destruct (Htriple _ Hknown) as [_ He].
    by apply (subscribed_not_subscribed x _ He) in Hin.
Qed.

Lemma subscribed_only_when_new_witness :
  Forall well_formed Returning.batch
  ∧ MemberEvent subscribed (Sample.member "A" "active_patron" None)
    ∈ emitted (run (reconcile Returning.batch) NoId.started Sample.clk)
  ∧ isFirstRun NoId.started = false
  ∧ truthy_opt (JSMap.get (id (Sample.member "A" "active_patron" None))
                  (lastMemberships NoId.started)) = false
  ∧ (id (Sample.member "A" "active_patron" None) ∉ subscribedMembers NoId.started)
  ∧ ∃ before rest,
      Returning.batch = before ++ Sample.member "A" "active_patron" None :: rest
      ∧ (id (Sample.member "A" "active_patron" None) ∉ id <$> before).
Proof.
  assert (H1 : Forall well_formed Returning.batch).
  { repeat constructor; discriminate. }
  assert (H2 : MemberEvent subscribed (Sample.member "A" "active_patron" None)
               ∈ emitted (run (reconcile Returning.batch) NoId.started Sample.clk))
    by compute_done.
  repeat (split; [assumption|]).
  exact (subscribed_only_when_new NoId.started Returning.batch Sample.clk
           (Sample.member "A" "active_patron" None) H1 H2).
Defined.

(** * The first run, event by event *)

(** An event of a record of a batch of distinct ids, as its guards give it
    on what the object records when the tick starts, is emitted. *)
Lemma record_events_emitted s memberships clk member e :
  NoDup (id <$> memberships) → member ∈ memberships →
  e ∈ record_events (isFirstRun s) s member →
  e ∈ emitted (run (reconcile memberships) s clk).
Proof.
  intros Hnd Hin He. unfold run.
  rewrite emitted_reconcile, emitted_forEach_processMember_view by done.
  apply elem_of_app. left. apply list_elem_of_In, in_flat_map.
  exists member. split; [by apply list_elem_of_In|]. by apply list_elem_of_In.
Qed.

Lemma lifecycle_event_emitted s memberships clk member previous k :
  NoDup (id <$> memberships) → member ∈ memberships →
  JSMap.get (id member) (lastMemberships s) = Some previous → truthy previous = true →
  transition previous (status member) = Some k →
  MemberEvent k member ∈ emitted (run (reconcile memberships) s clk).
Proof.
  intros Hnd Hin Hget Ht Hk. apply (record_events_emitted _ _ _ member); [done|done|].
  unfold record_events. apply elem_of_app. left.
  rewrite (status_events_known member _ (view (id member) s) previous Hget Ht), Hk. by left.
Qed.

Lemma linkage_event_emitted s memberships clk member e :
  NoDup (id <$> memberships) → member ∈ memberships →
  e ∈ linkage_events member (view (id member) s) →
  e ∈ emitted (run (reconcile memberships) s clk).
Proof.
  intros Hnd Hin He. apply (record_events_emitted _ _ _ member); [done|done|].
  unfold record_events. apply elem_of_app. by right.
Qed.

Lemma not_recorded (r : option string) (d : string) : r ≠ Some d → recorded r (Some d) = false.
Proof.
  intros Hr. destruct r as [x|]; [|done]. simpl. apply bool_decide_eq_false_2. congruence.
Qed.

Lemma removal_event_emitted s memberships clk i d :
  keys_distinct s → i ∈ JSMap.keys (lastMemberships s) → i ∉ id <$> memberships →
  lastDiscordIds s !! i = Some (Some d) → truthy d = true →
  disconnectedDiscords s !! i ≠ Some d →
  MemberEvent disconnected
    (bare_member i (or_else (JSMap.get i (lastMemberships s)) "none") (Some d))
  ∈ emitted (run (reconcile memberships) s clk).
Proof.
  intros Hkeys Hk Hi Hl Ht Hrec.
  destruct (reconcile_removed s memberships clk i Hkeys Hk Hi) as (w2 & Hv & Hfilter).
  pose proof (f_equal seen_status Hv) as H1. pose proof (f_equal seen_discordId Hv) as H2.
  pose proof (f_equal seen_disconnected Hv) as H3. simpl in H1, H2, H3.
  assert (Hev : emitted (removeMember (list_to_set (id <$> memberships)) i w2)
                = [MemberEvent disconnected
                     (bare_member i (or_else (JSMap.get i (lastMemberships s)) "none")
                        (Some d))]).
  { rewrite emitted_removeMember by (by rewrite elem_of_list_to_set).
    by rewrite H1, H2, H3, Hl, Ht, (not_recorded _ _ Hrec). }
  assert (Hin : In (MemberEvent disconnected
                      (bare_member i (or_else (JSMap.get i (lastMemberships s)) "none")
                         (Some d)))
                  (List.filter (about i) (emitted (run (reconcile memberships) s clk)))).
  { rewrite Hfilter, Hev. by left. }
  apply List.filter_In in Hin as [Hin _]. by apply list_elem_of_In.
Qed.

(** C10.  On a tick with [isFirstRun = true] no [subscribed] event is
    emitted, and the events of the other kinds are exactly those that the
    tick emits on the same object with [isFirstRun = false]; so on a first
    run every record (of a batch of distinct ids) with a Discord id whose
    entity has no previous Discord id and no connect record of that id has
    its [connected] event emitted, as on a cold start with an empty cache;
    and [isFirstRun] is [false] after a tick.  The other events fire on a
    first run whenever their guards hold, for every record of a batch of
    distinct ids: with a previous status that is not empty and differs from
    the new one, [canceled] for [former_patron], [declined] for
    [declined_patron], [reactivated] for [active_patron] after
    [former_patron] or [declined_patron], and [expired] for ["none"]; with a
    previous Discord id that the record no longer has, [disconnected] with
    that id, unless that disconnection is recorded; with a new Discord id
    after another one, [connected], unless that connection is recorded; and
    for an entity that has a status and a Discord id and is not in the
    batch, [disconnected] with its last status and Discord id, unless that
    disconnection is recorded. *)
Theorem first_run_suppresses_subscribed_only (s : PatreonEvents)
    (memberships : list MembershipData) (api : ApiScript) (clk clk' : nat → Z) :
  Forall (λ e, is_kind subscribed e = false)
    (emitted (run (reconcile memberships) (set_isFirstRun true s) clk))
  ∧ others (emitted (run (reconcile memberships) (set_isFirstRun true s) clk))
    = others (emitted (run (reconcile memberships) (set_isFirstRun false s) clk'))
  ∧ (∀ member d,
       NoDup (id <$> memberships) → member ∈ memberships →
       discordId member = Some d → truthy d = true →
       (lastDiscordIds s !! id member = None ∨ lastDiscordIds s !! id member = Some None) →
       connectedDiscords s !! id member ≠ Some d →
       MemberEvent connected member
       ∈ emitted (run (reconcile memberships) (set_isFirstRun true s) clk))
  ∧ (∀ member d,
       NoDup (id <$> memberships) → member ∈ memberships →
       discordId member = Some d → truthy d = true →
       MemberEvent connected member
       ∈ emitted (run (reconcile memberships) new_PatreonEvents clk))
  ∧ isFirstRun (state_after (run (checkForUpdates api) s clk)) = false
  ∧ (∀ member previous,
       NoDup (id <$> memberships) → member ∈ memberships →
       JSMap.get (id member) (lastMemberships s) = Some previous →
       truthy previous = true → previous ≠ status member →
       (status member = "former_patron" →
        MemberEvent canceled member
        ∈ emitted (run (reconcile memberships) (set_isFirstRun true s) clk))
       ∧ (status member = "declined_patron" →
          MemberEvent declined member
          ∈ emitted (run (reconcile memberships) (set_isFirstRun true s) clk))
       ∧ (status member = "active_patron" →
          previous = "former_patron" ∨ previous = "declined_patron" →
          MemberEvent reactivated member
          ∈ emitted (run (reconcile memberships) (set_isFirstRun true s) clk))
       ∧ (status member = "none" →
          MemberEvent expired member
          ∈ emitted (run (reconcile memberships) (set_isFirstRun true s) clk)))
  ∧ (∀ member previous,
       NoDup (id <$> memberships) → member ∈ memberships →
       lastDiscordIds s !! id member = Some (Some previous) →
       truthy_opt (discordId member) = false ∨ discordId member ≠ Some previous →
       disconnectedDiscords s !! id member ≠ Some previous →
       MemberEvent disconnected (with_discordId member (Some previous))
       ∈ emitted (run (reconcile memberships) (set_isFirstRun true s) clk))
  ∧ (∀ member d previous,
       NoDup (id <$> memberships) → member ∈ memberships →
       discordId member = Some d → truthy d = true →
       lastDiscordIds s !! id member = Some (Some previous) → previous ≠ d →
       connectedDiscords s !! id member ≠ Some d →
       MemberEvent connected member
       ∈ emitted (run (reconcile memberships) (set_isFirstRun true s) clk))
  ∧ (∀ i d,
       keys_distinct s → i ∈ JSMap.keys (lastMemberships s) → i ∉ id <$> memberships →
       lastDiscordIds s !! i = Some (Some d) → truthy d = true →
       disconnectedDiscords s !! i ≠ Some d →
       MemberEvent disconnected
         (bare_member i (or_else (JSMap.get i (lastMemberships s)) "none") (Some d))
       ∈ emitted (run (reconcile memberships) (set_isFirstRun true s) clk)).
Proof.
  split; [|split; [|split; [|split; [|split; [|split; [|split; [|split]]]]]]].
  - by apply first_run_reconcile_silent.
  - by apply alike_reconcile.
  - intros member d Hnd Hin Hd Ht Hprev Hrec. by apply (reconcile_connects _ _ _ _ d).
  - intros member d Hnd Hin Hd Ht. apply (reconcile_connects _ _ _ _ d); try done.
    by left.
  - apply isFirstRun_after_checkForUpdates.
  - intros member previous Hnd Hin Hget Ht Hne.
    assert (Hfire : ∀ k, transition previous (status member) = Some k →
              MemberEvent k member
              ∈ emitted (run (reconcile memberships) (set_isFirstRun true s) clk)).
    { intros k Hk. by apply (lifecycle_event_emitted _ _ _ _ previous). }
    assert (Hneq : bool_decide (previous = status member) = false)
      by (by apply bool_decide_eq_false_2).
    repeat split.
    + intros Hst. apply Hfire. unfold transition. by rewrite Hneq, Hst.
    + intros Hst. apply Hfire. unfold transition. by rewrite Hneq, Hst.
    + intros Hst Hprev. apply Hfire. unfold transition. rewrite Hneq, Hst.
      by destruct Hprev as [-> | ->].
    + intros Hst. apply Hfire. unfold transition. by rewrite Hneq, Hst.
  - intros member previous Hnd Hin Hl Hgone Hrec.
    apply (linkage_event_emitted _ _ _ member); [done|done|]. unfold linkage_events.
    change (seen_discordId (view (id member) (set_isFirstRun true s)))
      with (lastDiscordIds s !! id member).
    change (seen_disconnected (view (id member) (set_isFirstRun true s)))
      with (disconnectedDiscords s !! id member).
    rewrite Hl, (not_recorded _ _ Hrec).
    destruct (truthy_opt (discordId member)) eqn:Htruthy; cbn [negb]; [|by left].
    destruct Hgone as [Hgone | Hgone]; [done|].
    rewrite bool_decide_eq_true_2 by congruence. by left.
  - intros member d previous Hnd Hin Hd Ht Hl Hne Hrec.
    apply (linkage_event_emitted _ _ _ member); [done|done|]. unfold linkage_events.
    change (seen_discordId (view (id member) (set_isFirstRun true s)))
      with (lastDiscordIds s !! id member).
    change (seen_connected (view (id member) (set_isFirstRun true s)))
      with (connectedDiscords s !! id member).
    rewrite Hl, Hd, (not_recorded _ _ Hrec). cbn [truthy_opt]. rewrite Ht. cbn [negb].
    rewrite bool_decide_eq_true_2 by congruence.
    destruct (recorded _ (Some previous)); [by left|]. right.
    destruct (truthy previous); by left.
  - intros i d Hkeys Hk Hi Hl Ht Hrec.
    by apply (removal_event_emitted (set_isFirstRun true s)).
Qed.

Lemma first_run_suppresses_subscribed_only_witness :
  (NoDup (id <$> ColdStart.batch)
   ∧ Sample.member "A" "active_patron" (Some "D1") ∈ ColdStart.batch
   ∧ truthy "D1" = true
   ∧ MemberEvent connected (Sample.member "A" "active_patron" (Some "D1"))
     ∈ emitted (run (reconcile ColdStart.batch) new_PatreonEvents Sample.clk))
  ∧ (NoDup (id <$> [Linked.former]) ∧ Linked.former ∈ [Linked.former]
     ∧ JSMap.get (id Linked.former) (lastMemberships (constructor (Some Linked.cache)))
       = Some "active_patron"
     ∧ truthy "active_patron" = true ∧ "active_patron" ≠ status Linked.former
     ∧ status Linked.former = "former_patron"
     ∧ MemberEvent canceled Linked.former
       ∈ emitted (run (reconcile [Linked.former])
                    (set_isFirstRun true (constructor (Some Linked.cache))) Sample.clk)).
Proof.
  assert (H1 : NoDup (id <$> ColdStart.batch)) by compute_done.
  assert (H2 : Sample.member "A" "active_patron" (Some "D1") ∈ ColdStart.batch)
    by compute_done.
  assert (H3 : truthy "D1" = true) by reflexivity.
  assert (H4 : NoDup (id <$> [Linked.former])) by compute_done.
  assert (H5 : Linked.former ∈ [Linked.former]) by compute_done.
  assert (H6 : JSMap.get (id Linked.former)
                 (lastMemberships (constructor (Some Linked.cache)))
               = Some "active_patron") by reflexivity.
  assert (H7 : truthy "active_patron" = true) by reflexivity.
  assert (H8 : "active_patron" ≠ status Linked.former) by discriminate.
  assert (H9 : status Linked.former = "former_patron") by reflexivity.
  split.
  - repeat (split; [assumption|]).
    exact (proj1 (proj2 (proj2 (proj2
      (first_run_suppresses_subscribed_only new_PatreonEvents ColdStart.batch Malformed
         Sample.clk Sample.clk))))
      (Sample.member "A" "active_patron" (Some "D1")) "D1" H1 H2 eq_refl H3).
  - repeat (split; [assumption|]).
    exact (proj1 (proj1 (proj2 (proj2 (proj2 (proj2 (proj2
      (first_run_suppresses_subscribed_only (constructor (Some Linked.cache))
         [Linked.former] Malformed Sample.clk Sample.clk))))))
      Linked.former "active_patron" H4 H5 H6 H7 H8) H9).
Defined.
